(** * Xerox FTP to Egnyte gateway: a shallow embedding of its session
    registry, its upload queue and its Egnyte client.

    The repository holds four variants of the gateway:
    - [Production]: the ftp-srv gateway "v31" with the [activeConnections]
      registry, idle and auto-disconnect timers and the [EgnyteClient] class;
    - [Fixed]: the ftp-srv gateway with [uploadQueue], [processUploadQueue]
      (snapshot and clear) and the [processTimer] debounce;
    - [Ftpd]: the ftpd gateway whose [processUploadQueue] walks the live
      queue and clears it at the end;
    - [Simple]: backup/simple-ftp-server.js with [processUploads].

    JavaScript objects that are shared by reference (connections, the
    per-login [connectionInfo], queue items) live in explicit stores and are
    named by their index; the event loop is a function from an event and a
    world to the next world, and every [await] is a point where the handler
    is parked in the world until the environment settles it. *)

From Stdlib Require Import Ascii String.
From stdpp Require Import gmap strings list pretty.

Local Open Scope string_scope.
Local Open Scope nat_scope.
Local Open Scope list_scope.

(** ** JavaScript [Map] with string keys

    A [Map] keeps its entries in insertion order; [set] on a present key
    replaces the value in place, [delete] removes the entry of the key. *)
Module JSMap.

Abbreviation t V := (list (string * V)) (only parsing).

Fixpoint get {V} (k : string) (m : t V) : option V :=
  match m with
  | [] => None
  | (k', v) :: m' => if decide (k = k') then Some v else get k m'
  end.

Definition has {V} (k : string) (m : t V) : bool :=
  match get k m with Some _ => true | None => false end.

Fixpoint set {V} (k : string) (v : V) (m : t V) : t V :=
  match m with
  | [] => [(k, v)]
  | (k', v') :: m' =>
      if decide (k = k') then (k, v) :: m' else (k', v') :: set k v m'
  end.

Fixpoint delete {V} (k : string) (m : t V) : t V :=
  match m with
  | [] => []
  | (k', v') :: m' =>
      if decide (k = k') then m' else (k', v') :: delete k m'
  end.

Definition size {V} (m : t V) : nat := length m.

Definition keys {V} (m : t V) : list string := m.*1.


End JSMap.

(** ** Values shared by all variants *)

(** An entry of config/user-mapping.json. *)
Module User.
Record t := mk {
  email : string;
  password : string;
  egnytePath : string
}.
End User.

(** The double quote character, for messages that quote a user name. *)
Definition dquote : string := String (Ascii.ascii_of_nat 34) EmptyString.

(** The mapping loaded by [JSON.parse]: its own keys and their entries. *)
Definition userMappings_t : Type := gmap string User.t.

(** The names that every plain object has through [Object.prototype]. *)
Definition Object_prototype : list string :=
  ["constructor"; "__proto__"; "hasOwnProperty"; "isPrototypeOf";
   "propertyIsEnumerable"; "toLocaleString"; "toString"; "valueOf";
   "__defineGetter__"; "__defineSetter__"; "__lookupGetter__";
   "__lookupSetter__"].

(** The value of [userMappings[name]]: the entry of an own key; for a name
    that the mapping has through [Object.prototype] only, a function or an
    object, which is truthy and whose [password], [email] and [egnytePath]
    are [undefined]; and [undefined] for any other name. *)
Inductive property :=
| Own (userInfo : User.t)
| Inherited
| Undefined.

Definition userMappings_get (userMappings : userMappings_t) (name : string)
    : property :=
  match userMappings !! name with
  | Some userInfo => Own userInfo
  | None =>
      if bool_decide (name ∈ Object_prototype) then Inherited else Undefined
  end.

(** [if (userInfo)], [userInfo.egnytePath] and a value inside a template
    literal, where [undefined] reads as the text undefined. *)
Definition truthy (p : property) : bool :=
  match p with Undefined => false | _ => true end.

Definition egnytePath_of (p : property) : option string :=
  match p with Own userInfo => Some (User.egnytePath userInfo) | _ => None end.

Definition template (v : option string) : string := default "undefined" v.

(** The local file system, as far as the gateway looks at it: the files
    that exist, each with its size in bytes. [fs.unlinkSync] removes a file
    that exists and throws ENOENT for one that does not. *)
Definition fs_t : Type := gmap string N.

Definition existsSync (p : string) (fs : fs_t) : bool :=
  match fs !! p with Some _ => true | None => false end.

Definition statSync (p : string) (fs : fs_t) : option N := fs !! p.

Definition unlinkSync (p : string) (fs : fs_t) : option fs_t :=
  match fs !! p with Some _ => Some (delete p fs) | None => None end.

Inductive level := Info | Success | Warning | Error | Debug.

(** A JavaScript [Error]: its message and the optional [cause] and [code]
    properties that the handlers print. *)
Record jsError := mkError {
  message : string;
  cause : option string;
  code : option string
}.

Definition newError (msg : string) : jsError := mkError msg None None.

(** An HTTP request as the client passes it to [fetch]. *)
Inductive body_t :=
| NoBody
| JsonBody (text : string)
| FileStream (localPath : string).

Record request := mkRequest {
  method : string;
  url : string;
  headers : list (string * string);
  body : body_t;
  timeout : N
}.

(** An element of [uploadQueue]. Two pushes make two objects even when
    all fields agree ([indexOf] compares objects, not fields): [oid] is the
    identity of the object. *)
Record item := mkItem {
  oid : nat;
  localPath : string;
  egnytePath : string;
  fileName : string;
  username : string
}.

(** [uploadQueue.indexOf(it)] *)
Fixpoint indexOf (it : item) (q : list item) : option nat :=
  match q with
  | [] => None
  | x :: q' =>
      if decide (oid x = oid it) then Some 0 else S <$> indexOf it q'
  end.

(** What an awaited call settles to: [None] when it resolves, the error
    when it rejects. *)
Definition outcome : Type := option jsError.

(** What the gateway does to the outside world, in the order it does it. *)
Inductive effect :=
| Log (l : level) (msg : string)
| Reject (e : jsError)
| Resolve (root cwd : string)
| Close (c : nat)
| SetTimeout (id : nat) (delay : N)
| ClearTimeout (id : nat)
| MapSet (k : string) (ref : nat)
| MapDelete (k : string)
| MapClear
| Unlink (p : string)
| Fetch (r : request)
| WriteLog (result action username description : string)
| Push (it : item)
| Attempt (it : item)
| Callback (name : string)
| Uncaught (e : jsError).

(** ** Code that can throw and that writes to a state

    [M S A] is a computation over a state [S] that returns an [A] or throws
    a [jsError]; [try_catch] is [try { ... } catch (error) { ... }]. *)
Inductive res (A : Type) :=
| Ret (a : A)
| Throw (e : jsError).
Arguments Ret {A} a.
Arguments Throw {A} e.

Definition M (S A : Type) : Type := S → res A * S.

Global Instance M_ret {S} : MRet (M S) := λ A a s, (Ret a, s).

Global Instance M_bind {S} : MBind (M S) := λ A B f m s,
  match m s with
  | (Ret a, s') => f a s'
  | (Throw e, s') => (Throw e, s')
  end.

Definition throw {S A} (e : jsError) : M S A := λ s, (Throw e, s).

Definition try_catch {S A} (m : M S A) (h : jsError → M S A) : M S A := λ s,
  match m s with
  | (Ret a, s') => (Ret a, s')
  | (Throw e, s') => h e s'
  end.

(** [s.includes(sub)] *)
Fixpoint includes (sub s : string) : bool :=
  String.prefix sub s ||
  match s with
  | EmptyString => false
  | String _ s' => includes sub s'
  end.

(** [s.replace(/^\/+/, '')] *)
Fixpoint strip_leading_slashes (s : string) : string :=
  match s with
  | String c s' =>
      if Ascii.eqb c "/"%char then strip_leading_slashes s' else s
  | EmptyString => EmptyString
  end.

(** [s.replace(pat, rep)] for a string pattern: the first occurrence only.
    ([rep] holds no dollar sign in the uses below.) *)
Fixpoint replace_first (pat rep s : string) : string :=
  if String.prefix pat s then
    rep +:+ String.substring (String.length pat)
              (String.length s - String.length pat) s
  else
    match s with
    | EmptyString => EmptyString
    | String c s' => String c (replace_first pat rep s')
    end.

(** ** The Egnyte client of the production gateway *)
Module EgnyteClient.

Record t := mkClient {
  apiToken : string;
  domain : string;
  baseUrl : string
}.

Record response := mkResponse {
  status : nat;
  statusText : string;
  (** [await response.text()]: [None] when reading the body fails *)
  text : option string
}.

(** [response.ok] *)
Definition ok (r : response) : bool :=
  (200 <=? status r) && (status r <=? 299).

(** [await fetch(...)] resolves to a response or rejects (no connection,
    the [AbortSignal] timeout, a broken file stream). *)
Inductive fetched :=
| Rejected (e : jsError)
| Responded (r : response).

Record uploadResult := mkUploadResult {
  success : bool;
  path : string;
  size : N;
  uploadTime : N;
  egnyteResponse : option string
}.

Section methods.
(** [CONFIG.EGNYTE.UPLOAD_TIMEOUT], the client object, the network's
    answer to each request, Node's [path.basename] and [path.dirname],
    [JSON.parse] (which fails on a body that is not JSON), and the clock
    read by [new Date()]. *)
Context (UPLOAD_TIMEOUT : N) (this : t) (net : request → fetched).
Context (basename dirname : string → string).
Context (JSON_parse : string → option string) (now : N).

Definition log (l : level) (msg : string) : M (list effect) () :=
  λ tr, (Ret (), tr ++ [Log l msg]).

Definition fetch (r : request) : M (list effect) response := λ tr,
  match net r with
  | Rejected e => (Throw e, tr ++ [Fetch r])
  | Responded resp => (Ret resp, tr ++ [Fetch r])
  end.

Definition checkRequest (cleanPath : string) : request :=
  mkRequest "GET" (baseUrl this +:+ "/pubapi/v1/fs/" +:+ cleanPath)
    [("Authorization", "Bearer " +:+ apiToken this)] NoBody 10000%N.

Definition createRequest (cleanPath : string) : request :=
  mkRequest "POST" (baseUrl this +:+ "/pubapi/v1/fs/" +:+ cleanPath)
    [("Authorization", "Bearer " +:+ apiToken this);
     ("Content-Type", "application/json")]
    (JsonBody ("{" +:+ dquote +:+ "action" +:+ dquote +:+ ":" +:+
               dquote +:+ "add_folder" +:+ dquote +:+ "}"))
    10000%N.

(** The body of the [try] block of [ensureDirectoryExists]. *)
Definition ensureDirectoryExists_try (directoryPath : string)
    : M (list effect) (option bool) :=
  let cleanPath := strip_leading_slashes directoryPath in
  log Debug ("Checking if directory exists: /" +:+ cleanPath) ;;
  response ← fetch (checkRequest cleanPath) ;
  if ok response then
    log Debug ("Directory exists: /" +:+ cleanPath) ;;
    mret (Some true)
  else if status response =? 404 then
    log Info ("Creating directory: /" +:+ cleanPath) ;;
    createResponse ← fetch (createRequest cleanPath) ;
    if negb (ok createResponse) then
      throw (newError ("Failed to create directory: HTTP " +:+
                       pretty (status createResponse)))
    else
      log Success ("Directory created: /" +:+ cleanPath) ;;
      mret (Some true)
  else
    throw (newError ("Failed to check directory: HTTP " +:+
                     pretty (status response))).

(** [ensureDirectoryExists]: returns [true], or [undefined] after the
    [catch] block has logged the failure. *)
Definition ensureDirectoryExists (directoryPath : string)
    : M (list effect) (option bool) :=
  try_catch (ensureDirectoryExists_try directoryPath) (λ error,
    log Warning ("Directory check/creation failed: " +:+ message error) ;;
    log Info "Proceeding with upload anyway..." ;;
    mret None).

Definition uploadRequest (localFilePath dest : string) (size : N)
    : request :=
  mkRequest "POST" (baseUrl this +:+ "/pubapi/v1/fs-content" +:+ dest)
    [("Authorization", "Bearer " +:+ apiToken this);
     ("Content-Type", "application/octet-stream");
     ("Content-Length", pretty size)]
    (FileStream localFilePath) UPLOAD_TIMEOUT.

(** The message built from a response that is not [ok]. *)
Definition httpErrorMessage (r : response) : string :=
  let errorMessage :=
    "HTTP " +:+ pretty (status r) +:+ ": " +:+ statusText r in
  match text r with
  | Some (String c rest) => errorMessage +:+ " - " +:+ String c rest
  | _ => errorMessage
  end.

(** The body of the [try] block of [uploadFile]; [fs] is the file system
    at the call, read by [existsSync] and [statSync] before the first
    [await]. The two log lines that print the size in KB are left out. *)
Definition uploadFile_try (fs : fs_t) (localFilePath dest : string)
    : M (list effect) uploadResult :=
  log Info ("Egnyte upload starting: " +:+ dest) ;;
  match statSync localFilePath fs with
  | None => throw (newError ("Local file not found: " +:+ localFilePath))
  | Some size =>
      let fileName := basename localFilePath in
      log Info ("File: " +:+ fileName) ;;
      log Info ("Destination: " +:+ dest) ;;
      ensureDirectoryExists (dirname dest) ;;
      log Info "Uploading to Egnyte..." ;;
      response ← fetch (uploadRequest localFilePath dest size) ;
      if negb (ok response) then
        throw (newError (httpErrorMessage response))
      else
        responseData ←
          match text response with
          | Some (String c rest) =>
              match JSON_parse (String c rest) with
              | Some v => mret (Some v)
              | None =>
                  log Debug
                    "No JSON response body (this is normal for some uploads)" ;;
                  mret None
              end
          | Some EmptyString => mret None
          | None =>
              log Debug
                "No JSON response body (this is normal for some uploads)" ;;
              mret None
          end ;
        log Success "Egnyte upload successful!" ;;
        log Info ("File stored at: " +:+ dest) ;;
        mret (mkUploadResult true dest size now responseData)
  end.

(** The hint the [catch] block derives from the error message. *)
Definition errorContext (error : jsError) : M (list effect) () :=
  if includes "401" (message error) then
    log Error "Authentication failed - check EGNYTE_API_TOKEN"
  else if includes "403" (message error) then
    log Error
      "Permission denied - check token permissions and destination path"
  else if includes "404" (message error) then
    log Error "Destination path not found - check Egnyte folder structure"
  else if includes "timeout" (message error) then
    log Error "Upload timed out - check network connection and file size"
  else if includes "fetch failed" (message error) then
    log Error "Network error - check internet connection and Egnyte domain" ;;
    log Error ("Try: ping " +:+ domain this +:+ ".egnyte.com")
  else mret ().

Definition uploadFile (fs : fs_t) (localFilePath dest : string)
    : M (list effect) uploadResult :=
  try_catch (uploadFile_try fs localFilePath dest) (λ error,
    log Error ("Egnyte upload failed: " +:+ message error) ;;
    log Error ("File: " +:+ basename localFilePath) ;;
    log Error ("Intended destination: " +:+ dest) ;;
    log Error ("Upload URL: " +:+ baseUrl this +:+
               "/pubapi/v1/fs-content" +:+ dest) ;;
    match cause error with
    | Some c => log Error ("Error cause: " +:+ c)
    | None => mret ()
    end ;;
    match code error with
    | Some c => log Error ("Error code: " +:+ c)
    | None => mret ()
    end ;;
    errorContext error ;;
    throw error).

Definition userinfoRequest : request :=
  mkRequest "GET" (baseUrl this +:+ "/pubapi/v1/userinfo")
    [("Authorization", "Bearer " +:+ apiToken this)] NoBody 10000%N.

(** [testConnection]. [username_of] reads the [username] property of the
    parsed body ([None] when it is missing or falsy) and [json_error] is
    what [await response.json()] throws for a body that cannot be read
    ([None]) or is not JSON. *)
Definition testConnection (username_of : string → option string)
    (json_error : option string → jsError) : M (list effect) () :=
  try_catch
    (log Info "Testing Egnyte connectivity..." ;;
     response ← fetch userinfoRequest ;
     if ok response then
       userInfo ←
         match text response with
         | Some body =>
             match JSON_parse body with
             | Some v => mret v
             | None => throw (json_error (Some body))
             end
         | None => throw (json_error None)
         end ;
       log Success "Egnyte connection successful!" ;;
       log Info ("Connected as: " +:+
                 default "Unknown" (username_of userInfo)) ;;
       log Info ("Domain: " +:+ domain this)
     else
       log Warning ("Egnyte connection test failed: HTTP " +:+
                    pretty (status response)) ;;
       log Warning "Please verify your API token and domain")
    (λ error,
     log Warning ("Egnyte connection test failed: " +:+ message error) ;;
     log Warning "Please check internet connection and Egnyte configuration").

End methods.

(** What [undefined.replace(...)] throws. *)
Definition TypeError_replace : jsError :=
  newError "Cannot read properties of undefined (reading 'replace')".

Definition TokenNotConfigured : jsError :=
  newError "EGNYTE_API_TOKEN not configured. Please update your .env file.".

Definition DomainNotConfigured : jsError :=
  newError "EGNYTE_DOMAIN not configured. Please update your .env file.".

(** [new EgnyteClient()], up to the call of [testConnection] that ends it;
    [API_TOKEN] and [DOMAIN] are [CONFIG.EGNYTE.API_TOKEN] and
    [CONFIG.EGNYTE.DOMAIN], [None] for a variable that is not set. *)
Definition construct (API_TOKEN DOMAIN : option string)
    : M (list effect) t :=
  match DOMAIN with
  | None => throw TypeError_replace
  | Some domain =>
      (* Fix domain URL construction - remove .egnyte.com if already
         present *)
      let cleanDomain := replace_first ".egnyte.com" EmptyString domain in
      let baseUrl := "https://" +:+ cleanDomain +:+ ".egnyte.com" in
      (* Validate configuration *)
      match API_TOKEN with
      | None | Some EmptyString => throw TokenNotConfigured
      | Some apiToken =>
          if String.eqb apiToken "your_actual_token_here" then
            throw TokenNotConfigured
          else
            match domain with
            | EmptyString => throw DomainNotConfigured
            | _ =>
                log Info ("Egnyte client initialized for domain: " +:+
                          cleanDomain +:+ ".egnyte.com") ;;
                mret (mkClient apiToken domain baseUrl)
            end
      end
  end.

End EgnyteClient.

(** ** The production gateway: session registry, timers and STOR handler *)
Module Production.

(** The part of [CONFIG] the handlers read. [IDLE_TIMEOUT] and
    [AUTO_DISCONNECT_DELAY] are the values of [parseInt] on the environment;
    the handlers only pass them to [setTimeout], which treats every value
    below 1 alike, and 0 stands for all of these. *)
Record config := mkConfig {
  MAX_CONNECTIONS : nat;
  IDLE_TIMEOUT : N;
  AUTO_DISCONNECT_DELAY : N;
  SCAN_DROP_DIRECTORY : string;
  UPLOAD_TIMEOUT : N
}.

(** A connection object of the FTP library, as far as the gateway reads
    it; [closeThrows] is what its [close()] throws, if it throws. *)
Record connection := mkConnection {
  ip : string;
  destroyed : bool;
  readyState : string;
  closeThrows : option jsError
}.

(** The [connectionInfo] object that [login] stores in the registry. *)
Record connectionInfo := mkConnectionInfo {
  conn : nat;
  username : string;
  userInfo : User.t;
  loginTime : N;
  lastActivity : N
}.

(** The scope of one successful [login]: its [connectionInfo] object and
    its [idleTimer] variable. The listeners that the login registers on the
    connection ([STOR], [close], [error], [end], the other commands) belong
    to this scope; a reference to a scope is its index in [heap]. *)
Record closure := mkClosure {
  info : connectionInfo;
  idleTimer : nat
}.

Inductive callback :=
| IdleTimeout (ref : nat)
| AutoDisconnect (ref : nat).

Record timer := mkTimer {
  due : N;
  cb : callback
}.

(** A STOR handler parked at [await egnyteClient.uploadFile(...)]: the
    scope it runs in, its local variables and the file system it saw when
    it made the call. *)
Record parked_t := mkParked {
  p_ref : nat;
  p_filePath : string;
  p_fileName : string;
  p_dest : string;
  p_fs : fs_t
}.

Record world := mkWorld {
  (** [const activeConnections = new Map()], from user name to the
      [connectionInfo] object of a scope *)
  activeConnections : JSMap.t nat;
  heap : list closure;
  conns : list connection;
  timers : gmap nat timer;
  nextTimer : nat;
  parked : gmap nat parked_t;
  nextParked : nat;
  now : N;
  fs : fs_t;
  trace : list effect
}.

Definition init : world :=
  mkWorld [] [] [] ∅ 0 ∅ 0 0%N ∅ [].

Definition with_registry (f : JSMap.t nat → JSMap.t nat) (w : world) : world :=
  mkWorld (f (activeConnections w)) (heap w) (conns w) (timers w)
    (nextTimer w) (parked w) (nextParked w) (now w) (fs w) (trace w).

Definition with_heap (f : list closure → list closure) (w : world) : world :=
  mkWorld (activeConnections w) (f (heap w)) (conns w) (timers w)
    (nextTimer w) (parked w) (nextParked w) (now w) (fs w) (trace w).

Definition with_conns (f : list connection → list connection) (w : world)
    : world :=
  mkWorld (activeConnections w) (heap w) (f (conns w)) (timers w)
    (nextTimer w) (parked w) (nextParked w) (now w) (fs w) (trace w).

Definition with_timers (f : gmap nat timer → gmap nat timer) (n : nat)
    (w : world) : world :=
  mkWorld (activeConnections w) (heap w) (conns w) (f (timers w))
    n (parked w) (nextParked w) (now w) (fs w) (trace w).

Definition with_parked (f : gmap nat parked_t → gmap nat parked_t) (n : nat)
    (w : world) : world :=
  mkWorld (activeConnections w) (heap w) (conns w) (timers w)
    (nextTimer w) (f (parked w)) n (now w) (fs w) (trace w).

Definition with_now (t : N) (w : world) : world :=
  mkWorld (activeConnections w) (heap w) (conns w) (timers w)
    (nextTimer w) (parked w) (nextParked w) t (fs w) (trace w).

Definition with_fs (f : fs_t) (w : world) : world :=
  mkWorld (activeConnections w) (heap w) (conns w) (timers w)
    (nextTimer w) (parked w) (nextParked w) (now w) f (trace w).

Definition with_trace (tr : list effect) (w : world) : world :=
  mkWorld (activeConnections w) (heap w) (conns w) (timers w)
    (nextTimer w) (parked w) (nextParked w) (now w) (fs w) tr.

Definition emit (e : effect) (w : world) : world :=
  with_trace (trace w ++ [e]) w.

(** [activeConnections.set(k, ref)], [.delete(k)] and [.clear()] *)
Definition map_set (k : string) (ref : nat) (w : world) : world :=
  emit (MapSet k ref) (with_registry (JSMap.set k ref) w).

Definition map_delete (k : string) (w : world) : world :=
  emit (MapDelete k) (with_registry (JSMap.delete k) w).

Definition map_clear (w : world) : world :=
  emit MapClear (with_registry (λ _, []) w).

Definition lift (f : world → world) : M world () := λ w, (Ret (), f w).

Definition ask {A} (f : world → A) : M world A := λ w, (Ret (f w), w).

Definition logger (l : level) (msg : string) : M world () :=
  lift (emit (Log l msg)).

(** The delay after which Node runs a timer set with [delay]: [delay]
    itself from 1 to [TIMEOUT_MAX], and 1 ms for any other value. *)
Definition TIMEOUT_MAX : N := 2147483647.

Definition timer_delay (delay : N) : N :=
  if decide (1 ≤ delay ≤ TIMEOUT_MAX)%N then delay else 1%N.

(** [setTimeout(cb, delay)]: the timer is due [timer_delay delay] ms from
    now. *)
Definition setTimeout (c : callback) (delay : N) : M world nat := λ w,
  let id := nextTimer w in
  (Ret id,
   emit (SetTimeout id delay)
     (with_timers (insert id (mkTimer (now w + timer_delay delay)%N c))
        (S id) w)).

Definition clearTimeout (id : nat) : M world () := λ w,
  (Ret (), emit (ClearTimeout id) (with_timers (delete id) (nextTimer w) w)).

(** [connection.close()] on connection [c] *)
Definition close (c : nat) : M world () := λ w,
  match conns w !! c with
  | Some (mkConnection _ _ _ (Some e)) => (Throw e, emit (Close c) w)
  | _ => (Ret (), emit (Close c) w)
  end.

(** [fs.statSync(p).size] and [fs.unlinkSync(p)] on the world's files *)
Definition ENOENT (op p : string) : jsError :=
  mkError ("ENOENT: no such file or directory, " +:+ op +:+ " '" +:+ p
           +:+ "'") None (Some "ENOENT").

Definition fs_statSync (p : string) : M world N := λ w,
  match statSync p (fs w) with
  | Some size => (Ret size, w)
  | None => (Throw (ENOENT "stat" p), w)
  end.

Definition fs_unlinkSync (p : string) : M world () := λ w,
  match unlinkSync p (fs w) with
  | Some fs' => (Ret (), emit (Unlink p) (with_fs fs' w))
  | None => (Throw (ENOENT "unlink" p), emit (Unlink p) w)
  end.

(** Park a STOR handler at its [await]. *)
Definition park (ref : nat) (filePath fileName dest : string) : M world () :=
  λ w, (Ret (),
        with_parked
          (insert (nextParked w) (mkParked ref filePath fileName dest (fs w)))
          (S (nextParked w)) w).

(** [connInfo.connection.destroyed ||
     connInfo.connection.readyState === 'closed'] *)
Definition is_stale (ref : nat) (w : world) : bool :=
  match heap w !! ref with
  | Some cl =>
      match conns w !! conn (info cl) with
      | Some k => destroyed k || bool_decide (readyState k = "closed")
      | None => false
      end
  | None => false
  end.

(** One round of the loop over [activeConnections.entries()] that drops
    the stale entries; [label] is the text of the warning. *)
Definition cleanup_entry (label : string) (w : world) (e : string * nat)
    : world :=
  if is_stale e.2 w then
    map_delete e.1 (emit (Log Warning (label +:+ e.1)) w)
  else w.

Definition cleanup (label : string) (w : world) : world :=
  fold_left (cleanup_entry label) (activeConnections w) w.

(** [keys.join(', ') || 'none'] *)
Definition join_or_none (keys : list string) : string :=
  match String.concat ", " keys with
  | EmptyString => "none"
  | s => s
  end.

Definition CapacityExceeded : jsError :=
  newError "Server busy - maximum connections reached".

Definition UserNotFound (username : string) : jsError :=
  newError ("User " +:+ dquote +:+ username +:+ dquote +:+ " not found").

Definition InvalidPassword : jsError := newError "Invalid password".

Section handlers.
(** The configuration, the loaded user mapping, the Egnyte client
    ([None] when its constructor threw at start-up), Node's [path]
    functions and [JSON.parse]. *)
Context (CONFIG : config) (userMappings : userMappings_t).
Context (egnyteClient : option EgnyteClient.t).
Context (basename dirname extname : string → string).
Context (JSON_parse : string → option string).

Definition reject (e : jsError) : M world () := lift (emit (Reject e)).

(** The idle-timeout callback of scope [ref]. *)
Definition idle_timeout (ref : nat) (cl : closure) : M world () :=
  logger Info ("Idle timeout for user " +:+ username (info cl) +:+
               ". Disconnecting...") ;;
  lift (map_delete (username (info cl))) ;;
  try_catch (close (conn (info cl))) (λ err,
    logger Debug ("Error closing connection: " +:+ message err)).

(** [resetIdleTimer] of scope [ref]. *)
Definition resetIdleTimer (ref : nat) (cl : closure) : M world () :=
  clearTimeout (idleTimer cl) ;;
  t ← ask now ;
  id ← setTimeout (IdleTimeout ref) (IDLE_TIMEOUT CONFIG) ;
  lift (with_heap (λ h,
    <[ref := mkClosure
        (mkConnectionInfo (conn (info cl)) (username (info cl))
           (userInfo (info cl)) (loginTime (info cl)) t) id]> h)).

(** The [login] listener of the server; returns the new scope when it
    resolves and [None] when it rejects. *)
Definition login (c : nat) (username password : string)
    : M world (option nat) :=
  k ← ask (λ w, conns w !! c) ;
  match k with
  | None => mret None
  | Some connection =>
  logger Info ("Login attempt: " +:+ username +:+ " from " +:+
               ip connection) ;;
  size0 ← ask (λ w, JSMap.size (activeConnections w)) ;
  logger Debug ("Current active connections: " +:+ pretty size0) ;;
  keys ← ask (λ w, JSMap.keys (activeConnections w)) ;
  logger Debug ("Active users: " +:+ join_or_none keys) ;;
  (* Check if we have stale connections and clean them up *)
  lift (cleanup "Cleaning up stale connection for ") ;;
  (* Check connection limits after cleanup *)
  size1 ← ask (λ w, JSMap.size (activeConnections w)) ;
  if decide (MAX_CONNECTIONS CONFIG ≤ size1) then
    logger Warning ("Connection limit reached (" +:+
                    pretty (MAX_CONNECTIONS CONFIG) +:+
                    " max). Rejecting " +:+ username) ;;
    logger Debug ("Active connections after cleanup: " +:+ pretty size1) ;;
    reject CapacityExceeded ;;
    mret None
  else
  (* Check if user exists in mappings *)
  match userMappings_get userMappings username with
  | Undefined =>
      logger Warning ("Authentication failed: Unknown user " +:+ dquote
                      +:+ username +:+ dquote) ;;
      reject (UserNotFound username) ;;
      mret None
  | Inherited =>
      (* Check password: [undefined !== password] *)
      logger Warning ("Authentication failed: Invalid password for user "
                      +:+ dquote +:+ username +:+ dquote) ;;
      reject InvalidPassword ;;
      mret None
  | Own userInfo =>
  (* Check password *)
  if decide (User.password userInfo ≠ password) then
    logger Warning ("Authentication failed: Invalid password for user "
                    +:+ dquote +:+ username +:+ dquote) ;;
    reject InvalidPassword ;;
    mret None
  else
  (* Check if user already has an active connection *)
  existing ← ask (λ w, JSMap.get username (activeConnections w)) ;
  match existing with
  | Some old =>
      existingConn ← ask (λ w, info <$> heap w !! old) ;
      logger Warning ("User " +:+ username +:+
                      " already connected. Disconnecting previous session.") ;;
      match existingConn with
      | Some ci =>
          try_catch (close (conn ci)) (λ err,
            logger Debug ("Could not close existing connection: " +:+
                          message err))
      | None => mret ()
      end ;;
      lift (map_delete username)
  | None => mret ()
  end ;;
  (* Authentication successful *)
  logger Success ("Authentication successful for " +:+ username) ;;
  logger Info ("Email: " +:+ User.email userInfo) ;;
  logger Info ("Upload directory: " +:+ SCAN_DROP_DIRECTORY CONFIG) ;;
  logger Info ("Egnyte path: " +:+ User.egnytePath userInfo) ;;
  size2 ← ask (λ w, JSMap.size (activeConnections w)) ;
  logger Info ("Active connections: " +:+ pretty (size2 + 1) +:+ "/" +:+
               pretty (MAX_CONNECTIONS CONFIG)) ;;
  (* Track this connection *)
  t ← ask now ;
  ref ← ask (λ w, length (heap w)) ;
  lift (with_heap (λ h,
    h ++ [mkClosure (mkConnectionInfo c username userInfo t t) 0])) ;;
  lift (map_set username ref) ;;
  (* Set up idle timeout *)
  id ← setTimeout (IdleTimeout ref) (IDLE_TIMEOUT CONFIG) ;
  lift (with_heap (λ h,
    <[ref := mkClosure (mkConnectionInfo c username userInfo t t) id]> h)) ;;
  lift (emit (Resolve (SCAN_DROP_DIRECTORY CONFIG) "/")) ;;
  mret (Some ref)
  end
  end.

(** The [close], [error] and [end] listeners of scope [ref]. *)
Definition on_close (cl : closure) : M world () :=
  logger Info ("User " +:+ username (info cl) +:+ " disconnected") ;;
  lift (map_delete (username (info cl))) ;;
  clearTimeout (idleTimer cl) ;;
  size ← ask (λ w, JSMap.size (activeConnections w)) ;
  logger Info ("Active connections: " +:+ pretty size +:+ "/" +:+
               pretty (MAX_CONNECTIONS CONFIG)).

Definition on_error (cl : closure) (error : jsError) : M world () :=
  logger Error ("Connection error for " +:+ username (info cl) +:+ ": "
                +:+ message error) ;;
  lift (map_delete (username (info cl))) ;;
  clearTimeout (idleTimer cl).

Definition on_end (cl : closure) : M world () :=
  logger Info ("User " +:+ username (info cl) +:+ " connection ended") ;;
  lift (map_delete (username (info cl))) ;;
  clearTimeout (idleTimer cl).

(** The auto-disconnect callback set by the STOR listener of a scope. *)
Definition auto_disconnect (cl : closure) : M world () :=
  present ← ask (λ w, JSMap.has (username (info cl)) (activeConnections w)) ;
  if present : bool then close (conn (info cl)) else mret ().

(** The STOR listener of scope [ref], up to
    [await egnyteClient.uploadFile(filePath, egnyteDestinationPath)],
    where it is parked. *)
Definition on_STOR (ref : nat) (cl : closure) (error : option jsError)
    (filePath : string) : M world () :=
  resetIdleTimer ref cl ;;
  match error with
  | Some e => logger Error ("STOR Error: " +:+ message e)
  | None =>
      logger Success "File uploaded successfully!" ;;
      logger Info ("File: " +:+ basename filePath) ;;
      logger Info ("User: " +:+ username (info cl) +:+ " (" +:+
                   User.email (userInfo (info cl)) +:+ ")") ;;
      k ← ask (λ w, conns w !! conn (info cl)) ;
      logger Info ("Client IP: " +:+ from_option ip "undefined" k) ;;
      t ← ask now ;
      logger Info ("Timestamp: " +:+ pretty t) ;;
      try_catch
        (stats ← fs_statSync filePath ;
         logger Info ("File size: " +:+ pretty stats +:+ " bytes") ;;
         logger Info ("File type: " +:+
                      match extname filePath with
                      | EmptyString => "no extension"
                      | s => s
                      end) ;;
         (* Construct Egnyte destination path *)
         let fileName := basename filePath in
         let egnyteDestinationPath :=
           User.egnytePath (userInfo (info cl)) +:+ "/" +:+ fileName in
         (* Upload to Egnyte *)
         match egnyteClient with
         | None =>
             logger Error ("Egnyte client not configured - cannot upload "
                           +:+ fileName) ;;
             logger Error
               "Please update EGNYTE_API_TOKEN in your .env file" ;;
             logger Warning ("File retained locally: " +:+ filePath) ;;
             logger Info ("User " +:+ username (info cl) +:+
               " connection kept active for retry after configuration")
         | Some _ =>
             park ref filePath fileName egnyteDestinationPath
         end)
        (λ err, logger Warning ("Could not get file stats: " +:+
                                message err))
  end.

(** The rest of the STOR listener, run when the parked call settles:
    [net] is how the network answers the requests of that call, whose
    effects are appended to the trace as a block. *)
Definition after_upload (cl : closure) (p : parked_t)
    (r : res EgnyteClient.uploadResult) : M world () :=
  match r with
  | Ret uploadResult =>
      (* Only delete local file after successful upload *)
      try_catch
        (fs_unlinkSync (p_filePath p) ;;
         logger Success ("Local file deleted: " +:+ p_fileName p) ;;
         logger Info ("Workflow completed successfully for " +:+
                      username (info cl)))
        (λ deleteError,
         logger Error ("Could not delete local file: " +:+
                       message deleteError) ;;
         logger Warning ("File retained at: " +:+ p_filePath p)) ;;
      (* Auto-disconnect user after successful upload *)
      logger Info ("Auto-disconnecting " +:+ username (info cl) +:+
                   " after successful upload") ;;
      setTimeout (AutoDisconnect (p_ref p)) (AUTO_DISCONNECT_DELAY CONFIG) ;;
      mret ()
  | Throw egnyteError =>
      logger Error ("Egnyte upload failed for " +:+ username (info cl)) ;;
      logger Error ("File: " +:+ p_fileName p) ;;
      logger Error ("Error: " +:+ message egnyteError) ;;
      logger Warning ("File retained locally for retry: " +:+
                      p_filePath p) ;;
      logger Info "Manual retry or investigation required" ;;
      (* Don't auto-disconnect on error *)
      logger Info ("User " +:+ username (info cl) +:+
                   " connection kept active for retry")
  end.

Definition settle (id : nat) (net : request → EgnyteClient.fetched)
    : M world () := λ w,
  match parked w !! id, egnyteClient with
  | Some p, Some client =>
      match heap w !! p_ref p with
      | Some cl =>
          let w1 := with_parked (delete id) (nextParked w) w in
          let '(r, tr) :=
            EgnyteClient.uploadFile (UPLOAD_TIMEOUT CONFIG) client net
              basename dirname JSON_parse (now w1) (p_fs p)
              (p_filePath p) (p_dest p) (trace w1) in
          after_upload cl p r (with_trace tr w1)
      | None => (Ret (), w)
      end
  | _, _ => (Ret (), w)
  end.

(** The periodic cleanup run by [setInterval] every 30 seconds. *)
Definition sweep : M world () :=
  beforeSize ← ask (λ w, JSMap.size (activeConnections w)) ;
  lift (cleanup "Periodic cleanup: Removing stale connection for ") ;;
  afterSize ← ask (λ w, JSMap.size (activeConnections w)) ;
  if decide (beforeSize ≠ afterSize) then
    logger Info ("Connection cleanup: " +:+ pretty beforeSize +:+ " -> "
                 +:+ pretty afterSize +:+ " active connections")
  else mret ().

(** What happens to the gateway. *)
Inductive event :=
| Connect (ip : string)
| Login (c : nat) (username password : string)
| STOR (c : nat) (error : option jsError) (filePath : string)
| Command (c : nat)
| Settled (id : nat) (net : request → EgnyteClient.fetched)
| ConnClose (c : nat)
| ConnError (c : nat) (error : jsError)
| ConnEnd (c : nat)
| Fire (id : nat)
| Sweep
| Listening
| Tick (d : N)
| Socket (c : nat) (k : connection)
| FileStored (p : string) (size : N)
| FileRemoved (p : string).

(** Run a listener or callback to its end; an error it lets escape is
    recorded. *)
Definition exec {A} (m : M world A) (w : world) : world :=
  match m w with
  | (Ret _, w') => w'
  | (Throw e, w') => emit (Uncaught e) w'
  end.

(** The scopes whose listeners are registered on connection [c], in the
    order they were registered. *)
Definition scopes_on (c : nat) (w : world) : list nat :=
  filter (λ ref, conn ∘ info <$> heap w !! ref = Some c)
         (seq 0 (length (heap w))).

(** Call the listener [f] of every scope on [c]. *)
Definition dispatch (c : nat) (f : nat → closure → M world ()) (w : world)
    : world :=
  fold_left (λ w ref,
    match heap w !! ref with
    | Some cl => exec (f ref cl) w
    | None => w
    end) (scopes_on c w) w.

Definition fire (id : nat) (w : world) : world :=
  match timers w !! id with
  | Some t =>
      if decide (due t ≤ now w)%N then
        let w1 := with_timers (delete id) (nextTimer w) w in
        match cb t with
        | IdleTimeout ref =>
            match heap w1 !! ref with
            | Some cl => exec (idle_timeout ref cl) w1
            | None => w1
            end
        | AutoDisconnect ref =>
            match heap w1 !! ref with
            | Some cl => exec (auto_disconnect cl) w1
            | None => w1
            end
        end
      else w
  | None => w
  end.

Definition handle (w : world) (e : event) : world :=
  match e with
  | Connect a =>
      with_conns (λ cs, cs ++ [mkConnection a false "open" None]) w
  | Login c username password => exec (login c username password) w
  | STOR c error filePath =>
      dispatch c (λ ref cl, on_STOR ref cl error filePath) w
  | Command c => dispatch c resetIdleTimer w
  | Settled id net => exec (settle id net) w
  | ConnClose c => dispatch c (λ _ cl, on_close cl) w
  | ConnError c error => dispatch c (λ _ cl, on_error cl error) w
  | ConnEnd c => dispatch c (λ _ cl, on_end cl) w
  | Fire id => fire id w
  | Sweep => exec sweep w
  | Listening => map_clear w
  | Tick d => with_now (now w + d)%N w
  | Socket c k => with_conns (λ cs, <[c := k]> cs) w
  | FileStored p size => with_fs (<[p := size]> (fs w)) w
  | FileRemoved p => with_fs (delete p (fs w)) w
  end.

Definition run (w : world) (es : list event) : world :=
  fold_left handle es w.

(** The states the gateway can reach from start-up. *)
Definition reachable (w : world) : Prop := ∃ es, w = run init es.

(** The loop of the [SIGINT] handler that closes all active connections,
    before [ftpServer.close(...)]. *)
Definition close_entry (e : string * nat) : M world () :=
  logger Info ("Closing connection for " +:+ e.1) ;;
  cl ← ask (λ w, heap w !! e.2) ;
  match cl with
  | Some cl =>
      try_catch (close (conn (info cl))) (λ err,
        (* Ignore errors during shutdown *)
        mret ())
  | None => mret ()
  end.

Fixpoint forEach {A} (l : list A) (f : A → M world ()) : M world () :=
  match l with
  | [] => mret ()
  | a :: l' => f a ;; forEach l' f
  end.

Definition close_all : M world () :=
  entries ← ask activeConnections ;
  forEach entries close_entry.

End handlers.

(** [getLocalIpAddress]: [interfaces] is [os.networkInterfaces()], each
    name with its addresses, in the order of [Object.keys]. *)
Record networkInterface := mkInterface {
  family : string;
  internal : bool;
  address : string
}.

Definition external_IPv4 (i : networkInterface) : bool :=
  String.eqb (family i) "IPv4" && negb (internal i).

Fixpoint first_external (l : list networkInterface) : option string :=
  match l with
  | [] => None
  | i :: l' => if external_IPv4 i then Some (address i) else first_external l'
  end.

Fixpoint getLocalIpAddress
    (interfaces : list (string * list networkInterface)) : string :=
  match interfaces with
  | [] => "127.0.0.1"
  | (name, l) :: rest =>
      match first_external l with
      | Some a => a
      | None => getLocalIpAddress rest
      end
  end.

End Production.

(** A trace entry of the queueing variants: when it happened, which run of
    the drain function did it ([None] for a listener or a timer callback),
    and what it was. *)
Record entry := mkEntry {
  at_time : N;
  by_drain : option nat;
  what : effect
}.

(** The items a drain has handed to the upload function, each with the
    time at which it did, oldest first. *)
Definition attempt_log (tid : nat) (tr : list entry) : list (N * item) :=
  omap (λ e,
    match by_drain e, what e with
    | Some t, Attempt it =>
        if decide (t = tid) then Some (at_time e, it) else None
    | _, _ => None
    end) tr.

Definition attempts_of (tid : nat) (tr : list entry) : list item :=
  (attempt_log tid tr).*2.

Definition dispatch_times (tid : nat) (tr : list entry) : list N :=
  (attempt_log tid tr).*1.

(** Consecutive times are at least [d] apart. *)
Fixpoint paced (d : N) (l : list N) : Prop :=
  match l with
  | x :: l' =>
      match l' with
      | y :: _ => (x + d ≤ y)%N ∧ paced d l'
      | [] => True
      end
  | [] => True
  end.

(** Every item pushed onto the queue, oldest first. *)
Definition pushed (tr : list entry) : list item :=
  omap (λ e, match what e with Push it => Some it | _ => None end) tr.

(** [egnytePath.startsWith('/') ? egnytePath.substring(1) : egnytePath] *)
Definition drop_leading_slash (s : string) : string :=
  match s with
  | String c rest => if Ascii.eqb c "/"%char then rest else s
  | EmptyString => s
  end.

(** [s.replace('//', '/')]: the first occurrence only *)
Fixpoint replace_first_double_slash (s : string) : string :=
  match s with
  | String a rest =>
      match rest with
      | String b rest' =>
          if Ascii.eqb a "/"%char && Ascii.eqb b "/"%char
          then String "/"%char rest'
          else String a (replace_first_double_slash rest)
      | EmptyString => s
      end
  | EmptyString => s
  end.

(** Where a run of a drain function is. *)
Inductive phase :=
| AwaitUpload
| AwaitDelay (due : N)
| Returned.

(** ** The queueing gateway with snapshot-and-clear ([Fixed]) *)
Module Fixed.

Record config := mkConfig {
  SCAN_DIR : string;
  EGNYTE_TOKEN : string;
  EGNYTE_DOMAIN : string;
  UPLOAD_DELAY : N
}.

Definition IDLE_TIMEOUT : N := 10000.

Record session := mkSession {
  s_username : string;
  s_userInfo : User.t;
  startTime : N
}.

(** The local variables of one run of [processUploadQueue]. *)
Record task := mkTask {
  filesToProcess : list item;
  i : nat;
  success : nat;
  failed : nat;
  at_ : phase
}.

Record world := mkWorld {
  uploadQueue : list item;
  (** [userSessions], a [Map] keyed by the connection object *)
  userSessions : gmap nat session;
  (** [processTimer]: the pending debounce timer and when it is due *)
  processTimer : option (nat * N);
  (** the connections, by index, and those on which a login has registered
      its [STOR], [close] and [end] listeners (once per login) *)
  conns : list string;
  listeners : list nat;
  tasks : list task;
  nextTimer : nat;
  nextOid : nat;
  now : N;
  fs : fs_t;
  trace : list entry
}.

Definition init : world := mkWorld [] ∅ None [] [] [] 0 0 0%N ∅ [].

Definition with_queue (q : list item) (w : world) : world :=
  mkWorld q (userSessions w) (processTimer w) (conns w) (listeners w)
    (tasks w) (nextTimer w) (nextOid w) (now w) (fs w) (trace w).

Definition with_sessions (m : gmap nat session) (w : world) : world :=
  mkWorld (uploadQueue w) m (processTimer w) (conns w) (listeners w)
    (tasks w) (nextTimer w) (nextOid w) (now w) (fs w) (trace w).

Definition with_processTimer (t : option (nat * N)) (w : world) : world :=
  mkWorld (uploadQueue w) (userSessions w) t (conns w) (listeners w)
    (tasks w) (nextTimer w) (nextOid w) (now w) (fs w) (trace w).

Definition with_conns (cs : list string) (w : world) : world :=
  mkWorld (uploadQueue w) (userSessions w) (processTimer w) cs (listeners w)
    (tasks w) (nextTimer w) (nextOid w) (now w) (fs w) (trace w).

Definition with_listeners (ls : list nat) (w : world) : world :=
  mkWorld (uploadQueue w) (userSessions w) (processTimer w) (conns w) ls
    (tasks w) (nextTimer w) (nextOid w) (now w) (fs w) (trace w).

Definition with_tasks (ts : list task) (w : world) : world :=
  mkWorld (uploadQueue w) (userSessions w) (processTimer w) (conns w)
    (listeners w) ts (nextTimer w) (nextOid w) (now w) (fs w) (trace w).

Definition with_nextTimer (n : nat) (w : world) : world :=
  mkWorld (uploadQueue w) (userSessions w) (processTimer w) (conns w)
    (listeners w) (tasks w) n (nextOid w) (now w) (fs w) (trace w).

Definition with_nextOid (n : nat) (w : world) : world :=
  mkWorld (uploadQueue w) (userSessions w) (processTimer w) (conns w)
    (listeners w) (tasks w) (nextTimer w) n (now w) (fs w) (trace w).

Definition with_now (t : N) (w : world) : world :=
  mkWorld (uploadQueue w) (userSessions w) (processTimer w) (conns w)
    (listeners w) (tasks w) (nextTimer w) (nextOid w) t (fs w) (trace w).

Definition with_fs (f : fs_t) (w : world) : world :=
  mkWorld (uploadQueue w) (userSessions w) (processTimer w) (conns w)
    (listeners w) (tasks w) (nextTimer w) (nextOid w) (now w) f (trace w).

Definition with_trace (tr : list entry) (w : world) : world :=
  mkWorld (uploadQueue w) (userSessions w) (processTimer w) (conns w)
    (listeners w) (tasks w) (nextTimer w) (nextOid w) (now w) (fs w) tr.

Definition emit (by_ : option nat) (e : effect) (w : world) : world :=
  with_trace (trace w ++ [mkEntry (now w) by_ e]) w.

Definition console_log (by_ : option nat) (msg : string) : world → world :=
  emit by_ (Log Info msg).

Definition console_error (by_ : option nat) (msg : string) : world → world :=
  emit by_ (Log Error msg).

Definition writeLog (by_ : option nat)
    (result action username description : string) : world → world :=
  emit by_ (WriteLog result action username description).

Definition AuthenticationFailed : jsError := newError "Authentication failed".

Definition ENOENT (op p : string) : jsError :=
  mkError ("ENOENT: no such file or directory, " +:+ op +:+ " '" +:+ p
           +:+ "'") None (Some "ENOENT").

Section gateway.
Context (CONFIG : config) (userMappings : userMappings_t).
Context (basename : string → string).

(** [uploadToEgnyte(filePath, egnytePath)] up to its [await axios.post];
    [by_] is the drain that calls it. *)
Definition uploadToEgnyte (by_ : option nat) (filePath egnytePath : string)
    (w : world) : world :=
  let w := console_log by_ ("Uploading: " +:+ basename filePath) w in
  let cleanPath := drop_leading_slash egnytePath in
  let url := "https://" +:+ EGNYTE_DOMAIN CONFIG +:+
             "/pubapi/v1/fs-content/" +:+ cleanPath in
  emit by_ (Fetch (mkRequest "POST" url
    [("Authorization", "Bearer " +:+ EGNYTE_TOKEN CONFIG);
     ("Content-Type", "application/octet-stream")]
    (FileStream filePath) 30000%N)) w.

Definition set_task (tid : nat) (t : task) (w : world) : world :=
  with_tasks (<[tid := t]> (tasks w)) w.

(** After the loop: the batch summary. *)
Definition finish (tid : nat) (t : task) (w : world) : world :=
  let w := console_log (Some tid)
    ("Batch complete: " +:+ pretty (success t) +:+ " success, " +:+
     pretty (failed t) +:+ " failed") w in
  let w := writeLog (Some tid) "INFO" "BATCH_COMPLETE" EmptyString
    ("Batch processing finished: " +:+ pretty (success t) +:+
     " successful, " +:+ pretty (failed t) +:+ " failed") w in
  set_task tid
    (mkTask (filesToProcess t) (i t) (success t) (failed t) Returned) w.

(** The loop test [i < filesToProcess.length] and, when it holds, the
    body up to [await uploadToEgnyte(item.localPath, item.egnytePath)]. *)
Definition loop_head (tid : nat) (t : task) (w : world) : world :=
  match filesToProcess t !! i t with
  | Some item =>
      let w := emit (Some tid) (Attempt item) w in
      let w := uploadToEgnyte (Some tid) (localPath item) (egnytePath item)
                 w in
      set_task tid
        (mkTask (filesToProcess t) (i t) (success t) (failed t) AwaitUpload)
        w
  | None => finish tid t w
  end.

(** After the [try]/[catch] of the body: wait before the next upload,
    except after the last file; then [i++] and the loop test. *)
Definition pace (tid : nat) (t : task) (w : world) : world :=
  if decide (i t + 1 < length (filesToProcess t)) then
    let w := console_log (Some tid)
      ("Waiting " +:+ pretty (UPLOAD_DELAY CONFIG) +:+
       "ms before next upload...") w in
    let w := emit (Some tid) (SetTimeout (nextTimer w) (UPLOAD_DELAY CONFIG))
               w in
    let w := with_nextTimer (S (nextTimer w)) w in
    set_task tid
      (mkTask (filesToProcess t) (i t) (success t) (failed t)
         (AwaitDelay (now w + UPLOAD_DELAY CONFIG)%N)) w
  else
    loop_head tid
      (mkTask (filesToProcess t) (S (i t)) (success t) (failed t) (at_ t)) w.

(** The rest of the body once [await uploadToEgnyte(...)] has settled. *)
Definition body_rest (tid : nat) (t : task) (item : item) (o : outcome)
    (w : world) : world :=
  match o with
  | None =>
      (* Delete local file after successful upload *)
      match unlinkSync (localPath item) (fs w) with
      | Some fs' =>
          let w := emit (Some tid) (Unlink (localPath item)) (with_fs fs' w) in
          let w := console_log (Some tid)
            ("Uploaded and deleted: " +:+ fileName item) w in
          let w := writeLog (Some tid) "SUCCESS" "EGNYTE_UPLOAD"
            (username item)
            ("File uploaded to Egnyte and deleted locally: " +:+
             fileName item) w in
          pace tid
            (mkTask (filesToProcess t) (i t) (S (success t)) (failed t)
               (at_ t)) w
      | None =>
          (* unlinkSync throws: the catch block *)
          let error := ENOENT "unlink" (localPath item) in
          let w := emit (Some tid) (Unlink (localPath item)) w in
          let w := console_error (Some tid)
            ("Failed to upload " +:+ fileName item +:+ ": " +:+
             message error) w in
          let w := writeLog (Some tid) "ERROR" "EGNYTE_UPLOAD"
            (username item)
            ("Failed to upload " +:+ fileName item +:+ ": " +:+
             message error) w in
          pace tid
            (mkTask (filesToProcess t) (i t) (success t) (S (failed t))
               (at_ t)) w
      end
  | Some error =>
      let w := console_error (Some tid)
        ("Failed to upload " +:+ fileName item +:+ ": " +:+ message error)
        w in
      let w := writeLog (Some tid) "ERROR" "EGNYTE_UPLOAD" (username item)
        ("Failed to upload " +:+ fileName item +:+ ": " +:+ message error)
        w in
      pace tid
        (mkTask (filesToProcess t) (i t) (success t) (S (failed t)) (at_ t))
        w
  end.

(** A call of [processUploadQueue], up to its first [await]. *)
Definition processUploadQueue (w : world) : world :=
  match uploadQueue w with
  | [] => console_log None "No files to process" w
  | _ :: _ =>
      let tid := length (tasks w) in
      let w := console_log (Some tid)
        ("Processing " +:+ pretty (length (uploadQueue w)) +:+
         " files for Egnyte...") w in
      (* Process all queued files *)
      let t := mkTask (uploadQueue w) 0 0 0 AwaitUpload in
      let w := with_queue [] (with_tasks (tasks w ++ [t]) w) in
      loop_head tid t w
  end.

(** The awaited upload of drain [tid] settles. *)
Definition upload_settled (tid : nat) (o : outcome) (w : world) : world :=
  match tasks w !! tid with
  | Some t =>
      match at_ t, filesToProcess t !! i t with
      | AwaitUpload, Some item => body_rest tid t item o w
      | _, _ => w
      end
  | None => w
  end.

(** The pacing timer of drain [tid] fires. *)
Definition elapsed (tid : nat) (w : world) : world :=
  match tasks w !! tid with
  | Some t =>
      match at_ t with
      | AwaitDelay due =>
          if decide (due ≤ now w)%N then
            loop_head tid
              (mkTask (filesToProcess t) (S (i t)) (success t) (failed t)
                 (at_ t)) w
          else w
      | _ => w
      end
  | None => w
  end.

Definition startProcessTimer (w : world) : world :=
  (* Clear any existing timer *)
  let w := match processTimer w with
           | Some (id, _) => emit None (ClearTimeout id) w
           | None => w
           end in
  (* Start new timer *)
  let id := nextTimer w in
  let w := emit None (SetTimeout id IDLE_TIMEOUT) w in
  let w := with_nextTimer (S id)
             (with_processTimer (Some (id, (now w + IDLE_TIMEOUT)%N)) w) in
  console_log None
    ("Processing timer set for " +:+ pretty (IDLE_TIMEOUT / 1000)%N +:+
     " seconds") w.

(** The callback of [processTimer]. *)
Definition processTimer_fires (w : world) : world :=
  match processTimer w with
  | Some (id, due) =>
      if decide (due ≤ now w)%N then
        let w := console_log None
          "Idle timeout reached, starting batch processing..." w in
        let w := writeLog None "INFO" "BATCH_START" EmptyString
          ("Processing " +:+ pretty (length (uploadQueue w)) +:+
           " files for Egnyte upload") w in
        let w := processUploadQueue w in
        with_processTimer None w
      else w
  | None => w
  end.

(** The [login] listener of the server. *)
Definition login (c : nat) (username password : string) (w : world)
    : world :=
  match conns w !! c with
  | None => w
  | Some ip =>
      let w := console_log None ("Login attempt: " +:+ username) w in
      (* Check credentials: for a name of [Object.prototype] the password
         read is [undefined] *)
      match userMappings_get userMappings username with
      | Own userInfo =>
          if decide (User.password userInfo = password) then
            let w := console_log None
              ("User " +:+ username +:+ " authenticated") w in
            let w := writeLog None "SUCCESS" "LOGIN" username
              ("User authenticated from " +:+ ip) w in
            (* Store user session info *)
            let w := with_sessions
              (<[c := mkSession username userInfo (now w)]> (userSessions w))
              w in
            let w := emit None (Resolve (SCAN_DIR CONFIG) "/") w in
            with_listeners (listeners w ++ [c]) w
          else
            let w := console_log None
              ("Authentication failed for " +:+ username) w in
            emit None (Reject AuthenticationFailed) w
      | Inherited | Undefined =>
          let w := console_log None
            ("Authentication failed for " +:+ username) w in
          emit None (Reject AuthenticationFailed) w
      end
  end.

(** The [STOR] listener that a login registers on connection [c]. *)
Definition on_STOR (c : nat) (error : option jsError) (filePath : string)
    (w : world) : world :=
  match error with
  | Some e => console_error None ("Upload error: " +:+ message e) w
  | None =>
      match userSessions w !! c with
      | None => w
      | Some session =>
          let fileName := basename filePath in
          let egnytePath :=
            User.egnytePath (s_userInfo session) +:+ "/" +:+ fileName in
          let w := console_log None
            ("File received: " +:+ fileName +:+ " from " +:+
             s_username session) w in
          match statSync filePath (fs w) with
          | None => emit None (Uncaught (ENOENT "stat" filePath)) w
          | Some size =>
              let w := writeLog None "SUCCESS" "UPLOAD" (s_username session)
                ("File received: " +:+ fileName +:+ " (" +:+ pretty size
                 +:+ " bytes)") w in
              (* Add to upload queue *)
              let it := mkItem (nextOid w) filePath egnytePath fileName
                          (s_username session) in
              let w := emit None (Push it)
                (with_nextOid (S (nextOid w))
                   (with_queue (uploadQueue w ++ [it]) w)) in
              let w := console_log None
                ("Queued: " +:+ fileName +:+ " (" +:+
                 pretty (length (uploadQueue w)) +:+ " total)") w in
              (* Start/restart the processing timer *)
              startProcessTimer w
          end
      end
  end.

Definition on_close (c : nat) (w : world) : world :=
  match userSessions w !! c with
  | Some session =>
      let w := console_log None
        ("User " +:+ s_username session +:+ " disconnected") w in
      let w := writeLog None "INFO" "LOGOUT" (s_username session)
        "User disconnected" w in
      with_sessions (delete c (userSessions w)) w
  | None => w
  end.

Definition on_end (c : nat) (w : world) : world :=
  match userSessions w !! c with
  | Some session =>
      let w := console_log None
        ("Connection ended for " +:+ s_username session) w in
      with_sessions (delete c (userSessions w)) w
  | None => w
  end.

Inductive event :=
| Connect (ip : string)
| Login (c : nat) (username password : string)
| STOR (c : nat) (error : option jsError) (filePath : string)
| ConnClose (c : nat)
| ConnEnd (c : nat)
| ProcessTimerFires
| UploadSettled (tid : nat) (o : outcome)
| Elapsed (tid : nat)
| Tick (d : N)
| FileStored (p : string) (size : N)
| FileRemoved (p : string).

(** Call listener [f] once for each time it was registered on [c]. *)
Definition dispatch (c : nat) (f : world → world) (w : world) : world :=
  fold_left (λ w _, f w) (filter (λ c', c' = c) (listeners w)) w.

Definition handle (w : world) (e : event) : world :=
  match e with
  | Connect a => with_conns (conns w ++ [a]) w
  | Login c username password => login c username password w
  | STOR c error filePath => dispatch c (on_STOR c error filePath) w
  | ConnClose c => dispatch c (on_close c) w
  | ConnEnd c => dispatch c (on_end c) w
  | ProcessTimerFires => processTimer_fires w
  | UploadSettled tid o => upload_settled tid o w
  | Elapsed tid => elapsed tid w
  | Tick d => with_now (now w + d)%N w
  | FileStored p size => with_fs (<[p := size]> (fs w)) w
  | FileRemoved p => with_fs (delete p (fs w)) w
  end.

Definition run (w : world) (es : list event) : world :=
  fold_left handle es w.

Definition reachable (w : world) : Prop := ∃ es, w = run init es.

End gateway.

End Fixed.

(** ** The ftpd gateway, whose drain walks the live queue ([Ftpd]) *)
Module Ftpd.

Record config := mkConfig {
  SCAN_DIR : string;
  EGNYTE_TOKEN : string;
  EGNYTE_DOMAIN : string;
  UPLOAD_DELAY : N
}.

Record session := mkSession {
  s_username : string;
  s_userInfo : User.t;
  startTime : N
}.

(** One run of [processUploadQueue]: the array iterator of
    [for (const item of uploadQueue)] (the index of the element it yields
    next) and the current [item]. *)
Record task := mkTask {
  next_index : nat;
  current : option item;
  at_ : phase
}.

Record world := mkWorld {
  uploadQueue : list item;
  userSessions : gmap nat session;
  (** the [currentUser] variable of each connection *)
  currentUser : list (option string);
  tasks : list task;
  (** the pending [setTimeout(() => processUploadQueue(), 1000)] timers *)
  drainTimers : list (nat * N);
  nextTimer : nat;
  nextOid : nat;
  now : N;
  fs : fs_t;
  trace : list entry
}.

Definition init : world := mkWorld [] ∅ [] [] [] 0 0 0%N ∅ [].

Definition with_queue (q : list item) (w : world) : world :=
  mkWorld q (userSessions w) (currentUser w) (tasks w) (drainTimers w)
    (nextTimer w) (nextOid w) (now w) (fs w) (trace w).

Definition with_sessions (m : gmap nat session) (w : world) : world :=
  mkWorld (uploadQueue w) m (currentUser w) (tasks w) (drainTimers w)
    (nextTimer w) (nextOid w) (now w) (fs w) (trace w).

Definition with_currentUser (l : list (option string)) (w : world) : world :=
  mkWorld (uploadQueue w) (userSessions w) l (tasks w) (drainTimers w)
    (nextTimer w) (nextOid w) (now w) (fs w) (trace w).

Definition with_tasks (ts : list task) (w : world) : world :=
  mkWorld (uploadQueue w) (userSessions w) (currentUser w) ts (drainTimers w)
    (nextTimer w) (nextOid w) (now w) (fs w) (trace w).

Definition with_drainTimers (l : list (nat * N)) (n : nat) (w : world)
    : world :=
  mkWorld (uploadQueue w) (userSessions w) (currentUser w) (tasks w) l
    n (nextOid w) (now w) (fs w) (trace w).

Definition with_nextOid (n : nat) (w : world) : world :=
  mkWorld (uploadQueue w) (userSessions w) (currentUser w) (tasks w)
    (drainTimers w) (nextTimer w) n (now w) (fs w) (trace w).

Definition with_now (t : N) (w : world) : world :=
  mkWorld (uploadQueue w) (userSessions w) (currentUser w) (tasks w)
    (drainTimers w) (nextTimer w) (nextOid w) t (fs w) (trace w).

Definition with_fs (f : fs_t) (w : world) : world :=
  mkWorld (uploadQueue w) (userSessions w) (currentUser w) (tasks w)
    (drainTimers w) (nextTimer w) (nextOid w) (now w) f (trace w).

Definition with_trace (tr : list entry) (w : world) : world :=
  mkWorld (uploadQueue w) (userSessions w) (currentUser w) (tasks w)
    (drainTimers w) (nextTimer w) (nextOid w) (now w) (fs w) tr.

Definition emit (by_ : option nat) (e : effect) (w : world) : world :=
  with_trace (trace w ++ [mkEntry (now w) by_ e]) w.

Definition console_log (by_ : option nat) (msg : string) : world → world :=
  emit by_ (Log Info msg).

Definition console_error (by_ : option nat) (msg : string) : world → world :=
  emit by_ (Log Error msg).

Definition ENOENT (op p : string) : jsError :=
  mkError ("ENOENT: no such file or directory, " +:+ op +:+ " '" +:+ p
           +:+ "'") None (Some "ENOENT").

Section gateway.
Context (CONFIG : config) (userMappings : userMappings_t).
Context (basename : string → string).

(** [uploadToEgnyte(filePath, egnytePath)] up to [await axios.post];
    this variant passes no timeout. *)
Definition uploadToEgnyte (by_ : option nat) (filePath egnytePath : string)
    (w : world) : world :=
  let url := "https://" +:+ EGNYTE_DOMAIN CONFIG +:+
             "/pubapi/v1/fs-content/" +:+ egnytePath in
  emit by_ (Fetch (mkRequest "POST" url
    [("Authorization", "Bearer " +:+ EGNYTE_TOKEN CONFIG);
     ("Content-Type", "application/octet-stream")]
    (FileStream filePath) 0%N)) w.

Definition set_task (tid : nat) (t : task) (w : world) : world :=
  with_tasks (<[tid := t]> (tasks w)) w.

(** The next step of the iterator over [uploadQueue] itself and, when it
    yields an item, the body up to [await uploadToEgnyte(...)]; when the
    iterator is done, the queue is cleared and the function returns. *)
Definition loop_head (tid : nat) (t : task) (w : world) : world :=
  match uploadQueue w !! next_index t with
  | Some item =>
      let w := console_log (Some tid) ("Uploading: " +:+ fileName item) w in
      let w := emit (Some tid) (Attempt item) w in
      let w := uploadToEgnyte (Some tid) (localPath item) (egnytePath item)
                 w in
      set_task tid (mkTask (S (next_index t)) (Some item) AwaitUpload) w
  | None =>
      (* Clear queue *)
      let w := with_queue [] w in
      let w := console_log (Some tid) "Batch upload completed" w in
      set_task tid (mkTask (next_index t) (current t) Returned) w
  end.

(** [uploadQueue.indexOf(item) < uploadQueue.length - 1], where
    [indexOf] is -1 for an item that is no longer in the queue. *)
Definition not_last (it : item) (q : list item) : bool :=
  match indexOf it q with
  | Some k => bool_decide (k + 1 < length q)
  | None => bool_decide (0 < length q)
  end.

(** The rest of the body once [await uploadToEgnyte(...)] has settled. *)
Definition body_rest (tid : nat) (t : task) (item : item) (o : outcome)
    (w : world) : world :=
  match o with
  | None =>
      match unlinkSync (localPath item) (fs w) with
      | Some fs' =>
          let w := emit (Some tid) (Unlink (localPath item)) (with_fs fs' w) in
          let w := console_log (Some tid)
            ("Uploaded and deleted: " +:+ fileName item) w in
          (* Wait before next upload *)
          if not_last item (uploadQueue w) then
            let w := emit (Some tid)
              (SetTimeout (nextTimer w) (UPLOAD_DELAY CONFIG)) w in
            let w := with_drainTimers (drainTimers w) (S (nextTimer w)) w in
            set_task tid
              (mkTask (next_index t) (current t)
                 (AwaitDelay (now w + UPLOAD_DELAY CONFIG)%N)) w
          else loop_head tid t w
      | None =>
          let error := ENOENT "unlink" (localPath item) in
          let w := emit (Some tid) (Unlink (localPath item)) w in
          let w := console_error (Some tid)
            ("Failed to upload " +:+ fileName item +:+ ": " +:+
             message error) w in
          loop_head tid t w
      end
  | Some error =>
      let w := console_error (Some tid)
        ("Failed to upload " +:+ fileName item +:+ ": " +:+ message error)
        w in
      loop_head tid t w
  end.

(** A call of [processUploadQueue], up to its first [await]. *)
Definition processUploadQueue (w : world) : world :=
  match uploadQueue w with
  | [] => w
  | _ :: _ =>
      let tid := length (tasks w) in
      let w := console_log (Some tid)
        ("Processing " +:+ pretty (length (uploadQueue w)) +:+
         " files for Egnyte upload...") w in
      let t := mkTask 0 None AwaitUpload in
      let w := with_tasks (tasks w ++ [t]) w in
      loop_head tid t w
  end.

Definition upload_settled (tid : nat) (o : outcome) (w : world) : world :=
  match tasks w !! tid with
  | Some t =>
      match at_ t, current t with
      | AwaitUpload, Some item => body_rest tid t item o w
      | _, _ => w
      end
  | None => w
  end.

Definition elapsed (tid : nat) (w : world) : world :=
  match tasks w !! tid with
  | Some t =>
      match at_ t with
      | AwaitDelay due =>
          if decide (due ≤ now w)%N then loop_head tid t w else w
      | _ => w
      end
  | None => w
  end.

(** The listeners registered for each connection; [c] is the index of the
    connection whose listener runs. *)
Definition command_user (c : nat) (user : string) (w : world) : world :=
  match currentUser w !! c with
  | None => w
  | Some _ =>
      match userMappings_get userMappings user with
      | Own _ | Inherited =>
          emit None (Callback "success")
            (with_currentUser (<[c := Some user]> (currentUser w)) w)
      | Undefined => emit None (Callback "failure") w
      end
  end.

Definition command_pass (c : nat) (pass : string) (w : world) : world :=
  match currentUser w !! c with
  | Some (Some (String a u)) =>
      let user := String a u in
      match userMappings_get userMappings user with
      | Own userInfo =>
          if decide (User.password userInfo = pass) then
            let w := console_log None
              ("User " +:+ user +:+ " authenticated") w in
            let w := with_sessions
              (<[c := mkSession user userInfo (now w)]> (userSessions w))
              w in
            emit None (Callback "success") w
          else emit None (Callback "failure") w
      | Inherited | Undefined => emit None (Callback "failure") w
      end
  | Some _ => emit None (Callback "failure") w
  | None => w
  end.

Definition file_stored (c : nat) (filePath : string) (w : world) : world :=
  match currentUser w !! c, userSessions w !! c with
  | Some _, Some session =>
      let fileName := basename filePath in
      let egnytePath := replace_first_double_slash
        (User.egnytePath (s_userInfo session) +:+ "/" +:+ fileName) in
      let w := console_log None
        ("File received: " +:+ fileName +:+ " from " +:+ s_username session)
        w in
      (* Add to upload queue *)
      let it := mkItem (nextOid w) filePath egnytePath fileName
                  (s_username session) in
      let w := emit None (Push it)
        (with_nextOid (S (nextOid w))
           (with_queue (uploadQueue w ++ [it]) w)) in
      console_log None
        ("Queued for upload: " +:+ fileName +:+ " (" +:+
         pretty (length (uploadQueue w)) +:+ " total)") w
  | _, _ => w
  end.

Definition on_end (c : nat) (w : world) : world :=
  match currentUser w !! c, userSessions w !! c with
  | Some _, Some session =>
      let w := console_log None
        ("User " +:+ s_username session +:+ " disconnected") w in
      let w := with_sessions (delete c (userSessions w)) w in
      (* Process uploads after user disconnects *)
      let id := nextTimer w in
      let w := emit None (SetTimeout id 1000%N) w in
      with_drainTimers (drainTimers w ++ [(id, (now w + 1000)%N)]) (S id) w
  | _, _ => w
  end.

Definition drainTimer_fires (id : nat) (w : world) : world :=
  match list_find (λ t, t.1 = id) (drainTimers w) with
  | Some (k, (_, due)) =>
      if decide (due ≤ now w)%N then
        processUploadQueue
          (with_drainTimers (delete k (drainTimers w)) (nextTimer w) w)
      else w
  | None => w
  end.

Inductive event :=
| ClientConnected
| CommandUser (c : nat) (user : string)
| CommandPass (c : nat) (pass : string)
| FileStoredBy (c : nat) (filePath : string)
| End (c : nat)
| DrainTimerFires (id : nat)
| UploadSettled (tid : nat) (o : outcome)
| Elapsed (tid : nat)
| Tick (d : N)
| FileStored (p : string) (size : N)
| FileRemoved (p : string).

Definition handle (w : world) (e : event) : world :=
  match e with
  | ClientConnected => with_currentUser (currentUser w ++ [None]) w
  | CommandUser c user => command_user c user w
  | CommandPass c pass => command_pass c pass w
  | FileStoredBy c filePath => file_stored c filePath w
  | End c => on_end c w
  | DrainTimerFires id => drainTimer_fires id w
  | UploadSettled tid o => upload_settled tid o w
  | Elapsed tid => elapsed tid w
  | Tick d => with_now (now w + d)%N w
  | FileStored p size => with_fs (<[p := size]> (fs w)) w
  | FileRemoved p => with_fs (delete p (fs w)) w
  end.

Definition run (w : world) (es : list event) : world :=
  fold_left handle es w.

End gateway.

End Ftpd.

(** ** backup/simple-ftp-server.js ([Simple]) *)
Module Simple.

Record config := mkConfig {
  SCAN_DIR : string;
  EGNYTE_TOKEN : string;
  EGNYTE_DOMAIN : string;
  UPLOAD_DELAY : N
}.

(** One run of [processUploads]: the copy [[...uploadQueue]] it iterates
    over, the position in it, and the two counters. *)
Record task := mkTask {
  snapshot : list item;
  i : nat;
  success : nat;
  failed : nat;
  at_ : phase
}.

Record world := mkWorld {
  uploadQueue : list item;
  tasks : list task;
  (** the pending [setTimeout(processUploads, 2000)] timers *)
  drainTimers : list (nat * N);
  nextTimer : nat;
  nextOid : nat;
  now : N;
  fs : fs_t;
  trace : list entry
}.

Definition init : world := mkWorld [] [] [] 0 0 0%N ∅ [].

Definition with_queue (q : list item) (w : world) : world :=
  mkWorld q (tasks w) (drainTimers w) (nextTimer w) (nextOid w) (now w)
    (fs w) (trace w).

Definition with_tasks (ts : list task) (w : world) : world :=
  mkWorld (uploadQueue w) ts (drainTimers w) (nextTimer w) (nextOid w)
    (now w) (fs w) (trace w).

Definition with_drainTimers (l : list (nat * N)) (n : nat) (w : world)
    : world :=
  mkWorld (uploadQueue w) (tasks w) l n (nextOid w) (now w) (fs w) (trace w).

Definition with_nextOid (n : nat) (w : world) : world :=
  mkWorld (uploadQueue w) (tasks w) (drainTimers w) (nextTimer w) n (now w)
    (fs w) (trace w).

Definition with_now (t : N) (w : world) : world :=
  mkWorld (uploadQueue w) (tasks w) (drainTimers w) (nextTimer w) (nextOid w)
    t (fs w) (trace w).

Definition with_fs (f : fs_t) (w : world) : world :=
  mkWorld (uploadQueue w) (tasks w) (drainTimers w) (nextTimer w) (nextOid w)
    (now w) f (trace w).

Definition with_trace (tr : list entry) (w : world) : world :=
  mkWorld (uploadQueue w) (tasks w) (drainTimers w) (nextTimer w) (nextOid w)
    (now w) (fs w) tr.

Definition emit (by_ : option nat) (e : effect) (w : world) : world :=
  with_trace (trace w ++ [mkEntry (now w) by_ e]) w.

Definition console_log (by_ : option nat) (msg : string) : world → world :=
  emit by_ (Log Info msg).

Definition console_error (by_ : option nat) (msg : string) : world → world :=
  emit by_ (Log Error msg).

Definition AuthenticationFailed : jsError := newError "Authentication failed".

Definition ENOENT (op p : string) : jsError :=
  mkError ("ENOENT: no such file or directory, " +:+ op +:+ " '" +:+ p
           +:+ "'") None (Some "ENOENT").

Section gateway.
(** [path_join] is Node's [path.join]. *)
Context (CONFIG : config) (userMappings : userMappings_t).
Context (basename : string → string) (path_join : string → string → string).

Definition uploadToEgnyte (by_ : option nat) (filePath egnytePath : string)
    (w : world) : world :=
  let w := console_log by_ ("Uploading to Egnyte: " +:+ basename filePath) w in
  let cleanPath := drop_leading_slash egnytePath in
  let url := "https://" +:+ EGNYTE_DOMAIN CONFIG +:+
             "/pubapi/v1/fs-content/" +:+ cleanPath in
  emit by_ (Fetch (mkRequest "POST" url
    [("Authorization", "Bearer " +:+ EGNYTE_TOKEN CONFIG);
     ("Content-Type", "application/octet-stream")]
    (FileStream filePath) 30000%N)) w.

Definition set_task (tid : nat) (t : task) (w : world) : world :=
  with_tasks (<[tid := t]> (tasks w)) w.

(** The next element of the copy and the body up to
    [await uploadToEgnyte(...)]; after the last element, the summary. *)
Definition loop_head (tid : nat) (t : task) (w : world) : world :=
  match snapshot t !! i t with
  | Some item =>
      let w := emit (Some tid) (Attempt item) w in
      let w := uploadToEgnyte (Some tid) (localPath item) (egnytePath item)
                 w in
      set_task tid
        (mkTask (snapshot t) (i t) (success t) (failed t) AwaitUpload) w
  | None =>
      let w := console_log (Some tid)
        ("Upload complete: " +:+ pretty (success t) +:+ " success, " +:+
         pretty (failed t) +:+ " failed") w in
      set_task tid
        (mkTask (snapshot t) (i t) (success t) (failed t) Returned) w
  end.

(** [uploadQueue.splice(index, 1)] for the index of [it], if it has one. *)
Definition remove_item (it : item) (q : list item) : list item :=
  match indexOf it q with
  | Some index => delete index q
  | None => q
  end.

(** The rest of the body once [await uploadToEgnyte(...)] has settled. *)
Definition body_rest (tid : nat) (t : task) (item : item) (o : outcome)
    (w : world) : world :=
  match o with
  | None =>
      match unlinkSync (localPath item) (fs w) with
      | Some fs' =>
          let w := emit (Some tid) (Unlink (localPath item)) (with_fs fs' w) in
          let w := console_log (Some tid)
            ("Uploaded and deleted: " +:+ fileName item) w in
          (* Remove from queue *)
          let w := with_queue (remove_item item (uploadQueue w)) w in
          let t := mkTask (snapshot t) (i t) (S (success t)) (failed t)
                     (at_ t) in
          (* Wait before next upload *)
          match uploadQueue w with
          | _ :: _ =>
              let w := emit (Some tid)
                (SetTimeout (nextTimer w) (UPLOAD_DELAY CONFIG)) w in
              let w := with_drainTimers (drainTimers w) (S (nextTimer w)) w in
              set_task tid
                (mkTask (snapshot t) (i t) (success t) (failed t)
                   (AwaitDelay (now w + UPLOAD_DELAY CONFIG)%N)) w
          | [] =>
              loop_head tid
                (mkTask (snapshot t) (S (i t)) (success t) (failed t)
                   (at_ t)) w
          end
      | None =>
          let error := ENOENT "unlink" (localPath item) in
          let w := emit (Some tid) (Unlink (localPath item)) w in
          let w := console_error (Some tid)
            ("Failed to upload " +:+ fileName item +:+ ": " +:+
             message error) w in
          loop_head tid
            (mkTask (snapshot t) (S (i t)) (success t) (S (failed t))
               (at_ t)) w
      end
  | Some error =>
      let w := console_error (Some tid)
        ("Failed to upload " +:+ fileName item +:+ ": " +:+ message error)
        w in
      loop_head tid
        (mkTask (snapshot t) (S (i t)) (success t) (S (failed t)) (at_ t)) w
  end.

(** A call of [processUploads], up to its first [await]. *)
Definition processUploads (w : world) : world :=
  match uploadQueue w with
  | [] => console_log None "No files to upload" w
  | _ :: _ =>
      let tid := length (tasks w) in
      let w := console_log (Some tid)
        ("Processing " +:+ pretty (length (uploadQueue w)) +:+ " files...")
        w in
      let t := mkTask (uploadQueue w) 0 0 0 AwaitUpload in
      let w := with_tasks (tasks w ++ [t]) w in
      loop_head tid t w
  end.

Definition upload_settled (tid : nat) (o : outcome) (w : world) : world :=
  match tasks w !! tid with
  | Some t =>
      match at_ t, snapshot t !! i t with
      | AwaitUpload, Some item => body_rest tid t item o w
      | _, _ => w
      end
  | None => w
  end.

Definition elapsed (tid : nat) (w : world) : world :=
  match tasks w !! tid with
  | Some t =>
      match at_ t with
      | AwaitDelay due =>
          if decide (due ≤ now w)%N then
            loop_head tid
              (mkTask (snapshot t) (S (i t)) (success t) (failed t) (at_ t))
              w
          else w
      | _ => w
      end
  | None => w
  end.

(** The [login], [upload] and [disconnect] listeners of the server. *)
Definition login (username password : string) (w : world) : world :=
  match userMappings_get userMappings username with
  | Own userInfo =>
      if decide (User.password userInfo = password) then
        let w := console_log None
          ("User " +:+ username +:+ " authenticated") w in
        emit None (Callback "resolve") w
      else
        let w := console_log None ("Failed login: " +:+ username) w in
        emit None (Reject AuthenticationFailed) w
  | Inherited | Undefined =>
      let w := console_log None ("Failed login: " +:+ username) w in
      emit None (Reject AuthenticationFailed) w
  end.

Definition on_upload (filename user : string) (w : world) : world :=
  let userInfo := userMappings_get userMappings user in
  if truthy userInfo then
    let localPath := path_join (SCAN_DIR CONFIG) filename in
    let egnytePath := template (egnytePath_of userInfo) +:+ "/" +:+ filename in
    let w := console_log None
      ("File uploaded: " +:+ filename +:+ " by " +:+ user) w in
    let it := mkItem (nextOid w) localPath egnytePath filename user in
    let w := emit None (Push it)
      (with_nextOid (S (nextOid w))
         (with_queue (uploadQueue w ++ [it]) w)) in
    console_log None
      ("Queued: " +:+ filename +:+ " (" +:+
       pretty (length (uploadQueue w)) +:+ " total)") w
  else w.

Definition on_disconnect (user : string) (w : world) : world :=
  let w := console_log None ("User " +:+ user +:+ " disconnected") w in
  (* Process uploads after disconnect *)
  let id := nextTimer w in
  let w := emit None (SetTimeout id 2000%N) w in
  with_drainTimers (drainTimers w ++ [(id, (now w + 2000)%N)]) (S id) w.

Definition drainTimer_fires (id : nat) (w : world) : world :=
  match list_find (λ t, t.1 = id) (drainTimers w) with
  | Some (k, (_, due)) =>
      if decide (due ≤ now w)%N then
        processUploads
          (with_drainTimers (delete k (drainTimers w)) (nextTimer w) w)
      else w
  | None => w
  end.

Inductive event :=
| Login (username password : string)
| Upload (filename user : string)
| Disconnect (user : string)
| DrainTimerFires (id : nat)
| UploadSettled (tid : nat) (o : outcome)
| Elapsed (tid : nat)
| Tick (d : N)
| FileStored (p : string) (size : N)
| FileRemoved (p : string).

Definition handle (w : world) (e : event) : world :=
  match e with
  | Login username password => login username password w
  | Upload filename user => on_upload filename user w
  | Disconnect user => on_disconnect user w
  | DrainTimerFires id => drainTimer_fires id w
  | UploadSettled tid o => upload_settled tid o w
  | Elapsed tid => elapsed tid w
  | Tick d => with_now (now w + d)%N w
  | FileStored p size => with_fs (<[p := size]> (fs w)) w
  | FileRemoved p => with_fs (delete p (fs w)) w
  end.

Definition run (w : world) (es : list event) : world :=
  fold_left handle es w.

End gateway.

End Simple.

(** ** Concrete inputs for the examples *)
Module Examples.

(** Stand-ins for Node's [path.basename], [path.dirname] and
    [path.extname] on the slash-separated paths of the examples, and for
    [JSON.parse] (the parsed value is kept as its text). *)
Fixpoint after_last (sep : ascii) (s acc : string) : string :=
  match s with
  | EmptyString => acc
  | String c s' =>
      if Ascii.eqb c sep then after_last sep s' EmptyString
      else after_last sep s' (acc +:+ String c EmptyString)
  end.

Fixpoint before_last (sep : ascii) (s : string) : option string :=
  match s with
  | EmptyString => None
  | String c s' =>
      match before_last sep s' with
      | Some d => Some (String c d)
      | None => if Ascii.eqb c sep then Some EmptyString else None
      end
  end.

Definition basename (s : string) : string := after_last "/"%char s EmptyString.

Definition dirname (s : string) : string :=
  match before_last "/"%char s with
  | Some EmptyString => "/"
  | Some d => d
  | None => "."
  end.

Definition extname (s : string) : string :=
  match before_last "."%char (basename s) with
  | Some _ => "." +:+ after_last "."%char s EmptyString
  | None => EmptyString
  end.

(** [path.join(a, b)] of Node on POSIX paths: the arguments that are not
    empty are joined with a slash and the result is normalised: empty
    segments and [.] are dropped, [..] takes the segment before it away. *)
Fixpoint split_slash (s acc : string) : list string :=
  match s with
  | EmptyString => [acc]
  | String c s' =>
      if Ascii.eqb c "/"%char then acc :: split_slash s' EmptyString
      else split_slash s' (acc +:+ String c EmptyString)
  end.

(** [res] holds the segments kept so far, the last one first. *)
Fixpoint normalize_segments (allowAboveRoot : bool) (segs res : list string)
    : list string :=
  match segs with
  | [] => rev res
  | seg :: segs' =>
      if String.eqb seg "" || String.eqb seg "." then
        normalize_segments allowAboveRoot segs' res
      else if String.eqb seg ".." then
        match res with
        | top :: res' =>
            if String.eqb top ".." then
              normalize_segments allowAboveRoot segs' (seg :: res)
            else normalize_segments allowAboveRoot segs' res'
        | [] =>
            normalize_segments allowAboveRoot segs'
              (if allowAboveRoot then [seg] else [])
        end
      else normalize_segments allowAboveRoot segs' (seg :: res)
  end.

Definition ends_with_slash (s : string) : bool :=
  match split_slash s EmptyString with
  | [] => false
  | l => String.eqb (List.last l "x") ""
  end.

Definition normalize (path : string) : string :=
  match path with
  | EmptyString => "."
  | String c _ =>
      let isAbsolute := Ascii.eqb c "/"%char in
      let trailingSeparator := ends_with_slash path in
      let kept :=
        String.concat "/"
          (normalize_segments (negb isAbsolute) (split_slash path EmptyString)
             []) in
      match kept with
      | EmptyString =>
          if isAbsolute then "/" else if trailingSeparator then "./" else "."
      | _ =>
          (if isAbsolute then "/" else "") +:+ kept +:+
          (if trailingSeparator then "/" else "")
      end
  end.

Definition path_join (a b : string) : string :=
  match a, b with
  | EmptyString, EmptyString => "."
  | EmptyString, _ => normalize b
  | _, EmptyString => normalize a
  | _, _ => normalize (a +:+ "/" +:+ b)
  end.

Definition JSON_parse (s : string) : option string := Some s.

(** The credential table of the scenarios: one user, alice, secret s1. *)
Definition users : userMappings_t :=
  {[ "alice" := User.mk "alice@example.com" "s1" "/Shared/Userfiles/alice" ]}.

Definition client : EgnyteClient.t :=
  EgnyteClient.mkClient "token" "acme" "https://acme.egnyte.com".

(** A network on which every request gets the given status. *)
Definition answer (code : nat) (r : request) : EgnyteClient.fetched :=
  EgnyteClient.Responded (EgnyteClient.mkResponse code "status" (Some EmptyString)).


(** A network on which every request fails to connect. *)
Definition offline (r : request) : EgnyteClient.fetched :=
  EgnyteClient.Rejected (newError "fetch failed").

End Examples.

(** * Properties *)

(** ** The lookup of a user *)

Lemma userMappings_get_Own (userMappings : userMappings_t) name userInfo :
  userMappings_get userMappings name = Own userInfo ↔
  userMappings !! name = Some userInfo.
Proof.
  unfold userMappings_get. destruct (userMappings !! name) as [u|].
  - split; congruence.
  - by destruct (bool_decide _).
Qed.

Lemma userMappings_get_Inherited (userMappings : userMappings_t) name :
  userMappings_get userMappings name = Inherited ↔
  userMappings !! name = None ∧ name ∈ Object_prototype.
Proof.
  unfold userMappings_get. destruct (userMappings !! name) as [u|].
  - split; [done|]. by intros [? _].
  - destruct (bool_decide_reflect (name ∈ Object_prototype)); split;
      try done; by intros [_ ?].
Qed.

(** ** The [Map] model *)
Module JSMapFacts.
Import JSMap.

Section facts.
Context {V : Type}.
Implicit Types (m : t V) (k : string) (v : V).

Lemma get_Some_elem_of k v m : get k m = Some v → (k, v) ∈ m.
Proof.
  induction m as [|[k' v'] m IH]; csimpl; [done|].
  destruct (decide (k = k')) as [->|]; intros H.
  - injection H as ->. apply list_elem_of_here.
  - apply list_elem_of_further; auto.
Qed.

Lemma get_None_keys k m : get k m = None ↔ k ∉ keys m.
Proof.
  unfold keys. induction m as [|[k' v'] m IH]; csimpl.
  - split; [intros _; apply not_elem_of_nil | done].
  - destruct (decide (k = k')) as [->|Hne].
    + split; [done|]. intros H. exfalso. apply H, list_elem_of_here.
    + rewrite IH, not_elem_of_cons. clear IH; tauto.
Qed.

Lemma elem_of_get k v m : NoDup (keys m) → (k, v) ∈ m → get k m = Some v.
Proof.
  unfold keys. induction m as [|[k' v'] m IH]; csimpl.
  - intros _ H. by apply elem_of_nil in H.
  - rewrite NoDup_cons. intros [Hk Hm] [H|H]%elem_of_cons.
    + injection H as -> ->. by rewrite decide_True.
    + destruct (decide (k = k')) as [->|]; [|auto].
      exfalso. apply Hk. apply list_elem_of_fmap. by exists (k', v).
Qed.

Lemma elem_of_delete k kv m : kv ∈ delete k m → kv ∈ m.
Proof.
  induction m as [|[k' v'] m IH]; csimpl; [done|].
  destruct (decide (k = k')).
  - apply list_elem_of_further.
  - rewrite !elem_of_cons. tauto.
Qed.

Lemma keys_delete k k' m : k' ∈ keys (delete k m) → k' ∈ keys m.
Proof.
  unfold keys. rewrite !list_elem_of_fmap.
  intros (kv & -> & H). exists kv. eauto using elem_of_delete.
Qed.

Lemma NoDup_delete k m : NoDup (keys m) → NoDup (keys (delete k m)).
Proof.
  induction m as [|[k' v'] m IH]; csimpl; [done|].
  unfold keys in *. csimpl. rewrite NoDup_cons. intros [Hk Hm].
  destruct (decide (k = k')); [done|].
  csimpl. apply NoDup_cons. split; [|auto].
  intros H. apply Hk. by apply (keys_delete k).
Qed.

Lemma get_delete_eq k m : NoDup (keys m) → get k (delete k m) = None.
Proof.
  induction m as [|[k' v'] m IH]; csimpl; [done|].
  unfold keys in *. csimpl. rewrite NoDup_cons. intros [Hk Hm].
  destruct (decide (k = k')) as [->|].
  - by apply get_None_keys.
  - csimpl. rewrite decide_False by done. auto.
Qed.

Lemma get_delete_ne k k' m : k ≠ k' → get k' (delete k m) = get k' m.
Proof.
  intros Hne. induction m as [|[k0 v0] m IH]; csimpl; [done|].
  destruct (decide (k = k0)) as [->|].
  - by rewrite decide_False by done.
  - csimpl. by rewrite IH.
Qed.

Lemma keys_set k v m :
  keys (set k v m) = if bool_decide (k ∈ keys m) then keys m else keys m ++ [k].
Proof.
  unfold keys. induction m as [|[k' v'] m IH]; csimpl.
  - done.
  - destruct (decide (k = k')) as [->|Hne]; csimpl.
    + by rewrite bool_decide_eq_true_2 by apply list_elem_of_here.
    + rewrite IH. destruct (bool_decide (k ∈ m.*1)) eqn:E.
      * apply bool_decide_eq_true in E.
        by rewrite bool_decide_eq_true_2 by by apply list_elem_of_further.
      * apply bool_decide_eq_false in E.
        rewrite bool_decide_eq_false_2; [done|].
        rewrite not_elem_of_cons. done.
Qed.

Lemma NoDup_set k v m : NoDup (keys m) → NoDup (keys (set k v m)).
Proof.
  intros H. rewrite keys_set. case_bool_decide as E; [done|].
  apply NoDup_app. split_and!; [done| |apply NoDup_singleton].
  intros x Hx ->%list_elem_of_singleton. done.
Qed.


Lemma get_set_ne k k' v m : k ≠ k' → get k' (set k v m) = get k' m.
Proof.
  intros Hne. induction m as [|[k0 v0] m IH]; csimpl.
  - by rewrite decide_False.
  - destruct (decide (k = k0)) as [->|]; csimpl.
    + by rewrite !decide_False by done.
    + by rewrite IH.
Qed.

Lemma elem_of_set k v kv m : kv ∈ set k v m → kv = (k, v) ∨ kv ∈ m.
Proof.
  induction m as [|[k' v'] m IH]; csimpl.
  - rewrite list_elem_of_singleton. auto.
  - destruct (decide (k = k')); rewrite !elem_of_cons; intuition (subst; auto).
Qed.

Lemma set_absent k v m : get k m = None → set k v m = m ++ [(k, v)].
Proof.
  induction m as [|[k' v'] m IH]; csimpl; [done|].
  destruct (decide (k = k')); [done|]. intros H. by rewrite IH.
Qed.

Lemma delete_absent k m : get k m = None → delete k m = m.
Proof.
  induction m as [|[k' v'] m IH]; csimpl; [done|].
  destruct (decide (k = k')); [done|]. intros H. by rewrite IH.
Qed.

Lemma size_delete_le k m : size (delete k m) ≤ size m.
Proof.
  unfold size. induction m as [|[k' v'] m IH]; csimpl; [done|].
  destruct (decide (k = k')); csimpl; lia.
Qed.




End facts.

End JSMapFacts.

(** ** Computations that keep a property of the state *)
Section keeps.
Context {S : Type} (P : S → Prop).

Definition keeps {A} (m : M S A) : Prop := ∀ s, P s → P (m s).2.

Lemma keeps_ret {A} (a : A) : keeps (mret a).
Proof. by intros s Hs. Qed.

Lemma keeps_throw {A} e : keeps (throw e : M S A).
Proof. by intros s Hs. Qed.

Lemma keeps_bind {A B} (m : M S A) (f : A → M S B) :
  keeps m → (∀ a, keeps (f a)) → keeps (m ≫= f).
Proof.
  intros Hm Hf s Hs. unfold mbind, M_bind. specialize (Hm s Hs).
  destruct (m s) as [[a|e] s']; [by apply Hf | done].
Qed.

Lemma keeps_try_catch {A} (m : M S A) (h : jsError → M S A) :
  keeps m → (∀ e, keeps (h e)) → keeps (try_catch m h).
Proof.
  intros Hm Hh s Hs. unfold try_catch. specialize (Hm s Hs).
  destruct (m s) as [[a|e] s']; [done | by apply Hh].
Qed.

End keeps.

(** ** The production gateway *)
Module ProductionFacts.
Import Production.

(** The part of a trace that is not logging. *)
Definition is_log (e : effect) : bool :=
  match e with Log _ _ => true | _ => false end.

Definition actions (tr : list effect) : list effect :=
  filter (λ e, is_log e = false) tr.

(** What was appended to the trace between [w] and [w']. *)
Definition since (w w' : world) : list effect :=
  drop (length (trace w)) (trace w').

Lemma actions_app l1 l2 : actions (l1 ++ l2) = actions l1 ++ actions l2.
Proof. apply filter_app. Qed.

(** The users whose entry the cleanup loop drops, in the order of the
    registry. *)
Definition stale_users (w : world) : list string :=
  (filter (λ e : string * nat, is_stale e.2 w = true) (activeConnections w)).*1.

(** The registry after the cleanup loop. *)
Definition pruned (w : world) : JSMap.t nat :=
  foldl (flip JSMap.delete) (activeConnections w) (stale_users w).

Definition cleanup_trace (label : string) (us : list string) : list effect :=
  us ≫= λ u, [Log Warning (label +:+ u); MapDelete u].

Lemma actions_cleanup_trace label us :
  actions (cleanup_trace label us) = MapDelete <$> us.
Proof. induction us as [|u us IH]; [done|]. cbn. by rewrite <-IH. Qed.

Lemma stale_users_frame w' w :
  heap w' = heap w → conns w' = conns w →
  activeConnections w' = activeConnections w → stale_users w' = stale_users w.
Proof. unfold stale_users, is_stale. by intros -> -> ->. Qed.

Lemma pruned_frame w' w :
  heap w' = heap w → conns w' = conns w →
  activeConnections w' = activeConnections w → pruned w' = pruned w.
Proof.
  intros Hh Hc Ha. unfold pruned. by rewrite (stale_users_frame w' w), Ha.
Qed.

Lemma cleanup_fold label es w :
  fold_left (cleanup_entry label) es w =
  let us := (filter (λ e : string * nat, is_stale e.2 w = true) es).*1 in
  with_trace (trace w ++ cleanup_trace label us)
    (with_registry (λ m, foldl (flip JSMap.delete) m us) w).
Proof.
  revert w. induction es as [|[u ref] es IH]; intros w.
  - cbn. rewrite app_nil_r. by destruct w.
  - cbn [fold_left]. rewrite IH. rewrite filter_cons. cbn [snd].
    destruct (decide (is_stale ref w = true)) as [E|E].
    + assert (cleanup_entry label w (u, ref) =
              map_delete u (emit (Log Warning (label +:+ u)) w)) as ->.
      { unfold cleanup_entry. cbn [fst snd]. by rewrite E. }
      erewrite (list_filter_iff _ (λ e : string * nat, is_stale e.2 w = true)).
      2:{ intros x. by unfold is_stale. }
      cbn. unfold with_trace, with_registry. cbn. f_equal.
      by rewrite <-!app_assoc.
    + assert (cleanup_entry label w (u, ref) = w) as ->; [|done].
      unfold cleanup_entry. cbn [fst snd].
      by rewrite (not_true_is_false _ E).
Qed.

(** The cleanup loop deletes the stale users, in order, and changes
    nothing else. *)
Lemma cleanup_eq label w :
  cleanup label w =
  with_trace (trace w ++ cleanup_trace label (stale_users w))
    (with_registry (λ _, pruned w) w).
Proof. unfold cleanup. by rewrite cleanup_fold. Qed.

(** A property of the world that no step of a handler breaks, except
    perhaps setting the auto-disconnect timer. *)
Record stable (P : world → Prop) : Prop := mkStable {
  st_trace : ∀ tr w, P w → P (with_trace tr w);
  st_fs : ∀ f w, P w → P (with_fs f w);
  st_now : ∀ t w, P w → P (with_now t w);
  st_parked : ∀ f n w, P w → P (with_parked f n w);
  st_heap : ∀ f w, P w → P (with_heap f w);
  st_conns : ∀ f w, P w → P (with_conns f w);
  st_clear : ∀ id n w, P w → P (with_timers (delete id) n w);
  st_idle : ∀ id t ref n w,
    P w → P (with_timers (insert id (mkTimer t (IdleTimeout ref))) n w);
  st_set : ∀ k r w, P w → P (with_registry (JSMap.set k r) w);
  st_delete : ∀ k w, P w → P (with_registry (JSMap.delete k) w);
  st_empty : ∀ w, P w → P (with_registry (λ _, []) w)
}.

Section stable.
Context (P : world → Prop) (HP : stable P).

Lemma stable_emit e w : P w → P (emit e w).
Proof. apply HP. Qed.

Lemma stable_map_delete k w : P w → P (map_delete k w).
Proof. intros. by apply stable_emit, HP. Qed.

Lemma stable_map_set k r w : P w → P (map_set k r w).
Proof. intros. by apply stable_emit, HP. Qed.

Lemma stable_cleanup label w : P w → P (cleanup label w).
Proof.
  unfold cleanup. generalize (activeConnections w). intros es. revert w.
  induction es as [|e es IH]; intros w Hw; [done|].
  cbn [fold_left]. apply IH. unfold cleanup_entry.
  destruct (is_stale e.2 w); [|done].
  by apply stable_map_delete, stable_emit.
Qed.

Lemma keeps_lift f : (∀ w, P w → P (f w)) → keeps P (lift f).
Proof. intros Hf w Hw. by apply Hf. Qed.

Lemma keeps_ask {A} (f : world → A) : keeps P (ask f).
Proof. by intros w Hw. Qed.

Lemma keeps_logger l msg : keeps P (logger l msg).
Proof. apply keeps_lift. intros. by apply stable_emit. Qed.

Lemma keeps_reject e : keeps P (reject e).
Proof. apply keeps_lift. intros. by apply stable_emit. Qed.

Lemma keeps_clearTimeout id : keeps P (clearTimeout id).
Proof. intros w Hw. by apply stable_emit, HP. Qed.

Lemma keeps_setTimeout_idle ref d : keeps P (setTimeout (IdleTimeout ref) d).
Proof. intros w Hw. by apply stable_emit, HP. Qed.

Lemma keeps_close c : keeps P (close c).
Proof.
  intros w Hw. unfold close.
  destruct (conns w !! c) as [[? ? ? [e|]]|]; by apply stable_emit.
Qed.

Lemma keeps_fs_statSync p : keeps P (fs_statSync p).
Proof. intros w Hw. unfold fs_statSync. by destruct (statSync p (fs w)). Qed.

Lemma keeps_fs_unlinkSync p : keeps P (fs_unlinkSync p).
Proof.
  intros w Hw. unfold fs_unlinkSync.
  destruct (unlinkSync p (fs w)); cbn; [by apply stable_emit, HP|].
  by apply stable_emit.
Qed.

Lemma keeps_park ref a b c : keeps P (park ref a b c).
Proof. intros w Hw. by apply HP. Qed.

Lemma stable_exec {A} (m : M world A) w : keeps P m → P w → P (exec m w).
Proof.
  intros Hm Hw. unfold exec. specialize (Hm w Hw).
  destruct (m w) as [[a|e] w']; [done | by apply stable_emit].
Qed.

End stable.

Ltac keeps_lift_tac HP :=
  apply (keeps_lift _); intros ? ?;
  first [ by apply (stable_map_delete _ HP)
        | by apply (stable_map_set _ HP)
        | by apply (stable_cleanup _ HP)
        | by apply (stable_emit _ HP)
        | by apply HP ].

Ltac keeps_tac HP :=
  repeat first
    [ apply keeps_ret
    | apply keeps_throw
    | apply keeps_bind; [|intros ?]
    | apply keeps_try_catch; [|intros ?]
    | by apply keeps_logger
    | by apply keeps_reject
    | by apply keeps_ask
    | by apply keeps_clearTimeout
    | by apply keeps_setTimeout_idle
    | by apply keeps_close
    | by apply keeps_fs_statSync
    | by apply keeps_fs_unlinkSync
    | by apply keeps_park
    | keeps_lift_tac HP
    | match goal with
      | |- keeps _ (match ?x with _ => _ end) => destruct x
      end ].

Section handlers.
Context (CONFIG : config) (userMappings : userMappings_t).
Context (egnyteClient : option EgnyteClient.t).
Context (basename dirname extname : string → string).
Context (JSON_parse : string → option string).
Context (P : world → Prop) (HP : stable P).

Lemma keeps_idle_timeout ref cl : keeps P (idle_timeout ref cl).
Proof. unfold idle_timeout. keeps_tac HP. Qed.

Lemma keeps_resetIdleTimer ref cl : keeps P (resetIdleTimer CONFIG ref cl).
Proof. unfold resetIdleTimer. keeps_tac HP. Qed.

Lemma keeps_login c u p : keeps P (login CONFIG userMappings c u p).
Proof. unfold login. keeps_tac HP. Qed.

Lemma keeps_on_close cl : keeps P (on_close CONFIG cl).
Proof. unfold on_close. keeps_tac HP. Qed.

Lemma keeps_on_error cl e : keeps P (on_error cl e).
Proof. unfold on_error. keeps_tac HP. Qed.

Lemma keeps_on_end cl : keeps P (on_end cl).
Proof. unfold on_end. keeps_tac HP. Qed.

Lemma keeps_auto_disconnect cl : keeps P (auto_disconnect cl).
Proof. unfold auto_disconnect. keeps_tac HP. Qed.

Lemma keeps_on_STOR ref cl error filePath :
  keeps P (on_STOR CONFIG egnyteClient basename extname ref cl error filePath).
Proof.
  unfold on_STOR. keeps_tac HP; by apply keeps_resetIdleTimer.
Qed.

Lemma keeps_sweep : keeps P sweep.
Proof. unfold sweep. keeps_tac HP. Qed.

(** A failed upload: the rest of the STOR listener sets no timer. *)
Lemma keeps_after_upload_failed cl p e :
  keeps P (after_upload CONFIG cl p (Throw e)).
Proof. unfold after_upload. keeps_tac HP. Qed.

Lemma keeps_after_upload cl p r :
  (∀ id t ref n w,
     P w → P (with_timers (insert id (mkTimer t (AutoDisconnect ref))) n w)) →
  keeps P (after_upload CONFIG cl p r).
Proof.
  intros Hauto. unfold after_upload. destruct r; keeps_tac HP.
  intros w Hw. unfold setTimeout. cbn [snd]. by apply stable_emit, Hauto.
Qed.

Lemma stable_dispatch c f w :
  (∀ ref cl, keeps P (f ref cl)) → P w → P (dispatch c f w).
Proof.
  intros Hf. unfold dispatch. generalize (scopes_on c w). intros refs.
  revert w. induction refs as [|ref refs IH]; intros w Hw; [done|].
  cbn [fold_left]. apply IH.
  destruct (heap w !! ref); [by apply stable_exec | done].
Qed.

(** Whether the upload that event [e] settles in world [w] succeeds. *)
Definition settles_upload (w : world) (e : event) : bool :=
  match e with
  | Settled id net =>
      match parked w !! id, egnyteClient with
      | Some p, Some client =>
          match
            (EgnyteClient.uploadFile (UPLOAD_TIMEOUT CONFIG) client net
               basename dirname JSON_parse (now w) (p_fs p) (p_filePath p)
               (p_dest p) (trace w)).1
          with
          | Ret _ => true
          | Throw _ => false
          end
      | _, _ => false
      end
  | _ => false
  end.

Lemma stable_settle id net w :
  (settles_upload w (Settled id net) = true →
   ∀ id t ref n w,
     P w → P (with_timers (insert id (mkTimer t (AutoDisconnect ref))) n w)) →
  P w →
  P (exec (settle CONFIG egnyteClient basename dirname JSON_parse id net) w).
Proof.
  intros Hauto Hw. unfold exec, settle. cbn [settles_upload] in Hauto.
  destruct (parked w !! id) as [p|]; [|done].
  destruct egnyteClient as [client|]; [|done].
  destruct (heap w !! p_ref p) as [cl|]; [|done].
  cbn [now trace with_parked].
  destruct (EgnyteClient.uploadFile _ _ _ _ _ _ _ _ _ _ _) as [r tr].
  cbn [fst] in Hauto.
  assert (keeps P (after_upload CONFIG cl p r)) as K.
  { destruct r; [by apply keeps_after_upload, Hauto|].
    apply keeps_after_upload_failed. }
  match goal with
  | |- context [after_upload _ _ _ _ ?w1] =>
      assert (P w1) as Hw1 by (by apply HP, HP); specialize (K w1 Hw1);
      destruct (after_upload CONFIG cl p r w1) as [[a|e] w']
  end; [done | by apply stable_emit].
Qed.

Lemma stable_fire id w : P w → P (fire id w).
Proof.
  intros Hw. unfold fire. destruct (timers w !! id) as [t|]; [|done].
  destruct (decide _); [|done].
  assert (P (with_timers (delete id) (nextTimer w) w)) as Hw1 by by apply HP.
  destruct (cb t) as [ref|ref];
    (destruct (heap _ !! ref) as [cl|]; [|done]); apply stable_exec; try done.
  - apply keeps_idle_timeout.
  - apply keeps_auto_disconnect.
Qed.

(** Every event keeps a stable property, if setting the auto-disconnect
    timer keeps it whenever the event settles an upload that succeeded. *)
Lemma stable_handle w e :
  (settles_upload w e = true →
   ∀ id t ref n w,
     P w → P (with_timers (insert id (mkTimer t (AutoDisconnect ref))) n w)) →
  P w →
  P (handle CONFIG userMappings egnyteClient basename dirname extname
       JSON_parse w e).
Proof.
  intros Hauto Hw. destruct e; cbn [handle].
  - by apply HP.
  - apply stable_exec; [done| |done]. apply keeps_login.
  - apply stable_dispatch; [|done]. intros. apply keeps_on_STOR.
  - apply stable_dispatch; [|done]. intros. apply keeps_resetIdleTimer.
  - by apply stable_settle.
  - apply stable_dispatch; [|done]. intros. apply keeps_on_close.
  - apply stable_dispatch; [|done]. intros. apply keeps_on_error.
  - apply stable_dispatch; [|done]. intros. apply keeps_on_end.
  - by apply stable_fire.
  - apply stable_exec; [done| |done]. apply keeps_sweep.
  - unfold map_clear. by apply stable_emit, HP.
  - by apply HP.
  - by apply HP.
  - by apply HP.
  - by apply HP.
Qed.

(** What a call of [login] returns, the registry it leaves and what it
    did apart from logging. *)
Definition login_summary (c : nat) (u p : string) (w : world)
    : res (option nat) * JSMap.t nat * list effect :=
  let '(r, w') := login CONFIG userMappings c u p w in
  (r, activeConnections w', actions (since w w')).

(** What [login] does to the session that the pruned registry holds for
    [u]: close its connection, delete its entry. *)
Definition termination (u : string) (w : world) : list effect :=
  match JSMap.get u (pruned w) with
  | Some old =>
      match heap w !! old with
      | Some cl => [Close (conn (info cl)); MapDelete u]
      | None => [MapDelete u]
      end
  | None => []
  end.

End handlers.

Ltac wsimpl :=
  cbn [activeConnections heap conns timers nextTimer parked nextParked now fs
       trace emit with_trace with_registry with_heap with_conns with_timers
       with_parked with_now with_fs map_set map_delete map_clear fst snd
       fmap option_fmap option_map].

Ltac unfold_monad :=
  unfold reject, logger, setTimeout, clearTimeout;
  unfold mbind, M_bind, mret, M_ret, ask, lift, throw.

(** Replace [pruned w'] and [stale_users w'] by those of [w] when [w']
    differs from [w] in fields that they do not read. *)
Ltac frame w :=
  repeat match goal with
  | |- context [pruned ?w'] =>
      lazymatch w' with
      | w => fail
      | _ => rewrite (pruned_frame w' w) by done
      end
  | |- context [stale_users ?w'] =>
      lazymatch w' with
      | w => fail
      | _ => rewrite (stale_users_frame w' w) by done
      end
  end.

Ltac trace_done :=
  unfold since; wsimpl;
  rewrite <-?app_assoc, ?drop_app_length, ?actions_app, ?actions_cleanup_trace;
  try done.

Section login.
Context (CONFIG : config) (userMappings : userMappings_t).

Lemma login_no_connection c u p w :
  conns w !! c = None →
  login CONFIG userMappings c u p w = (Ret None, w).
Proof. intros Hc. unfold login. unfold_monad. by rewrite Hc. Qed.

(** At capacity: rejected, whoever asks and with whatever password. *)
Lemma login_busy c k u p w :
  conns w !! c = Some k →
  MAX_CONNECTIONS CONFIG ≤ JSMap.size (pruned w) →
  login_summary CONFIG userMappings c u p w =
  (Ret None, pruned w,
   (MapDelete <$> stale_users w) ++ [Reject CapacityExceeded]).
Proof.
  intros Hc Hfull. unfold login_summary, login. unfold_monad.
  rewrite Hc, !cleanup_eq. wsimpl.
  frame w.
  rewrite !decide_True by done.
  wsimpl. f_equal. trace_done.
Qed.

Lemma login_unknown c k u p w :
  conns w !! c = Some k →
  JSMap.size (pruned w) < MAX_CONNECTIONS CONFIG →
  userMappings_get userMappings u = Undefined →
  login_summary CONFIG userMappings c u p w =
  (Ret None, pruned w,
   (MapDelete <$> stale_users w) ++ [Reject (UserNotFound u)]).
Proof.
  intros Hc Hroom Hu. unfold login_summary, login. unfold_monad.
  rewrite Hc, !cleanup_eq. wsimpl.
  frame w.
  rewrite !decide_False, Hu by (done || lia).
  wsimpl. f_equal. trace_done.
Qed.

(** A name that the mapping has through [Object.prototype] only passes the
    check for an unknown user and fails the password check. *)
Lemma login_inherited c k u p w :
  conns w !! c = Some k →
  JSMap.size (pruned w) < MAX_CONNECTIONS CONFIG →
  userMappings_get userMappings u = Inherited →
  login_summary CONFIG userMappings c u p w =
  (Ret None, pruned w,
   (MapDelete <$> stale_users w) ++ [Reject InvalidPassword]).
Proof.
  intros Hc Hroom Hu. unfold login_summary, login. unfold_monad.
  rewrite Hc, !cleanup_eq. wsimpl.
  frame w.
  rewrite !decide_False, Hu by (done || lia).
  wsimpl. f_equal. trace_done.
Qed.

Lemma login_bad_password c k u p userInfo w :
  conns w !! c = Some k →
  JSMap.size (pruned w) < MAX_CONNECTIONS CONFIG →
  userMappings_get userMappings u = Own userInfo →
  User.password userInfo ≠ p →
  login_summary CONFIG userMappings c u p w =
  (Ret None, pruned w,
   (MapDelete <$> stale_users w) ++ [Reject InvalidPassword]).
Proof.
  intros Hc Hroom Hu Hp. unfold login_summary, login. unfold_monad.
  rewrite Hc, !cleanup_eq. wsimpl.
  frame w.
  rewrite !decide_False, Hu by (done || lia).
  rewrite decide_True by done.
  wsimpl. f_equal. trace_done.
Qed.

(** Below capacity, known user, right password: admitted; the session
    that the registry holds for the user is terminated first. *)
Lemma login_admitted c k u p userInfo w :
  conns w !! c = Some k →
  JSMap.size (pruned w) < MAX_CONNECTIONS CONFIG →
  userMappings_get userMappings u = Own userInfo →
  User.password userInfo = p →
  login_summary CONFIG userMappings c u p w =
  (Ret (Some (length (heap w))),
   JSMap.set u (length (heap w)) (JSMap.delete u (pruned w)),
   (MapDelete <$> stale_users w) ++ termination u w ++
   [MapSet u (length (heap w));
    SetTimeout (nextTimer w) (IDLE_TIMEOUT CONFIG);
    Resolve (SCAN_DROP_DIRECTORY CONFIG) "/"]).
Proof.
  intros Hc Hroom Hu Hp. unfold login_summary, login, termination.
  unfold_monad.
  rewrite Hc, !cleanup_eq. wsimpl.
  frame w.
  rewrite !decide_False, Hu by (done || lia).
  rewrite decide_False by (by intros ?). wsimpl.
  frame w.
  destruct (JSMap.get u (pruned w)) as [old|] eqn:Eg; wsimpl.
  - destruct (heap w !! old) as [cl|] eqn:Eh; wsimpl.
    + unfold try_catch, close. wsimpl.
      destruct (conns w !! conn (info cl)) as [[? ? ? [e|]]|];
        wsimpl; f_equal; trace_done.
    + f_equal. trace_done.
  - rewrite (JSMapFacts.delete_absent u) by done.
    f_equal. trace_done.
Qed.

(** The checks of [login], in their order, as one decision. *)
Lemma login_decision c k u p w :
  conns w !! c = Some k →
  login_summary CONFIG userMappings c u p w =
  if decide (MAX_CONNECTIONS CONFIG ≤ JSMap.size (pruned w)) then
    (Ret None, pruned w,
     (MapDelete <$> stale_users w) ++ [Reject CapacityExceeded])
  else
    match userMappings_get userMappings u with
    | Undefined =>
        (Ret None, pruned w,
         (MapDelete <$> stale_users w) ++ [Reject (UserNotFound u)])
    | Inherited =>
        (Ret None, pruned w,
         (MapDelete <$> stale_users w) ++ [Reject InvalidPassword])
    | Own userInfo =>
        if decide (User.password userInfo ≠ p) then
          (Ret None, pruned w,
           (MapDelete <$> stale_users w) ++ [Reject InvalidPassword])
        else
          (Ret (Some (length (heap w))),
           JSMap.set u (length (heap w)) (JSMap.delete u (pruned w)),
           (MapDelete <$> stale_users w) ++ termination u w ++
           [MapSet u (length (heap w));
            SetTimeout (nextTimer w) (IDLE_TIMEOUT CONFIG);
            Resolve (SCAN_DROP_DIRECTORY CONFIG) "/"])
    end.
Proof.
  intros Hc. destruct (decide _) as [Hfull|Hroom].
  { by eapply login_busy. }
  destruct (userMappings_get userMappings u) as [userInfo| |] eqn:Hu.
  2:{ eapply login_inherited; [done|lia|done]. }
  2:{ eapply login_unknown; [done|lia|done]. }
  destruct (decide _) as [Hp|Hp].
  { eapply login_bad_password; [done|lia|done|done]. }
  eapply login_admitted; [done|lia|done|].
  by destruct (decide (User.password userInfo = p)).
Qed.

End login.

(** *** The registry holds at most one session per identity *)

Definition distinct_keys (w : world) : Prop :=
  NoDup (JSMap.keys (activeConnections w)).

Lemma distinct_keys_stable : stable distinct_keys.
Proof.
  split; unfold distinct_keys; intros; wsimpl; try done.
  - by apply JSMapFacts.NoDup_set.
  - by apply JSMapFacts.NoDup_delete.
  - apply NoDup_nil_2.
Qed.

Section reachable.
Context (CONFIG : config) (userMappings : userMappings_t).
Context (egnyteClient : option EgnyteClient.t).
Context (basename dirname extname : string → string).
Context (JSON_parse : string → option string).

Local Abbreviation reachable :=
  (reachable CONFIG userMappings egnyteClient basename dirname extname
     JSON_parse).
Local Abbreviation run :=
  (run CONFIG userMappings egnyteClient basename dirname extname JSON_parse).
Local Abbreviation handle :=
  (handle CONFIG userMappings egnyteClient basename dirname extname
     JSON_parse).

Lemma run_snoc w es e : run w (es ++ [e]) = handle (run w es) e.
Proof. unfold run. by rewrite fold_left_app. Qed.

Lemma reachable_ind (P : world → Prop) :
  P init → (∀ w e, reachable w → P w → P (handle w e)) →
  ∀ w, reachable w → P w.
Proof.
  intros H0 Hstep w [es ->]. induction es as [|e es IH] using rev_ind.
  - done.
  - rewrite run_snoc. apply Hstep; [by exists es | done].
Qed.

Lemma reachable_distinct_keys w : reachable w → distinct_keys w.
Proof.
  apply reachable_ind.
  - apply NoDup_nil_2.
  - intros w0 e _ Hw0. apply stable_handle; [apply distinct_keys_stable| |done].
    intros _ id t ref n w1 Hw1. done.
Qed.

(** Pruning keeps the entry of a user whose session is not stale. *)
Lemma get_foldl_delete (u : string) (us : list string) (m : JSMap.t nat) :
  u ∉ us → JSMap.get u (foldl (flip JSMap.delete) m us) = JSMap.get u m.
Proof.
  revert m. induction us as [|u' us IH]; intros m Hu; [done|].
  apply not_elem_of_cons in Hu as [Hne Hu]. cbn [foldl].
  rewrite IH by done. unfold flip. by apply JSMapFacts.get_delete_ne.
Qed.

Lemma get_pruned_live u old w :
  distinct_keys w →
  JSMap.get u (activeConnections w) = Some old →
  is_stale old w = false →
  JSMap.get u (pruned w) = Some old.
Proof.
  intros Hnd Hget Hlive. unfold pruned. rewrite get_foldl_delete; [done|].
  unfold stale_users. intros ([u' ref] & -> & Hin)%list_elem_of_fmap.
  apply list_elem_of_filter in Hin as [Hstale Hin]. cbn [fst snd] in *.
  apply (JSMapFacts.elem_of_get _ _ _ Hnd) in Hin.
  rewrite Hget in Hin. injection Hin as ->. congruence.
Qed.


End reachable.

(** C10. The admission checks of [login] run in a fixed order: the stale
    entries are pruned, then the capacity is checked on the pruned
    registry, then the user is looked up, then the password is compared,
    and only then is the session that the registry holds for the same user
    terminated. The lookup is [userMappings[username]]: a name that is no
    key of the mapping is rejected as not found unless it names a property
    of [Object.prototype], which passes the lookup and is rejected by the
    password check. So at capacity every attempt is rejected with the
    capacity error whatever its credentials are, and a user whose own live
    session fills the last place is rejected with it too, that session
    untouched. *)
Theorem login_check_order (CONFIG : config) (userMappings : userMappings_t)
    (c : nat) (k : connection) (u p : string) (w : world) :
  conns w !! c = Some k →
  login_summary CONFIG userMappings c u p w =
    (if decide (MAX_CONNECTIONS CONFIG ≤ JSMap.size (pruned w)) then
       (Ret None, pruned w,
        (MapDelete <$> stale_users w) ++ [Reject CapacityExceeded])
     else
       match userMappings_get userMappings u with
       | Undefined =>
           (Ret None, pruned w,
            (MapDelete <$> stale_users w) ++ [Reject (UserNotFound u)])
       | Inherited =>
           (Ret None, pruned w,
            (MapDelete <$> stale_users w) ++ [Reject InvalidPassword])
       | Own userInfo =>
           if decide (User.password userInfo ≠ p) then
             (Ret None, pruned w,
              (MapDelete <$> stale_users w) ++ [Reject InvalidPassword])
           else
             (Ret (Some (length (heap w))),
              JSMap.set u (length (heap w)) (JSMap.delete u (pruned w)),
              (MapDelete <$> stale_users w) ++ termination u w ++
              [MapSet u (length (heap w));
               SetTimeout (nextTimer w) (IDLE_TIMEOUT CONFIG);
               Resolve (SCAN_DROP_DIRECTORY CONFIG) "/"])
       end)
  ∧ (∀ u' p',
       MAX_CONNECTIONS CONFIG ≤ JSMap.size (pruned w) →
       login_summary CONFIG userMappings c u' p' w =
       (Ret None, pruned w,
        (MapDelete <$> stale_users w) ++ [Reject CapacityExceeded]))
  ∧ (∀ old userInfo,
       distinct_keys w →
       JSMap.get u (activeConnections w) = Some old →
       is_stale old w = false →
       JSMap.size (pruned w) = MAX_CONNECTIONS CONFIG →
       userMappings_get userMappings u = Own userInfo →
       User.password userInfo = p →
       ∃ w',
         login CONFIG userMappings c u p w = (Ret None, w') ∧
         actions (since w w') =
           (MapDelete <$> stale_users w) ++ [Reject CapacityExceeded] ∧
         JSMap.get u (activeConnections w') = Some old).
Proof.
  intros Hc. split_and!.
  - by eapply login_decision.
  - intros u' p' Hfull. by eapply login_busy.
  - intros old userInfo Hnd Hget Hlive Hsize Hu Hp.
    pose proof (login_busy CONFIG userMappings c k u p w Hc) as H.
    unfold login_summary in H.
    destruct (login CONFIG userMappings c u p w) as [r w'].
    specialize (H ltac:(lia)). injection H as -> Hreg Hact.
    exists w'. split_and!; [done..|].
    rewrite Hreg. by apply get_pruned_live.
Qed.


End ProductionFacts.

(** ** The Egnyte client *)
Module EgnyteFacts.
Import EgnyteClient.

(** The requests of a trace, in the order they were sent. *)
Definition fetches (tr : list effect) : list request :=
  omap (λ e, match e with Fetch r => Some r | _ => None end) tr.

Definition is_Ret {A} (r : res A) : bool :=
  match r with Ret _ => true | Throw _ => false end.

Section client.
Context (UPLOAD_TIMEOUT : N) (this : t) (net : request → fetched).
Context (basename dirname : string → string).
Context (JSON_parse : string → option string) (now : N).





Lemma fetches_app l1 l2 : fetches (l1 ++ l2) = fetches l1 ++ fetches l2.
Proof. apply omap_app. Qed.

Lemma bind_log {A} l msg (f : () → M (list effect) A) tr :
  (log l msg ≫= f) tr = f () (tr ++ [Log l msg]).
Proof. done. Qed.

Lemma bind_fetch {A} req (f : response → M (list effect) A) tr :
  (fetch net req ≫= f) tr =
  match net req with
  | Rejected e => (Throw e, tr ++ [Fetch req])
  | Responded resp => f resp (tr ++ [Fetch req])
  end.
Proof. unfold mbind, M_bind, fetch. by destruct (net req). Qed.

Lemma bind_ret {A B} (a : A) (f : A → M (list effect) B) tr :
  (mret a ≫= f) tr = f a tr.
Proof. done. Qed.

(** The [catch] block of [uploadFile] logs and throws the error again. *)
Lemma uploadFile_catch localFilePath dest error tr :
  ∃ logs,
    (log Error ("Egnyte upload failed: " +:+ message error) ;;
     log Error ("File: " +:+ basename localFilePath) ;;
     log Error ("Intended destination: " +:+ dest) ;;
     log Error ("Upload URL: " +:+ baseUrl this +:+
                "/pubapi/v1/fs-content" +:+ dest) ;;
     match cause error with
     | Some c => log Error ("Error cause: " +:+ c)
     | None => mret ()
     end ;;
     match code error with
     | Some c => log Error ("Error code: " +:+ c)
     | None => mret ()
     end ;;
     errorContext this error ;;
     (throw error : M (list effect) uploadResult)) tr =
    (Throw error, tr ++ logs) ∧
    fetches logs = [].
Proof.
  rewrite !bind_log. unfold errorContext.
  destruct (cause error), (code error);
    rewrite ?bind_log, ?bind_ret;
    repeat (destruct (includes _ _); rewrite ?bind_log, ?bind_ret);
    unfold throw, log, mbind, M_bind, mret, M_ret;
    eexists; rewrite <-?app_assoc; split; reflexivity.
Qed.


(** The client only logs and sends requests. *)
Definition client_effect (e : effect) : Prop :=
  match e with Log _ _ | Fetch _ => True | _ => False end.

Definition extends (tr0 tr : list effect) : Prop :=
  ∃ suf, tr = tr0 ++ suf ∧ Forall client_effect suf.

Lemma extends_refl tr0 : extends tr0 tr0.
Proof. exists []. by rewrite app_nil_r. Qed.

Lemma extends_snoc tr0 tr e :
  client_effect e → extends tr0 tr → extends tr0 (tr ++ [e]).
Proof.
  intros He (suf & -> & Hsuf). exists (suf ++ [e]).
  rewrite app_assoc. split; [done|]. apply Forall_app. by split; [|constructor].
Qed.

Lemma keeps_log tr0 l msg : keeps (extends tr0) (log l msg).
Proof. intros tr Htr. by apply extends_snoc. Qed.

Lemma keeps_fetch tr0 req : keeps (extends tr0) (fetch net req).
Proof.
  intros tr Htr. unfold fetch. destruct (net req); by apply extends_snoc.
Qed.

Ltac keeps_client :=
  repeat first
    [ apply keeps_ret
    | apply keeps_throw
    | apply keeps_log
    | apply keeps_fetch
    | apply keeps_bind; [|intros ?]
    | apply keeps_try_catch; [|intros ?]
    | match goal with
      | |- keeps _ (match ?x with _ => _ end) => destruct x
      end ].

Lemma keeps_ensureDirectoryExists tr0 dir :
  keeps (extends tr0) (ensureDirectoryExists this net dir).
Proof.
  unfold ensureDirectoryExists, ensureDirectoryExists_try. keeps_client.
Qed.

Lemma keeps_uploadFile tr0 fs localFilePath dest :
  keeps (extends tr0)
    (uploadFile UPLOAD_TIMEOUT this net basename dirname JSON_parse now fs
       localFilePath dest).
Proof.
  unfold uploadFile, uploadFile_try, errorContext.
  keeps_client; apply keeps_ensureDirectoryExists.
Qed.

Lemma uploadFile_extends fs localFilePath dest tr :
  extends tr
    (uploadFile UPLOAD_TIMEOUT this net basename dirname JSON_parse now fs
       localFilePath dest tr).2.
Proof. apply keeps_uploadFile, extends_refl. Qed.

End client.


End EgnyteFacts.

(** ** The auto-disconnect timer of the production gateway *)
Module AutoDisconnectFacts.
Import Production ProductionFacts.

(** The auto-disconnect timers that are pending. *)
Definition auto_timer (t : timer) : Prop :=
  match cb t with AutoDisconnect _ => True | IdleTimeout _ => False end.

(** Every pending auto-disconnect timer of [w'] was pending in [w]. *)
Definition no_new_auto_timer (w w' : world) : Prop :=
  ∀ id t, timers w' !! id = Some t → auto_timer t → timers w !! id = Some t.

Lemma no_new_auto_timer_stable w : stable (no_new_auto_timer w).
Proof.
  split; unfold no_new_auto_timer; intros; try by eauto.
  - match goal with H : timers (with_timers _ _ _) !! _ = Some _ |- _ =>
      cbn [timers with_timers] in H;
      apply lookup_delete_Some in H as [? ?] end. eauto.
  - match goal with H : timers (with_timers _ _ _) !! _ = Some _ |- _ =>
      cbn [timers with_timers] in H;
      apply lookup_insert_Some in H as [[? <-]|[? ?]] end; [done|eauto].
Qed.

Section timer.
Context (CONFIG : config) (userMappings : userMappings_t).
Context (egnyteClient : option EgnyteClient.t).
Context (basename dirname extname : string → string).
Context (JSON_parse : string → option string).

Local Abbreviation handle :=
  (handle CONFIG userMappings egnyteClient basename dirname extname
     JSON_parse).
Local Abbreviation settles_upload :=
  (settles_upload CONFIG egnyteClient basename dirname JSON_parse).

(** What the rest of the STOR listener does once the upload has
    settled. *)
Lemma settled_spec w id net p client cl :
  parked w !! id = Some p →
  egnyteClient = Some client →
  heap w !! p_ref p = Some cl →
  let w' := handle w (Settled id net) in
  if settles_upload w (Settled id net) then
    timers w' =
      <[nextTimer w :=
          mkTimer (now w + timer_delay (AUTO_DISCONNECT_DELAY CONFIG))
            (AutoDisconnect (p_ref p))]> (timers w)
    ∧ SetTimeout (nextTimer w) (AUTO_DISCONNECT_DELAY CONFIG) ∈ since w w'
  else
    timers w' = timers w
    ∧ activeConnections w' = activeConnections w
    ∧ Forall (λ e, is_log e = true ∨ ∃ r, e = Fetch r) (since w w').
Proof.
  intros Hp Hc Hcl. cbn [Production.handle ProductionFacts.settles_upload].
  unfold exec, settle. rewrite Hp, Hc, Hcl. wsimpl.
  pose proof (EgnyteFacts.uploadFile_extends (UPLOAD_TIMEOUT CONFIG) client
    net basename dirname JSON_parse (now w) (p_fs p) (p_filePath p)
    (p_dest p) (trace w)) as (suf & Etr & Hsuf).
  destruct (EgnyteClient.uploadFile _ _ _ _ _ _ _ _ _ _ _) as [r tr].
  cbn [fst snd] in *. subst tr. destruct r as [a|e].
  - unfold after_upload, try_catch, fs_unlinkSync. unfold_monad.
    destruct (unlinkSync (p_filePath p) (fs w)) as [fs'|] eqn:Eu;
      wsimpl; rewrite Eu; wsimpl; (split; [done|]);
      unfold since; wsimpl; rewrite <-?app_assoc, drop_app_length;
      rewrite !elem_of_app, !list_elem_of_singleton; tauto.
  - unfold after_upload. unfold_monad. wsimpl.
    split_and!; [done..|].
    unfold since. wsimpl. rewrite <-?app_assoc, drop_app_length.
    apply Forall_app. split.
    + eapply List.Forall_impl; [|exact Hsuf].
      intros [] Hx; try done; [by left | right; by eexists].
    + repeat constructor; by left.
Qed.

(** What the auto-disconnect callback does when its timer fires. *)
Lemma fire_auto_spec w id t ref cl :
  timers w !! id = Some t →
  cb t = AutoDisconnect ref →
  heap w !! ref = Some cl →
  let w' := handle w (Fire id) in
  ((now w < due t)%N → w' = w)
  ∧ ((due t ≤ now w)%N →
     timers w' = delete id (timers w)
     ∧ activeConnections w' = activeConnections w
     ∧ if JSMap.has (username (info cl)) (activeConnections w)
       then Close (conn (info cl)) ∈ since w w'
       else since w w' = []).
Proof.
  intros Ht Hcb Hcl. cbn [Production.handle]. unfold fire.
  rewrite Ht, Hcb. split; intros Hdue.
  - rewrite decide_False by lia. done.
  - rewrite decide_True by done. wsimpl. rewrite Hcl.
    unfold exec, auto_disconnect. unfold_monad. wsimpl.
    destruct (JSMap.has _ _).
    + unfold close. wsimpl.
      destruct (conns w !! conn (info cl)) as [[? ? ? [e|]]|];
        wsimpl; (split_and!; [done..|]);
        unfold since; wsimpl; rewrite <-?app_assoc, drop_app_length;
        rewrite ?elem_of_app, !list_elem_of_singleton; tauto.
    + split_and!; [done..|]. unfold since. by rewrite drop_all.
Qed.

(** Only an upload that succeeded sets an auto-disconnect timer. *)
Lemma only_success_sets_auto_timer w e :
  settles_upload w e = false → no_new_auto_timer w (handle w e).
Proof.
  intros He. apply stable_handle.
  - apply no_new_auto_timer_stable.
  - intros He'. congruence.
  - by intros id t.
Qed.

End timer.

(** C7, amended. The auto-disconnect timer is set only by the rest of the
    STOR listener after an upload that succeeded: then a timer for the
    session is pending, due the grace delay after the moment the upload
    settled, where the grace delay is [AUTO_DISCONNECT_DELAY] when that lies
    between 1 and 2147483647 ms and 1 ms otherwise. An upload that failed
    sets no timer, calls no [close] and leaves the registry as it is. No
    other event adds an auto-disconnect timer. The timer cannot fire before
    it is due. When it fires, what it does is decided by the user name of
    the session: if the registry has no entry for that name nothing is
    closed; if it has one, be it the entry of this session or that of a
    later session of the same user, [close] is called on the connection of
    the session that set the timer. *)
Theorem auto_disconnect_only_after_success (CONFIG : config)
    (userMappings : userMappings_t) (egnyteClient : option EgnyteClient.t)
    (basename dirname extname : string → string)
    (JSON_parse : string → option string) (w : world) :
  (∀ id net p client cl,
     parked w !! id = Some p →
     egnyteClient = Some client →
     heap w !! p_ref p = Some cl →
     let w' := handle CONFIG userMappings egnyteClient basename dirname
                 extname JSON_parse w (Settled id net) in
     if settles_upload CONFIG egnyteClient basename dirname JSON_parse w
          (Settled id net)
     then
       timers w' =
         <[nextTimer w :=
             mkTimer (now w + timer_delay (AUTO_DISCONNECT_DELAY CONFIG))
               (AutoDisconnect (p_ref p))]> (timers w)
       ∧ SetTimeout (nextTimer w) (AUTO_DISCONNECT_DELAY CONFIG) ∈ since w w'
     else
       timers w' = timers w
       ∧ activeConnections w' = activeConnections w
       ∧ Forall (λ e, is_log e = true ∨ ∃ r, e = Fetch r) (since w w'))
  ∧ (∀ e,
       settles_upload CONFIG egnyteClient basename dirname JSON_parse w e
         = false →
       no_new_auto_timer w
         (handle CONFIG userMappings egnyteClient basename dirname extname
            JSON_parse w e))
  ∧ (∀ id t ref cl,
       timers w !! id = Some t →
       cb t = AutoDisconnect ref →
       heap w !! ref = Some cl →
       let w' := handle CONFIG userMappings egnyteClient basename dirname
                   extname JSON_parse w (Fire id) in
       ((now w < due t)%N → w' = w)
       ∧ ((due t ≤ now w)%N →
          timers w' = delete id (timers w)
          ∧ activeConnections w' = activeConnections w
          ∧ if JSMap.has (username (info cl)) (activeConnections w)
            then Close (conn (info cl)) ∈ since w w'
            else since w w' = [])).
Proof.
  split_and!.
  - intros. by eapply settled_spec.
  - intros. by apply only_success_sets_auto_timer.
  - intros. by eapply fire_auto_spec.
Qed.

End AutoDisconnectFacts.

(** ** The local file after an upload *)
Module StoredFileFacts.
Import Production ProductionFacts.

Section stored.
Context (CONFIG : config) (userMappings : userMappings_t).
Context (egnyteClient : option EgnyteClient.t).
Context (basename dirname extname : string → string).
Context (JSON_parse : string → option string).

Local Abbreviation handle :=
  (handle CONFIG userMappings egnyteClient basename dirname extname
     JSON_parse).
Local Abbreviation settles_upload :=
  (settles_upload CONFIG egnyteClient basename dirname JSON_parse).

(** In the production gateway, when the upload that a STOR listener awaits
    has settled, the local file is deleted if the upload succeeded and the
    file system is left as it is if the upload failed. *)
Theorem upload_outcome_decides_local_file w id net p client cl :
  parked w !! id = Some p →
  egnyteClient = Some client →
  heap w !! p_ref p = Some cl →
  fs (handle w (Settled id net)) =
    if settles_upload w (Settled id net)
    then delete (p_filePath p) (fs w)
    else fs w.
Proof.
  intros Hp Hc Hcl. cbn [Production.handle ProductionFacts.settles_upload].
  unfold exec, settle. rewrite Hp, Hc, Hcl. wsimpl.
  destruct (EgnyteClient.uploadFile _ _ _ _ _ _ _ _ _ _ _) as [r tr].
  cbn [fst snd]. destruct r as [a|e].
  - unfold after_upload, try_catch, fs_unlinkSync, unlinkSync. unfold_monad.
    wsimpl.
    destruct (fs w !! p_filePath p) eqn:Efile; wsimpl; rewrite ?Efile; wsimpl.
    + done.
    + symmetry. by apply delete_id.
  - unfold after_upload. unfold_monad. by wsimpl.
Qed.

End stored.
End StoredFileFacts.

(** ** The production gateway on concrete inputs *)
Module ProductionScenarios.
Import Production ProductionFacts.

(** A gateway with room for [n] sessions and the one-user table. *)
Definition cfg (n : nat) : config := mkConfig n 60000 10000 "./scans" 30000.

Definition step (n : nat) : world → list event → world :=
  run (cfg n) Examples.users (Some Examples.client) Examples.basename
    Examples.dirname Examples.extname Examples.JSON_parse.

(** The duplicate-login scenario with room for [n] sessions: alice logs
    in, alice logs in again on a second connection while the first is
    open, then bob tries to log in with [secret]. *)
Definition first_login (n : nat) : world :=
  step n init [Connect "10.0.0.1"; Login 0 "alice" "s1"].

Definition second_login (n : nat) : world :=
  step n (first_login n) [Connect "10.0.0.2"; Login 1 "alice" "s1"].

Definition third_login (n : nat) (secret : string) : world :=
  step n (second_login n) [Connect "10.0.0.3"; Login 2 "bob" secret].

(** Whether a stretch of the trace admits a login. *)
Definition admitted (tr : list effect) : Prop :=
  ∃ root cwd, Resolve root cwd ∈ tr.

(** The scenario as the specification tells it, for a capacity of one. *)
Definition duplicate_login_claim : Prop :=
  admitted (since init (first_login 1))
  ∧ admitted (since (first_login 1) (second_login 1))
  ∧ Close 0 ∈ since (first_login 1) (second_login 1)
  ∧ ∀ secret,
      Reject CapacityExceeded
        ∈ since (second_login 1) (third_login 1 secret).

(** C1, as stated, fails: with a capacity of one the second login of alice
    is rejected with the capacity error, and the first connection is not
    closed. *)
Lemma duplicate_login_claim_fails :
  actions (since (first_login 1) (second_login 1)) = [Reject CapacityExceeded]
  ∧ ¬ duplicate_login_claim.
Proof.
  assert (actions (since (first_login 1) (second_login 1))
          = [Reject CapacityExceeded]) as H by (vm_compute; reflexivity).
  split; [done|]. intros (_ & _ & Hclose & _).
  assert (Close 0 ∈ actions (since (first_login 1) (second_login 1))) as Hin.
  { apply list_elem_of_filter. by split. }
  rewrite H in Hin. apply list_elem_of_singleton in Hin. discriminate.
Qed.

(** C1, amended. With a capacity of one: the first login of alice is
    admitted; her second login, while the first session is in the
    registry, is rejected with the capacity error, closes nothing and
    leaves the registry as it is; the login of bob, whatever secret he
    offers, is rejected with the capacity error. With a capacity of two,
    the second login of alice is admitted, and [close] is called on her
    first connection and her entry deleted before the new entry is set. *)
Theorem duplicate_login_at_capacity (secret : string) :
  actions (since init (first_login 1)) =
    [MapSet "alice" 0; SetTimeout 0 60000; Resolve "./scans" "/"]
  ∧ activeConnections (first_login 1) = [("alice", 0)]
  ∧ actions (since (first_login 1) (second_login 1)) =
      [Reject CapacityExceeded]
  ∧ activeConnections (second_login 1) = [("alice", 0)]
  ∧ actions (since (second_login 1) (third_login 1 secret)) =
      [Reject CapacityExceeded]
  ∧ activeConnections (third_login 1 secret) = [("alice", 0)]
  ∧ actions (since (first_login 2) (second_login 2)) =
      [Close 0; MapDelete "alice"; MapSet "alice" 1; SetTimeout 1 60000;
       Resolve "./scans" "/"]
  ∧ activeConnections (second_login 2) = [("alice", 1)].
Proof. split_and!; vm_compute; reflexivity. Qed.

(** C6 on the production gateway: with room in the registry, the error
    passed to [reject] for a user who is not in the table names the user and
    says it was not found, and the one for a known user with a wrong secret
    says the password is invalid; the two messages differ. *)
Lemma production_login_tells_unknown_user_from_wrong_secret :
  let w := step 10 init [Connect "10.0.0.1"] in
  login_summary (cfg 10) Examples.users 0 "bob" "s1" w =
    (Ret None, [], [Reject (UserNotFound "bob")])
  ∧ login_summary (cfg 10) Examples.users 0 "alice" "wrong" w =
    (Ret None, [], [Reject InvalidPassword])
  ∧ message (UserNotFound "bob") ≠ message InvalidPassword.
Proof. split_and!; [vm_compute; reflexivity..|]. vm_compute. discriminate. Qed.

(** The check order on the scenario: at a full registry alice is rejected
    with the capacity error; with room for a second session, bob is not
    found, and the name constructor, which the table has through
    [Object.prototype] only, passes the lookup and fails the password
    check. *)
Lemma login_check_order_witness :
  conns (step 1 (first_login 1) [Connect "10.0.0.2"]) !! 1 =
    Some (mkConnection "10.0.0.2" false "open" None)
  ∧ login_summary (cfg 1) Examples.users 1 "alice" "s1"
      (step 1 (first_login 1) [Connect "10.0.0.2"]) =
    (Ret None, [("alice", 0)], [Reject CapacityExceeded])
  ∧ login_summary (cfg 2) Examples.users 1 "bob" "s1"
      (step 2 (first_login 2) [Connect "10.0.0.2"]) =
    (Ret None, [("alice", 0)], [Reject (UserNotFound "bob")])
  ∧ login_summary (cfg 2) Examples.users 1 "constructor" "s1"
      (step 2 (first_login 2) [Connect "10.0.0.2"]) =
    (Ret None, [("alice", 0)], [Reject InvalidPassword]).
Proof.
  assert (conns (step 1 (first_login 1) [Connect "10.0.0.2"]) !! 1 =
          Some (mkConnection "10.0.0.2" false "open" None)) as Hc
    by (vm_compute; reflexivity).
  assert (conns (step 2 (first_login 2) [Connect "10.0.0.2"]) !! 1 =
          Some (mkConnection "10.0.0.2" false "open" None)) as Hc2
    by (vm_compute; reflexivity).
  split; [exact Hc|]. split_and!.
  - rewrite (proj1 (login_check_order (cfg 1) Examples.users 1 _ "alice" "s1"
                      _ Hc)).
    vm_compute. reflexivity.
  - rewrite (proj1 (login_check_order (cfg 2) Examples.users 1 _ "bob" "s1"
                      _ Hc2)).
    vm_compute. reflexivity.
  - rewrite (proj1 (login_check_order (cfg 2) Examples.users 1 _
                      "constructor" "s1" _ Hc2)).
    vm_compute. reflexivity.
Defined.



(** The state in which the STOR listener of alice is parked at its
    upload. *)
Definition parked_upload : world :=
  step 10 init
    [Connect "10.0.0.1"; Login 0 "alice" "s1";
     FileStored "scans/a.pdf" 1024; STOR 0 None "scans/a.pdf"].

(** An upload that succeeds sets the auto-disconnect timer of the session,
    due 10000 ms later; one that fails over a dead network sets none. *)
Lemma auto_disconnect_only_after_success_witness :
  (∃ p, parked parked_upload !! 0 = Some p ∧ p_ref p = 0)
  ∧ timers (handle (cfg 10) Examples.users (Some Examples.client)
              Examples.basename Examples.dirname Examples.extname
              Examples.JSON_parse parked_upload
              (Settled 0 (Examples.answer 200))) =
      <[2 := mkTimer
               (now parked_upload + timer_delay (AUTO_DISCONNECT_DELAY (cfg 10)))
               (AutoDisconnect 0)]>
        (timers parked_upload)
  ∧ timers (handle (cfg 10) Examples.users (Some Examples.client)
              Examples.basename Examples.dirname Examples.extname
              Examples.JSON_parse parked_upload
              (Settled 0 Examples.offline)) =
      timers parked_upload.
Proof.
  destruct (AutoDisconnectFacts.auto_disconnect_only_after_success (cfg 10)
              Examples.users (Some Examples.client) Examples.basename
              Examples.dirname Examples.extname Examples.JSON_parse
              parked_upload) as (H & _ & _).
  assert (∃ p cl, parked parked_upload !! 0 = Some p
                  ∧ heap parked_upload !! p_ref p = Some cl
                  ∧ p_ref p = 0)
    as (p & cl & Hp & Hcl & Hr).
  { eexists _, _. split_and!; vm_compute; reflexivity. }
  split; [exists p; split; [exact Hp | exact Hr]|]. split.
  - specialize (H 0 (Examples.answer 200) p Examples.client cl Hp eq_refl Hcl).
    assert (settles_upload (cfg 10) (Some Examples.client) Examples.basename
              Examples.dirname Examples.JSON_parse parked_upload
              (Settled 0 (Examples.answer 200)) = true) as E
      by (vm_compute; reflexivity).
    cbv zeta in H. rewrite E in H. destruct H as [H _].
    assert (nextTimer parked_upload = 2) as E2 by (vm_compute; reflexivity).
    rewrite E2, Hr in H. exact H.
  - specialize (H 0 Examples.offline p Examples.client cl Hp eq_refl Hcl).
    assert (settles_upload (cfg 10) (Some Examples.client) Examples.basename
              Examples.dirname Examples.JSON_parse parked_upload
              (Settled 0 Examples.offline) = false) as E
      by (vm_compute; reflexivity).
    cbv zeta in H. rewrite E in H. destruct H as [H _]. exact H.
Defined.

(** The upload of alice succeeds, her connection closes, which releases
    her session, and she logs in again on a second connection; then the
    grace delay is over. *)
Definition to_relogin : list event :=
  [Connect "10.0.0.1"; Login 0 "alice" "s1";
   FileStored "scans/a.pdf" 1024; STOR 0 None "scans/a.pdf";
   Settled 0 (Examples.answer 200); ConnClose 0;
   Connect "10.0.0.2"; Login 1 "alice" "s1"; Tick 10000].

Definition released : world :=
  step 10 parked_upload [Settled 0 (Examples.answer 200); ConnClose 0].

Definition relogged : world :=
  run (cfg 10) Examples.users (Some Examples.client) Examples.basename
    Examples.dirname Examples.extname Examples.JSON_parse init to_relogin.

(** What C7 says of an auto-disconnect timer that fires when the session
    that set it is no longer the one the registry holds: nothing is
    closed. *)
Definition suppressed_once_released : Prop :=
  ∀ w id t ref cl,
    reachable (cfg 10) Examples.users (Some Examples.client)
      Examples.basename Examples.dirname Examples.extname
      Examples.JSON_parse w →
    timers w !! id = Some t → cb t = AutoDisconnect ref →
    heap w !! ref = Some cl →
    JSMap.get (username (info cl)) (activeConnections w) ≠ Some ref →
    (due t ≤ now w)%N →
    actions (since w
      (handle (cfg 10) Examples.users (Some Examples.client)
         Examples.basename Examples.dirname Examples.extname
         Examples.JSON_parse w (Fire id))) = [].

(** C7, as stated, fails: the session of alice on connection 0 is released
    when the connection closes, the registry is empty; alice logs in again
    on connection 1; when the timer that the first session set fires, the
    registry has an entry for alice, that of the second session, and
    [close] is called on connection 0. *)
Lemma auto_disconnect_after_release_claim_fails :
  activeConnections released = []
  ∧ activeConnections relogged = [("alice", 1)]
  ∧ timers relogged !! 2 = Some (mkTimer 10000 (AutoDisconnect 0))
  ∧ now relogged = 10000%N
  ∧ actions (since relogged
      (handle (cfg 10) Examples.users (Some Examples.client)
         Examples.basename Examples.dirname Examples.extname
         Examples.JSON_parse relogged (Fire 2))) = [Close 0]
  ∧ ¬ suppressed_once_released.
Proof.
  assert (timers relogged !! 2 = Some (mkTimer 10000 (AutoDisconnect 0)))
    as Ht by (vm_compute; reflexivity).
  assert (actions (since relogged
      (handle (cfg 10) Examples.users (Some Examples.client)
         Examples.basename Examples.dirname Examples.extname
         Examples.JSON_parse relogged (Fire 2))) = [Close 0]) as E
    by (vm_compute; reflexivity).
  split; [vm_compute; reflexivity|]. split; [vm_compute; reflexivity|].
  split; [exact Ht|]. split; [vm_compute; reflexivity|].
  split; [exact E|].
  intros H.
  assert (∃ cl, heap relogged !! 0 = Some cl ∧
                JSMap.get (username (info cl)) (activeConnections relogged)
                  ≠ Some 0) as (cl & Hcl & Hget).
  { eexists. split; [vm_compute; reflexivity|]. vm_compute. discriminate. }
  assert ((due (mkTimer 10000 (AutoDisconnect 0)) ≤ now relogged)%N) as Hdue.
  { assert (now relogged = 10000%N) as -> by (vm_compute; reflexivity).
    cbn. lia. }
  assert (reachable (cfg 10) Examples.users (Some Examples.client)
            Examples.basename Examples.dirname Examples.extname
            Examples.JSON_parse relogged) as Hr
    by (exists to_relogin; reflexivity).
  specialize (H relogged 2 _ 0 cl Hr Ht eq_refl Hcl Hget Hdue).
  rewrite E in H. discriminate H.
Qed.

(** The upload of the file of alice succeeds and the file is deleted; over
    a dead network it fails and the file stays. *)
Lemma upload_outcome_decides_local_file_witness :
  fs parked_upload !! "scans/a.pdf" = Some 1024%N
  ∧ fs (handle (cfg 10) Examples.users (Some Examples.client)
          Examples.basename Examples.dirname Examples.extname
          Examples.JSON_parse parked_upload
          (Settled 0 (Examples.answer 200))) =
      delete "scans/a.pdf" (fs parked_upload)
  ∧ fs (handle (cfg 10) Examples.users (Some Examples.client)
          Examples.basename Examples.dirname Examples.extname
          Examples.JSON_parse parked_upload
          (Settled 0 Examples.offline)) =
      fs parked_upload.
Proof.
  split; [vm_compute; reflexivity|].
  assert (∃ p cl, parked parked_upload !! 0 = Some p
                  ∧ heap parked_upload !! p_ref p = Some cl
                  ∧ p_filePath p = "scans/a.pdf")
    as (p & cl & Hp & Hcl & Hpath).
  { eexists _, _. split_and!; vm_compute; reflexivity. }
  split.
  - rewrite (StoredFileFacts.upload_outcome_decides_local_file (cfg 10)
               Examples.users (Some Examples.client) Examples.basename
               Examples.dirname Examples.extname Examples.JSON_parse
               parked_upload 0 (Examples.answer 200) p Examples.client cl
               Hp eq_refl Hcl).
    assert (settles_upload (cfg 10) (Some Examples.client) Examples.basename
              Examples.dirname Examples.JSON_parse parked_upload
              (Settled 0 (Examples.answer 200)) = true) as ->
      by (vm_compute; reflexivity).
    by rewrite Hpath.
  - rewrite (StoredFileFacts.upload_outcome_decides_local_file (cfg 10)
               Examples.users (Some Examples.client) Examples.basename
               Examples.dirname Examples.extname Examples.JSON_parse
               parked_upload 0 Examples.offline p Examples.client cl
               Hp eq_refl Hcl).
    assert (settles_upload (cfg 10) (Some Examples.client) Examples.basename
              Examples.dirname Examples.JSON_parse parked_upload
              (Settled 0 Examples.offline) = false) as ->
      by (vm_compute; reflexivity).
    done.
Defined.

End ProductionScenarios.

(** ** Traces of the queueing variants *)
Module TraceFacts.

(** An effect that neither pushes an item nor hands one to the upload
    function. *)
Definition inert (e : effect) : Prop :=
  match e with Push _ | Attempt _ => False | _ => True end.

Lemma attempt_log_app tid tr1 tr2 :
  attempt_log tid (tr1 ++ tr2) = attempt_log tid tr1 ++ attempt_log tid tr2.
Proof. apply omap_app. Qed.

Lemma attempt_log_inert tid t by_ e :
  inert e → attempt_log tid [mkEntry t by_ e] = [].
Proof. intros He. unfold attempt_log. cbn. by destruct by_, e. Qed.

Lemma attempt_log_attempt tid t it :
  attempt_log tid [mkEntry t (Some tid) (Attempt it)] = [(t, it)].
Proof. unfold attempt_log. cbn. by rewrite decide_True. Qed.

Lemma attempt_log_other tid tid' t e :
  tid' ≠ tid → attempt_log tid [mkEntry t (Some tid') e] = [].
Proof.
  intros Hne. unfold attempt_log. cbn. destruct e; try done.
  by rewrite decide_False.
Qed.

Lemma pushed_app tr1 tr2 : pushed (tr1 ++ tr2) = pushed tr1 ++ pushed tr2.
Proof. apply omap_app. Qed.

Lemma pushed_inert t by_ e : inert e → pushed [mkEntry t by_ e] = [].
Proof. intros He. unfold pushed. cbn. by destruct e. Qed.

Lemma pushed_attempt t by_ it : pushed [mkEntry t by_ (Attempt it)] = [].
Proof. done. Qed.

Lemma pushed_push t by_ it : pushed [mkEntry t by_ (Push it)] = [it].
Proof. done. Qed.

Lemma paced_snoc d l y :
  paced d (l ++ [y]) ↔ paced d l ∧ ∀ x, last l = Some x → (x + d ≤ y)%N.
Proof.
  induction l as [|x l IH]; [cbn; naive_solver|].
  destruct l as [|x' l].
  - cbn. split; [intros [H _]; split; [done|]; by intros ? [= <-] | ].
    intros [_ H]. split; [by apply H | done].
  - change ((x :: x' :: l) ++ [y]) with (x :: (x' :: l) ++ [y]).
    change (paced d (x :: (x' :: l) ++ [y]))
      with ((x + d ≤ x')%N ∧ paced d ((x' :: l) ++ [y])).
    change (paced d (x :: x' :: l)) with ((x + d ≤ x')%N ∧ paced d (x' :: l)).
    rewrite IH. rewrite (last_cons_cons x x' l). tauto.
Qed.

End TraceFacts.

(** ** The queueing gateway with snapshot-and-clear *)
Module FixedFacts.
Import Fixed TraceFacts.

Ltac fsimpl :=
  cbn [uploadQueue userSessions processTimer conns listeners tasks nextTimer
       nextOid now fs trace emit with_queue with_sessions with_processTimer
       with_conns with_listeners with_tasks with_nextTimer with_nextOid
       with_now with_fs with_trace console_log console_error writeLog
       set_task filesToProcess i success failed at_].

Tactic Notation "fsimpl" "in" hyp(H) :=
  cbn [uploadQueue userSessions processTimer conns listeners tasks nextTimer
       nextOid now fs trace emit with_queue with_sessions with_processTimer
       with_conns with_listeners with_tasks with_nextTimer with_nextOid
       with_now with_fs with_trace console_log console_error writeLog
       set_task filesToProcess i success failed at_] in H.

Lemma attempt_log_inert_all tid suf :
  Forall (λ e, inert (what e)) suf → attempt_log tid suf = [].
Proof.
  induction 1 as [|[t by_ e] suf He _ IH]; [done|].
  change (mkEntry t by_ e :: suf) with ([mkEntry t by_ e] ++ suf).
  by rewrite attempt_log_app, IH, attempt_log_inert by exact He.
Qed.

Lemma attempt_log_push tid t by_ it :
  attempt_log tid [mkEntry t by_ (Push it)] = [].
Proof. unfold attempt_log. cbn. by destruct by_. Qed.

Lemma pushed_inert_all suf :
  Forall (λ e, inert (what e)) suf → pushed suf = [].
Proof.
  induction 1 as [|[t by_ e] suf He _ IH]; [done|].
  change (mkEntry t by_ e :: suf) with ([mkEntry t by_ e] ++ suf).
  by rewrite pushed_app, IH, pushed_inert by exact He.
Qed.

Lemma elem_of_concat_lookup {A} (ls : list (list A)) k l x :
  ls !! k = Some l → x ∈ l → x ∈ concat ls.
Proof.
  revert k. induction ls as [|l0 ls IH]; intros [|k] Hk Hx; try done.
  - cbn in Hk. injection Hk as ->. cbn. apply elem_of_app. by left.
  - cbn. apply elem_of_app. right. by apply (IH k).
Qed.

Lemma NoDup_concat_lookup {A} (ls : list (list A)) a b la lb x :
  NoDup (concat ls) → ls !! a = Some la → ls !! b = Some lb →
  x ∈ la → x ∈ lb → a = b.
Proof.
  revert a b. induction ls as [|l0 ls IH]; intros a b Hnd Ha Hb Hxa Hxb.
  { done. }
  cbn in Hnd. apply NoDup_app in Hnd as (_ & Hdisj & Hnd).
  destruct a as [|a], b as [|b]; cbn in Ha, Hb.
  - done.
  - injection Ha as ->. destruct (Hdisj x Hxa).
    by apply (elem_of_concat_lookup ls b lb).
  - injection Hb as ->. destruct (Hdisj x Hxb).
    by apply (elem_of_concat_lookup ls a la).
  - f_equal. by apply IH.
Qed.

Lemma NoDup_concat_lookup_1 {A} (ls : list (list A)) a la :
  NoDup (concat ls) → ls !! a = Some la → NoDup la.
Proof.
  revert a. induction ls as [|l0 ls IH]; intros a Hnd Ha; [done|].
  cbn in Hnd. apply NoDup_app in Hnd as (Hl0 & _ & Hnd).
  destruct a as [|a]; cbn in Ha.
  - by injection Ha as ->.
  - by apply (IH a).
Qed.

Section facts.
Context (CONFIG : config) (userMappings : userMappings_t).
Context (basename : string → string).

Local Abbreviation handle := (handle CONFIG userMappings basename).
Local Abbreviation run := (run CONFIG userMappings basename).
Local Abbreviation reachable := (reachable CONFIG userMappings basename).

(** How many items a drain has handed to the upload function, and for how
    many of them the upload has settled. *)
Definition attempted (t : task) : nat :=
  match at_ t with
  | Returned => length (filesToProcess t)
  | _ => S (i t)
  end.

Definition settled (t : task) : nat :=
  match at_ t with
  | AwaitUpload => i t
  | AwaitDelay _ => S (i t)
  | Returned => length (filesToProcess t)
  end.

(** The batch summary that a drain prints when it returns. *)
Definition summary (t : task) : string :=
  "Batch complete: " +:+ pretty (success t) +:+ " success, " +:+
  pretty (failed t) +:+ " failed".

Record task_ok (w : world) (tid : nat) (t : task) : Prop := mkTaskOk {
  ok_attempts :
    attempts_of tid (trace w) = take (attempted t) (filesToProcess t);
  ok_bound : at_ t ≠ Returned → i t < length (filesToProcess t);
  ok_counts : success t + failed t = settled t;
  ok_paced : paced (UPLOAD_DELAY CONFIG) (dispatch_times tid (trace w));
  ok_last : ∀ x,
    last (dispatch_times tid (trace w)) = Some x →
    (x ≤ now w)%N ∧
    ∀ due, at_ t = AwaitDelay due → (x + UPLOAD_DELAY CONFIG ≤ due)%N;
  ok_report :
    at_ t = Returned →
    ∃ time, mkEntry time (Some tid) (Log Info (summary t)) ∈ trace w;
  ok_next : ∀ due, at_ t = AwaitDelay due → S (i t) < length (filesToProcess t)
}.

Record inv (w : world) : Prop := mkInv {
  inv_conserve :
    pushed (trace w) = concat (filesToProcess <$> tasks w) ++ uploadQueue w;
  inv_oids : oid <$> pushed (trace w) = seq 0 (nextOid w);
  inv_fresh : ∀ tid, length (tasks w) ≤ tid → attempt_log tid (trace w) = [];
  inv_tasks : ∀ tid t, tasks w !! tid = Some t → task_ok w tid t
}.

(** A step that touches neither the queue nor the drains and appends to
    the trace only entries that are inert. *)
Lemma inv_inert w w' suf :
  inv w →
  tasks w' = tasks w → uploadQueue w' = uploadQueue w →
  nextOid w' = nextOid w → (now w ≤ now w')%N →
  trace w' = trace w ++ suf → Forall (λ e, inert (what e)) suf →
  inv w'.
Proof.
  intros [Hc Ho Hf Ht] Etasks Equeue Eoid Hnow Etrace Hsuf.
  assert (∀ tid, attempt_log tid suf = []) as Hlog
    by (intros; by apply attempt_log_inert_all).
  assert (pushed suf = []) as Hpush by by apply pushed_inert_all.
  split.
  - by rewrite Etrace, pushed_app, Hpush, app_nil_r, Etasks, Equeue.
  - by rewrite Etrace, pushed_app, Hpush, app_nil_r, Eoid.
  - intros tid Htid. rewrite Etrace, attempt_log_app, Hlog, app_nil_r.
    apply Hf. by rewrite <-Etasks.
  - intros tid t Htid. rewrite Etasks in Htid.
    destruct (Ht tid t Htid) as [H1 H2 H3 H4 H5 H6 H7].
    assert (attempt_log tid (trace w') = attempt_log tid (trace w)) as El
      by (by rewrite Etrace, attempt_log_app, Hlog, app_nil_r).
    split; unfold attempts_of, dispatch_times in *; rewrite ?El; try done.
    + intros x Hx. destruct (H5 x Hx) as [Ha Hb]. split; [lia|done].
    + intros Hr. destruct (H6 Hr) as [time Hin]. exists time.
      rewrite Etrace. apply elem_of_app. by left.
Qed.

Lemma inv_emit by_ e w : inert e → inv w → inv (emit by_ e w).
Proof.
  intros He Hw. eapply (inv_inert w _ [mkEntry (now w) by_ e]); try done.
  by repeat constructor.
Qed.

Lemma inv_field w w' :
  inv w →
  tasks w' = tasks w → uploadQueue w' = uploadQueue w →
  nextOid w' = nextOid w → (now w ≤ now w')%N → trace w' = trace w →
  inv w'.
Proof.
  intros. eapply (inv_inert w w' []); try done. by rewrite app_nil_r.
Qed.


(** The invariant with the drain [tid] taken out: its slot holds a task
    over the snapshot [files], and nothing is said about where it is. *)
Record inv_but (tid : nat) (files : list item) (w : world) : Prop := mkInvBut {
  but_conserve :
    pushed (trace w) = concat (filesToProcess <$> tasks w) ++ uploadQueue w;
  but_oids : oid <$> pushed (trace w) = seq 0 (nextOid w);
  but_fresh : ∀ tid', length (tasks w) ≤ tid' → attempt_log tid' (trace w) = [];
  but_others : ∀ tid' t,
    tid' ≠ tid → tasks w !! tid' = Some t → task_ok w tid' t;
  but_slot : ∃ t, tasks w !! tid = Some t ∧ filesToProcess t = files
}.

Lemma inv_open w tid t :
  inv w → tasks w !! tid = Some t → inv_but tid (filesToProcess t) w.
Proof.
  intros [Hc Ho Hf Ht] Htid. split; try done.
  - intros tid' t' _ H. by apply Ht.
  - by exists t.
Qed.

Lemma inv_close w tid t :
  inv_but tid (filesToProcess t) w → tasks w !! tid = Some t →
  task_ok w tid t → inv w.
Proof.
  intros [Hc Ho Hf Ht Hs] Htid Hok. split; try done.
  intros tid' t' H. destruct (decide (tid' = tid)) as [->|Hne].
  - rewrite Htid in H. by injection H as <-.
  - by apply Ht.
Qed.

Lemma task_ok_frame w w' tid t suf :
  task_ok w tid t →
  trace w' = trace w ++ suf → attempt_log tid suf = [] →
  (now w ≤ now w')%N →
  task_ok w' tid t.
Proof.
  intros [H1 H2 H3 H4 H5 H6 H7] Etrace Hlog Hnow.
  assert (attempt_log tid (trace w') = attempt_log tid (trace w)) as El
    by (by rewrite Etrace, attempt_log_app, Hlog, app_nil_r).
  split; unfold attempts_of, dispatch_times in *; rewrite ?El; try done.
  - intros x Hx. destruct (H5 x Hx) as [Ha Hb]. split; [lia|done].
  - intros Hr. destruct (H6 Hr) as [time Hin]. exists time.
    rewrite Etrace. apply elem_of_app. by left.
Qed.

(** The drain [tid] does something that is not a push. *)
Lemma inv_but_emit tid files e w :
  (∀ it, e ≠ Push it) →
  inv_but tid files w → inv_but tid files (emit (Some tid) e w).
Proof.
  intros He [Hc Ho Hf Ht Hs].
  assert (pushed [mkEntry (now w) (Some tid) e] = []) as Hp.
  { destruct e; try done. by destruct (He it). }
  destruct Hs as (t0 & Hs & Hfiles).
  split; fsimpl.
  - by rewrite pushed_app, Hp, app_nil_r.
  - by rewrite pushed_app, Hp, app_nil_r.
  - intros tid' Htid'. rewrite attempt_log_app, Hf by done.
    apply attempt_log_other. apply lookup_lt_Some in Hs. lia.
  - intros tid' t Hne Htid'.
    eapply (task_ok_frame w _ tid' t [mkEntry (now w) (Some tid) e]);
      [by apply Ht|done| |done].
    by apply attempt_log_other.
  - by exists t0.
Qed.

Lemma inv_but_field tid files w w' :
  inv_but tid files w →
  tasks w' = tasks w → uploadQueue w' = uploadQueue w →
  nextOid w' = nextOid w → now w' = now w → trace w' = trace w →
  inv_but tid files w'.
Proof.
  intros [Hc Ho Hf Ht Hs] Etasks Equeue Eoid Enow Etrace.
  split; rewrite ?Etasks, ?Equeue, ?Eoid, ?Etrace; try done.
  intros tid' t Hne Htid'.
  eapply (task_ok_frame w w' tid' t []); [by apply Ht| | |lia]; try done.
  by rewrite app_nil_r.
Qed.

Lemma inv_but_nextTimer tid files n w :
  inv_but tid files w → inv_but tid files (with_nextTimer n w).
Proof. intros H. by eapply (inv_but_field _ _ w). Qed.

Lemma inv_but_fs tid files f w :
  inv_but tid files w → inv_but tid files (with_fs f w).
Proof. intros H. by eapply (inv_but_field _ _ w). Qed.

Lemma concat_files_insert (ts : list task) tid t t0 :
  ts !! tid = Some t0 → filesToProcess t0 = filesToProcess t →
  concat (filesToProcess <$> <[tid := t]> ts) = concat (filesToProcess <$> ts).
Proof.
  intros Htid Hfiles. rewrite list_fmap_insert. f_equal.
  apply list_insert_id. by rewrite list_lookup_fmap, Htid, <-Hfiles.
Qed.

Lemma inv_but_set_task tid t w :
  inv_but tid (filesToProcess t) w →
  inv_but tid (filesToProcess t) (set_task tid t w).
Proof.
  intros [Hc Ho Hf Ht (t0 & Hs & Hfiles)]. split; fsimpl.
  - by rewrite (concat_files_insert _ _ _ t0).
  - done.
  - intros tid' Htid'. apply Hf. by rewrite length_insert in Htid'.
  - intros tid' t' Hne Htid'. rewrite list_lookup_insert_ne in Htid' by done.
    eapply (task_ok_frame w _ tid' t' []); [by apply Ht| | |done]; try done.
    by rewrite app_nil_r.
  - exists t. split; [|done]. apply list_lookup_insert_eq.
    by apply lookup_lt_Some in Hs.
Qed.


(** What the trace says of the drain [tid] over the snapshot [files] when
    it has handed the first [a] items to the upload function. *)
Record local_ok (w : world) (tid : nat) (files : list item) (a : nat)
    : Prop := mkLocalOk {
  lo_attempts : attempts_of tid (trace w) = take a files;
  lo_paced : paced (UPLOAD_DELAY CONFIG) (dispatch_times tid (trace w));
  lo_last : ∀ x,
    last (dispatch_times tid (trace w)) = Some x → (x ≤ now w)%N
}.

Lemma local_ok_frame w w' tid files a suf :
  local_ok w tid files a →
  trace w' = trace w ++ suf → attempt_log tid suf = [] →
  (now w ≤ now w')%N →
  local_ok w' tid files a.
Proof.
  intros [H1 H2 H3] Etrace Hlog Hnow.
  assert (attempt_log tid (trace w') = attempt_log tid (trace w)) as El
    by (by rewrite Etrace, attempt_log_app, Hlog, app_nil_r).
  split; unfold attempts_of, dispatch_times in *; rewrite ?El; try done.
  intros x Hx. specialize (H3 x Hx). lia.
Qed.

Lemma local_ok_emit w tid files a by_ e :
  inert e → local_ok w tid files a → local_ok (emit by_ e w) tid files a.
Proof.
  intros He H.
  eapply (local_ok_frame w _ tid files a [mkEntry (now w) by_ e]);
    [done|done| |done].
  by apply attempt_log_inert.
Qed.

Lemma local_ok_field w w' tid files a :
  local_ok w tid files a → trace w' = trace w → now w' = now w →
  local_ok w' tid files a.
Proof.
  intros H Etrace Enow.
  eapply (local_ok_frame w w' tid files a []); [done| |done|lia].
  by rewrite app_nil_r.
Qed.

Lemma local_ok_fs w tid files a f :
  local_ok w tid files a → local_ok (with_fs f w) tid files a.
Proof. intros H. by eapply (local_ok_field w). Qed.

Lemma task_ok_local w tid t :
  task_ok w tid t → local_ok w tid (filesToProcess t) (attempted t).
Proof.
  intros [H1 H2 H3 H4 H5 H6]. split; try done.
  intros x Hx. by apply H5.
Qed.

(** The drain [tid] reaches the loop test with local variables [t], after
    [i t] items, the pacing delay over if an item is left. *)
Lemma loop_head_inv w tid t :
  inv_but tid (filesToProcess t) w →
  local_ok w tid (filesToProcess t) (i t) →
  i t ≤ length (filesToProcess t) →
  success t + failed t = i t →
  (i t < length (filesToProcess t) →
   ∀ x, last (dispatch_times tid (trace w)) = Some x →
        (x + UPLOAD_DELAY CONFIG ≤ now w)%N) →
  inv (loop_head CONFIG basename tid t w).
Proof.
  intros Hbut [Ha Hp Hl] Hbound Hcount Hdelay. unfold loop_head.
  destruct (filesToProcess t !! i t) as [item|] eqn:Eitem.
  - apply lookup_lt_Some in Eitem as Hlt.
    set (t' := mkTask (filesToProcess t) (i t) (success t) (failed t)
                 AwaitUpload).
    apply (inv_close _ tid t').
    + apply (inv_but_set_task tid t'). unfold uploadToEgnyte.
      do 3 (apply inv_but_emit; [done|]). done.
    + fsimpl. apply list_lookup_insert_eq.
      destruct Hbut as [_ _ _ _ (t0 & Hs & _)]. by apply lookup_lt_Some in Hs.
    + unfold uploadToEgnyte, attempts_of, dispatch_times in *.
      subst t'.
      split; unfold attempts_of, dispatch_times, attempted, settled; fsimpl.
      * rewrite !attempt_log_app, attempt_log_attempt.
        rewrite !attempt_log_inert, !app_nil_r by done.
        rewrite fmap_app, Ha. cbn. by rewrite (take_S_r _ _ item).
      * done.
      * done.
      * rewrite !attempt_log_app, attempt_log_attempt.
        rewrite !attempt_log_inert, !app_nil_r by done.
        rewrite fmap_app. cbn. apply paced_snoc. split; [done|].
        intros x Hx. by apply Hdelay.
      * rewrite !attempt_log_app, attempt_log_attempt.
        rewrite !attempt_log_inert, !app_nil_r by done.
        rewrite fmap_app. cbn. rewrite last_snoc. intros x [= <-].
        split; [lia|done].
      * done.
      * done.
  - apply lookup_ge_None in Eitem.
    assert (i t = length (filesToProcess t)) as Ei by lia.
    unfold finish.
    set (t' := mkTask (filesToProcess t) (i t) (success t) (failed t)
                 Returned).
    apply (inv_close _ tid t').
    + apply (inv_but_set_task tid t').
      do 2 (apply inv_but_emit; [done|]). done.
    + fsimpl. apply list_lookup_insert_eq.
      destruct Hbut as [_ _ _ _ (t0 & Hs & _)]. by apply lookup_lt_Some in Hs.
    + unfold attempts_of, dispatch_times in *.
      subst t'.
      split; unfold attempts_of, dispatch_times, attempted, settled; fsimpl.
      * rewrite !attempt_log_app.
        rewrite !attempt_log_inert, !app_nil_r by done. by rewrite Ha, Ei.
      * done.
      * lia.
      * rewrite !attempt_log_app.
        by rewrite !attempt_log_inert, !app_nil_r by done.
      * rewrite !attempt_log_app.
        rewrite !attempt_log_inert, !app_nil_r by done.
        intros x Hx. split; [by apply Hl | done].
      * intros _. exists (now w). unfold summary. fsimpl.
        rewrite !elem_of_app, !list_elem_of_singleton. left. by right.
      * done.
Qed.


(** The drain [tid] is past the [try]/[catch] of the item at [i t]. *)
Lemma pace_inv w tid t :
  inv_but tid (filesToProcess t) w →
  local_ok w tid (filesToProcess t) (S (i t)) →
  i t < length (filesToProcess t) →
  success t + failed t = S (i t) →
  inv (pace CONFIG basename tid t w).
Proof.
  intros Hbut Hlocal Hbound Hcount. unfold pace.
  destruct (decide (i t + 1 < length (filesToProcess t))) as [Hmore|Hlast].
  - set (t' := mkTask (filesToProcess t) (i t) (success t) (failed t)
                 (AwaitDelay (now w + UPLOAD_DELAY CONFIG)%N)).
    apply (inv_close _ tid t').
    + apply (inv_but_set_task tid t').
      apply inv_but_nextTimer.
      do 2 (apply inv_but_emit; [done|]). done.
    + fsimpl. apply list_lookup_insert_eq.
      destruct Hbut as [_ _ _ _ (t0 & Hs & _)]. by apply lookup_lt_Some in Hs.
    + destruct Hlocal as [Ha Hp Hl]. subst t'.
      unfold attempts_of, dispatch_times in *.
      split; unfold attempts_of, dispatch_times, attempted, settled; fsimpl.
      * rewrite !attempt_log_app.
        by rewrite !attempt_log_inert, !app_nil_r by done.
      * done.
      * done.
      * rewrite !attempt_log_app.
        by rewrite !attempt_log_inert, !app_nil_r by done.
      * rewrite !attempt_log_app.
        rewrite !attempt_log_inert, !app_nil_r by done.
        intros x Hx. specialize (Hl x Hx). split; [done|].
        intros due [= <-]. lia.
      * done.
      * intros due _. lia.
  - apply loop_head_inv; fsimpl; try done; lia.
Qed.

(** The awaited upload of the item at [i t] has settled. *)
Lemma body_rest_inv w tid t item o :
  inv_but tid (filesToProcess t) w →
  local_ok w tid (filesToProcess t) (S (i t)) →
  i t < length (filesToProcess t) →
  success t + failed t = i t →
  inv (body_rest CONFIG basename tid t item o w).
Proof.
  intros Hbut Hlocal Hbound Hcount. unfold body_rest.
  destruct o as [error|]; [|destruct (unlinkSync _ _) as [fs'|]].
  - apply pace_inv; fsimpl; [|..|done|lia].
    + do 2 (apply inv_but_emit; [done|]). done.
    + do 2 (apply local_ok_emit; [done|]). done.
  - apply pace_inv; fsimpl; [|..|done|lia].
    + do 3 (apply inv_but_emit; [done|]). by apply inv_but_fs.
    + do 3 (apply local_ok_emit; [done|]). by apply local_ok_fs.
  - apply pace_inv; fsimpl; [|..|done|lia].
    + do 3 (apply inv_but_emit; [done|]). done.
    + do 3 (apply local_ok_emit; [done|]). done.
Qed.

Lemma upload_settled_inv w tid o :
  inv w → inv (upload_settled CONFIG basename tid o w).
Proof.
  intros Hw. unfold upload_settled.
  destruct (tasks w !! tid) as [t|] eqn:Etid; [|done].
  destruct (at_ t) eqn:Eat; try done.
  destruct (filesToProcess t !! i t) as [item|] eqn:Eitem; [|done].
  pose proof (inv_tasks w Hw tid t Etid) as Hok.
  apply body_rest_inv.
  - by apply inv_open.
  - apply task_ok_local in Hok. unfold attempted in Hok. by rewrite Eat in Hok.
  - by apply lookup_lt_Some in Eitem.
  - destruct Hok as [_ _ H _ _ _ _]. unfold settled in H. by rewrite Eat in H.
Qed.

Lemma elapsed_inv w tid : inv w → inv (elapsed CONFIG basename tid w).
Proof.
  intros Hw. unfold elapsed.
  destruct (tasks w !! tid) as [t|] eqn:Etid; [|done].
  destruct (at_ t) as [|due|] eqn:Eat; try done.
  destruct (decide (due ≤ now w)%N) as [Hdue|]; [|done].
  pose proof (inv_tasks w Hw tid t Etid) as Hok.
  pose proof (task_ok_local _ _ _ Hok) as Hlocal.
  destruct Hok as [_ H2 H3 _ H5 _ _].
  unfold attempted in Hlocal. unfold settled in H3. rewrite Eat in *.
  apply loop_head_inv; fsimpl.
  - by apply inv_open.
  - done.
  - specialize (H2 ltac:(done)). lia.
  - lia.
  - intros _ x Hx. destruct (H5 x Hx) as [_ H]. specialize (H due eq_refl).
    lia.
Qed.


(** A call of [processUploadQueue] starts a drain over the whole queue and
    leaves the queue empty. *)
Lemma processUploadQueue_inv w :
  inv w → inv (processUploadQueue CONFIG basename w).
Proof.
  intros Hw. unfold processUploadQueue.
  destruct (uploadQueue w) as [|it q] eqn:Eq.
  { by apply inv_emit. }
  cbv zeta. fsimpl. rewrite ?Eq.
  set (tid := length (tasks w)).
  set (t := mkTask (it :: q) 0 0 0 AwaitUpload).
  match goal with
  | |- inv (loop_head _ _ _ _ ?w2) => set (w' := w2)
  end.
  assert (inv (console_log (Some tid)
                 ("Processing " +:+ pretty (length (it :: q)) +:+
                  " files for Egnyte...") w)) as [Hc Ho Hf Ht]
    by (by apply inv_emit).
  apply loop_head_inv; fsimpl.
  - split; subst w'; fsimpl.
    + fsimpl in Hc. rewrite Hc, Eq, fmap_app, concat_app. cbn.
      by rewrite !app_nil_r.
    + done.
    + intros tid' Htid'. apply Hf. fsimpl. rewrite length_app in Htid'. lia.
    + intros tid' t' Hne Htid'.
      assert (tasks w !! tid' = Some t') as H.
      { apply lookup_app_Some in Htid' as [H|[Hge H]]; [done|].
        apply list_lookup_singleton_Some in H as [H _]. subst tid. lia. }
      eapply (task_ok_frame _ _ tid' t' []); [by apply Ht| | |done].
      * fsimpl. by rewrite app_nil_r.
      * done.
    + exists t. split; [|done]. subst tid.
      by rewrite lookup_app_r, Nat.sub_diag by done.
  - assert (attempt_log tid (trace w') = []) as El.
    { subst w'. fsimpl. apply Hf. fsimpl. subst tid. lia. }
    split; unfold attempts_of, dispatch_times; rewrite El; done.
  - subst t. cbn. lia.
  - done.
  - intros _ x. unfold dispatch_times.
    assert (attempt_log tid (trace w') = []) as ->; [|done].
    subst w'. fsimpl. apply Hf. fsimpl. subst tid. lia.
Qed.

Lemma startProcessTimer_inv w : inv w → inv (startProcessTimer w).
Proof.
  intros Hw. unfold startProcessTimer. apply inv_emit; [done|].
  eapply (inv_field (emit None _ _)); [|done..].
  apply inv_emit; [done|]. destruct (processTimer w) as [[id due]|]; [|done].
  by apply inv_emit.
Qed.

Lemma processTimer_fires_inv w :
  inv w → inv (processTimer_fires CONFIG basename w).
Proof.
  intros Hw. unfold processTimer_fires.
  destruct (processTimer w) as [[id due]|]; [|done].
  destruct (decide _); [|done].
  eapply (inv_field (processUploadQueue _ _ _)); [|done..].
  apply processUploadQueue_inv. do 2 (apply inv_emit; [done|]). done.
Qed.

Lemma login_inv c username password w :
  inv w → inv (login CONFIG userMappings c username password w).
Proof.
  intros Hw. unfold login. destruct (conns w !! c) as [ip|]; [|done].
  destruct (userMappings_get userMappings username) as [userInfo| |].
  - destruct (decide _).
    + eapply (inv_field (emit None _ _)); [|done..].
      apply inv_emit; [done|].
      eapply (inv_field (writeLog _ _ _ _ _ _)); [|done..].
      do 3 (apply inv_emit; [done|]). done.
    + do 3 (apply inv_emit; [done|]). done.
  - do 3 (apply inv_emit; [done|]). done.
  - do 3 (apply inv_emit; [done|]). done.
Qed.

(** The STOR listener pushes one new item at the end of the queue. *)
Lemma on_STOR_inv c error filePath w :
  inv w → inv (on_STOR basename c error filePath w).
Proof.
  intros Hw. unfold on_STOR. destruct error as [e|]; [by apply inv_emit|].
  destruct (userSessions w !! c) as [session|]; [|done].
  destruct (statSync _ _) as [size|]; fsimpl.
  2:{ do 2 (apply inv_emit; [done|]). done. }
  apply startProcessTimer_inv. apply inv_emit; [done|].
  match goal with
  | |- inv (emit None (Push ?it) (with_nextOid _ (with_queue _ ?w0))) =>
      assert (inv w0) as [Hc Ho Hf Ht] by
        (do 2 (apply inv_emit; [done|]); done);
      set (item := it)
  end.
  split; fsimpl.
  - fsimpl in Hc. by rewrite pushed_app, Hc, <-app_assoc.
  - fsimpl in Ho. rewrite pushed_app, fmap_app, Ho, seq_S. done.
  - intros tid Htid. rewrite attempt_log_app, attempt_log_push, app_nil_r.
    by apply Hf.
  - intros tid t Htid.
    eapply (task_ok_frame _ _ tid t [_]);
      [by apply Ht|done|apply attempt_log_push|done].
Qed.

Lemma on_close_inv c w : inv w → inv (on_close c w).
Proof.
  intros Hw. unfold on_close. destruct (userSessions w !! c); [|done].
  eapply (inv_field (writeLog _ _ _ _ _ _)); [|done..].
  do 2 (apply inv_emit; [done|]). done.
Qed.

Lemma on_end_inv c w : inv w → inv (on_end c w).
Proof.
  intros Hw. unfold on_end. destruct (userSessions w !! c); [|done].
  eapply (inv_field (console_log _ _ _)); [|done..].
  by apply inv_emit.
Qed.

Lemma dispatch_inv c f w :
  (∀ w, inv w → inv (f w)) → inv w → inv (dispatch c f w).
Proof.
  intros Hf. unfold dispatch. generalize (filter (λ c', c' = c) (listeners w)).
  intros l. revert w. induction l as [|x l IH]; intros w Hw; [done|].
  cbn [fold_left]. by apply IH, Hf.
Qed.

Lemma handle_inv w e : inv w → inv (handle w e).
Proof.
  intros Hw. destruct e; cbn [Fixed.handle].
  - by eapply (inv_field w).
  - by apply login_inv.
  - apply dispatch_inv; [|done]. intros. by apply on_STOR_inv.
  - apply dispatch_inv; [|done]. intros. by apply on_close_inv.
  - apply dispatch_inv; [|done]. intros. by apply on_end_inv.
  - by apply processTimer_fires_inv.
  - by apply upload_settled_inv.
  - by apply elapsed_inv.
  - eapply (inv_field w); try done. fsimpl. lia.
  - by eapply (inv_field w).
  - by eapply (inv_field w).
Qed.

Lemma init_inv : inv init.
Proof.
  split; try done; intros tid t H; by rewrite lookup_nil in H.
Qed.

Lemma run_step w es e : run w (es ++ [e]) = handle (run w es) e.
Proof. unfold Fixed.run. by rewrite fold_left_app. Qed.

Lemma reachable_inv w : reachable w → inv w.
Proof.
  intros [es ->]. induction es as [|e es IH] using rev_ind.
  - apply init_inv.
  - rewrite run_step. by apply handle_inv.
Qed.


(** ** What a drain does with one item *)

(** Where the drain is after the [try]/[catch] of the item at [i t]. *)
Lemma pace_task w tid t :
  tid < length (tasks w) →
  ∃ t', tasks (pace CONFIG basename tid t w) !! tid = Some t' ∧
    filesToProcess t' = filesToProcess t ∧
    success t' = success t ∧ failed t' = failed t ∧
    fs (pace CONFIG basename tid t w) = fs w ∧
    at_ t' = match filesToProcess t !! S (i t) with
             | Some _ => AwaitDelay (now w + UPLOAD_DELAY CONFIG)
             | None => Returned
             end.
Proof.
  intros Hlt. unfold pace.
  destruct (decide (i t + 1 < length (filesToProcess t))) as [Hmore|Hlast].
  - destruct (lookup_lt_is_Some_2 (filesToProcess t) (S (i t))) as [next ->];
      [lia|].
    eexists. split; [fsimpl; by apply list_lookup_insert_eq|done].
  - unfold loop_head. fsimpl.
    rewrite (lookup_ge_None_2 (filesToProcess t) (S (i t))) by lia.
    unfold finish. fsimpl.
    eexists. split; [by apply list_lookup_insert_eq|done].
Qed.

Lemma upload_settled_task w tid t item o :
  tasks w !! tid = Some t → at_ t = AwaitUpload →
  filesToProcess t !! i t = Some item →
  ∃ t', tasks (handle w (UploadSettled tid o)) !! tid = Some t' ∧
    filesToProcess t' = filesToProcess t ∧
    match o with
    | Some error =>
        fs (handle w (UploadSettled tid o)) = fs w ∧
        success t' = success t ∧ failed t' = S (failed t)
    | None =>
        fs (handle w (UploadSettled tid o)) = delete (localPath item) (fs w) ∧
        success t' + failed t' = S (success t + failed t) ∧
        (is_Some (fs w !! localPath item) → success t' = S (success t))
    end ∧
    at_ t' = match filesToProcess t !! S (i t) with
             | Some _ => AwaitDelay (now w + UPLOAD_DELAY CONFIG)
             | None => Returned
             end.
Proof.
  intros Etid Eat Eitem. apply lookup_lt_Some in Etid as Hlt.
  cbn [Fixed.handle]. unfold upload_settled. rewrite Etid, Eat, Eitem.
  unfold body_rest, unlinkSync.
  destruct o as [error|]; [|destruct (fs w !! localPath item) eqn:Efile].
  - match goal with
    | |- context [pace _ _ tid ?t1 ?w1] =>
        destruct (pace_task w1 tid t1 Hlt) as (t' & H1 & H2 & H3 & H4 & H5 & H6)
    end.
    exists t'. by rewrite H1, H5.
  - match goal with
    | |- context [pace _ _ tid ?t1 ?w1] =>
        destruct (pace_task w1 tid t1 Hlt) as (t' & H1 & H2 & H3 & H4 & H5 & H6)
    end.
    exists t'. rewrite H1, H5. fsimpl in H3. fsimpl in H4.
    repeat split; try done. lia.
  - match goal with
    | |- context [pace _ _ tid ?t1 ?w1] =>
        destruct (pace_task w1 tid t1 Hlt) as (t' & H1 & H2 & H3 & H4 & H5 & H6)
    end.
    exists t'. rewrite H1, H5. fsimpl in H3. fsimpl in H4.
    repeat split; try done.
    + fsimpl. symmetry. by apply delete_id.
    + lia.
Qed.

Lemma elapsed_attempts w tid t due next :
  tasks w !! tid = Some t → at_ t = AwaitDelay due → (due ≤ now w)%N →
  filesToProcess t !! S (i t) = Some next →
  attempts_of tid (trace (handle w (Elapsed tid))) =
    attempts_of tid (trace w) ++ [next].
Proof.
  intros Etid Eat Hdue Enext. cbn [Fixed.handle]. unfold elapsed.
  rewrite Etid, Eat, decide_True by done. unfold loop_head. fsimpl.
  rewrite Enext. unfold uploadToEgnyte, attempts_of. fsimpl.
  rewrite !attempt_log_app, attempt_log_attempt.
  rewrite !attempt_log_inert, !app_nil_r by done.
  by rewrite fmap_app.
Qed.


(** ** The trace only grows *)

Ltac pfx := fsimpl; repeat apply prefix_app_r; try done.

Lemma loop_head_prefix tr tid t w :
  tr `prefix_of` trace w →
  tr `prefix_of` trace (loop_head CONFIG basename tid t w).
Proof.
  intros H. unfold loop_head, uploadToEgnyte, finish.
  destruct (filesToProcess t !! i t); pfx.
Qed.

Lemma pace_prefix tr tid t w :
  tr `prefix_of` trace w → tr `prefix_of` trace (pace CONFIG basename tid t w).
Proof.
  intros H. unfold pace. destruct (decide _); [pfx|].
  by apply loop_head_prefix.
Qed.

Lemma body_rest_prefix tr tid t item o w :
  tr `prefix_of` trace w →
  tr `prefix_of` trace (body_rest CONFIG basename tid t item o w).
Proof.
  intros H. unfold body_rest.
  destruct o; [|destruct (unlinkSync _ _)]; apply pace_prefix; pfx.
Qed.

Lemma processUploadQueue_prefix tr w :
  tr `prefix_of` trace w →
  tr `prefix_of` trace (processUploadQueue CONFIG basename w).
Proof.
  intros H. unfold processUploadQueue. destruct (uploadQueue w); [pfx|].
  apply loop_head_prefix. pfx.
Qed.

Lemma startProcessTimer_prefix tr w :
  tr `prefix_of` trace w → tr `prefix_of` trace (startProcessTimer w).
Proof.
  intros H. unfold startProcessTimer.
  destruct (processTimer w) as [[id due]|]; pfx.
Qed.

Lemma dispatch_prefix tr c f w :
  (∀ w, tr `prefix_of` trace w → tr `prefix_of` trace (f w)) →
  tr `prefix_of` trace w → tr `prefix_of` trace (dispatch c f w).
Proof.
  intros Hf. unfold dispatch. generalize (filter (λ c', c' = c) (listeners w)).
  intros l. revert w. induction l as [|x l IH]; intros w Hw; [done|].
  cbn [fold_left]. by apply IH, Hf.
Qed.

Lemma handle_prefix tr w e :
  tr `prefix_of` trace w → tr `prefix_of` trace (handle w e).
Proof.
  intros H.
  destruct e as [ip|c user pass|c error filePath|c|c| |tid o|tid|d|p size|p];
    cbn [Fixed.handle].
  - done.
  - unfold login. destruct (conns w !! c); [|done].
    destruct (userMappings_get userMappings user);
      [destruct (decide _)| |]; pfx.
  - apply dispatch_prefix; [|done]. clear w H. intros w H. unfold on_STOR.
    destruct error; [pfx|]. destruct (userSessions w !! c); [|done].
    destruct (statSync _ _); fsimpl; [|pfx].
    apply startProcessTimer_prefix. pfx.
  - apply dispatch_prefix; [|done]. clear w H. intros w H. unfold on_close.
    destruct (userSessions w !! c); pfx.
  - apply dispatch_prefix; [|done]. clear w H. intros w H. unfold on_end.
    destruct (userSessions w !! c); pfx.
  - unfold processTimer_fires. destruct (processTimer w) as [[id due]|]; [|done].
    destruct (decide _); [|done]. fsimpl.
    apply processUploadQueue_prefix. pfx.
  - unfold upload_settled. destruct (tasks w !! tid) as [t|]; [|done].
    destruct (at_ t); try done. destruct (filesToProcess t !! i t); [|done].
    by apply body_rest_prefix.
  - unfold elapsed. destruct (tasks w !! tid) as [t|]; [|done].
    destruct (at_ t); try done. destruct (decide _); [|done].
    by apply loop_head_prefix.
  - done.
  - done.
  - done.
Qed.

Lemma run_prefix w es : trace w `prefix_of` trace (run w es).
Proof.
  induction es as [|e es IH] using rev_ind; [done|].
  rewrite run_step. by apply handle_prefix.
Qed.

Lemma reachable_run w es : reachable w → reachable (run w es).
Proof.
  intros [es0 ->]. exists (es0 ++ es). unfold Fixed.run.
  by rewrite fold_left_app.
Qed.

Lemma attempts_of_run w es tid it :
  it ∈ attempts_of tid (trace w) → it ∈ attempts_of tid (trace (run w es)).
Proof.
  intros Hit. destruct (run_prefix w es) as [suf ->].
  unfold attempts_of. rewrite attempt_log_app, fmap_app, elem_of_app.
  by left.
Qed.

(** ** No item twice *)

Lemma pushed_NoDup w : inv w → NoDup (pushed (trace w)).
Proof.
  intros Hw. apply (NoDup_fmap_1 oid). rewrite (inv_oids w Hw).
  apply NoDup_seq.
Qed.

Lemma attempted_in_snapshot w tid it :
  inv w → it ∈ attempts_of tid (trace w) →
  ∃ t, tasks w !! tid = Some t ∧ it ∈ filesToProcess t.
Proof.
  intros Hw Hit. destruct (tasks w !! tid) as [t|] eqn:Etid.
  - exists t. split; [done|]. destruct (inv_tasks w Hw tid t Etid) as [Ha _].
    rewrite Ha in Hit. apply elem_of_take in Hit as (k & Hk & _).
    by apply list_elem_of_lookup_2 in Hk.
  - apply lookup_ge_None in Etid. unfold attempts_of in Hit.
    rewrite (inv_fresh w Hw tid Etid) in Hit. by apply elem_of_nil in Hit.
Qed.

Lemma attempted_once w tid it :
  inv w → it ∈ attempts_of tid (trace w) →
  (it ∉ uploadQueue w) ∧
  (∀ tid', tid' ≠ tid → it ∉ attempts_of tid' (trace w)) ∧
  NoDup (attempts_of tid (trace w)).
Proof.
  intros Hw Hit. pose proof (pushed_NoDup w Hw) as Hnd.
  rewrite (inv_conserve w Hw) in Hnd.
  apply NoDup_app in Hnd as (Hnd & Hdisj & _).
  destruct (attempted_in_snapshot w tid it Hw Hit) as (t & Etid & Hin).
  assert ((filesToProcess <$> tasks w) !! tid = Some (filesToProcess t)) as El
    by (by rewrite list_lookup_fmap, Etid).
  split; [|split].
  - apply Hdisj. by apply (elem_of_concat_lookup _ tid (filesToProcess t)).
  - intros tid' Hne Hit'.
    destruct (attempted_in_snapshot w tid' it Hw Hit') as (t' & Etid' & Hin').
    destruct Hne.
    apply (NoDup_concat_lookup (filesToProcess <$> tasks w) tid' tid
             (filesToProcess t') (filesToProcess t) it); try done.
    by rewrite list_lookup_fmap, Etid'.
  - rewrite (ok_attempts w tid t (inv_tasks w Hw tid t Etid)).
    eapply sublist_NoDup; [|apply sublist_take].
    by apply (NoDup_concat_lookup_1 (filesToProcess <$> tasks w) tid).
Qed.


(** ** The drain, item by item *)

(** C4. In the gateway with snapshot-and-clear, for a drain [tid] of a
    reachable state: while it awaits the upload of an item, a failed upload
    leaves the file system as it is and counts one failure, a successful one
    removes the local file and counts one more item, and in both cases the
    drain goes on: it waits for the pacing delay if an item is left and
    returns otherwise; when the delay is over the next item of the batch is
    attempted; a drain that has returned has attempted every item of its
    batch in order and has printed the summary with its two counts, which
    add up to the size of the batch. *)
Theorem failed_upload_keeps_file_and_drain_goes_on w tid t :
  reachable w → tasks w !! tid = Some t →
  (at_ t = AwaitUpload →
   ∃ item, filesToProcess t !! i t = Some item ∧
     ∀ o, ∃ t',
       tasks (handle w (UploadSettled tid o)) !! tid = Some t' ∧
       filesToProcess t' = filesToProcess t ∧
       match o with
       | Some error =>
           fs (handle w (UploadSettled tid o)) = fs w ∧
           success t' = success t ∧ failed t' = S (failed t)
       | None =>
           fs (handle w (UploadSettled tid o)) =
             delete (localPath item) (fs w) ∧
           success t' + failed t' = S (success t + failed t) ∧
           (is_Some (fs w !! localPath item) → success t' = S (success t))
       end ∧
       at_ t' = match filesToProcess t !! S (i t) with
                | Some _ => AwaitDelay (now w + UPLOAD_DELAY CONFIG)
                | None => Returned
                end) ∧
  (∀ due, at_ t = AwaitDelay due → (due ≤ now w)%N →
   ∃ next, filesToProcess t !! S (i t) = Some next ∧
     attempts_of tid (trace (handle w (Elapsed tid))) =
       attempts_of tid (trace w) ++ [next]) ∧
  (at_ t = Returned →
   attempts_of tid (trace w) = filesToProcess t ∧
   success t + failed t = length (filesToProcess t) ∧
   ∃ time, mkEntry time (Some tid) (Log Info (summary t)) ∈ trace w).
Proof.
  intros Hr Etid. pose proof (reachable_inv w Hr) as Hw.
  destruct (inv_tasks w Hw tid t Etid) as [Ha Hb Hc _ _ Hrep Hnext].
  split; [|split].
  - intros Eat.
    destruct (lookup_lt_is_Some_2 (filesToProcess t) (i t)) as [item Eitem].
    { apply Hb. by rewrite Eat. }
    exists item. split; [done|]. intros o.
    by apply upload_settled_task.
  - intros due Eat Hdue.
    destruct (lookup_lt_is_Some_2 (filesToProcess t) (S (i t)))
      as [next Enext]; [by apply (Hnext due)|].
    exists next. split; [done|]. by apply (elapsed_attempts w tid t due).
  - intros Eat. unfold attempted in Ha. unfold settled in Hc.
    rewrite Eat in Ha, Hc. rewrite firstn_all in Ha. auto.
Qed.

(** In every reachable state an item that a drain has been given to upload
    is no longer in the queue, whatever became of the upload, and stays out
    of it: no later event puts it back, no other drain attempts it, and its
    own drain attempts it once. *)
Lemma attempted_item_stays_out w tid it es :
  reachable w → it ∈ attempts_of tid (trace w) →
  (it ∉ uploadQueue (run w es)) ∧
  (∀ tid', tid' ≠ tid → it ∉ attempts_of tid' (trace (run w es))) ∧
  NoDup (attempts_of tid (trace (run w es))).
Proof.
  intros Hr Hit. apply attempted_once.
  - by apply reachable_inv, reachable_run.
  - by apply attempts_of_run.
Qed.

(** A call of [processUploadQueue] on a non-empty queue takes the whole
    queue as the batch of a new drain and leaves the queue empty; at any
    time every item pushed so far is in the batch of exactly one drain or
    in the queue, and a drain has attempted a prefix of its own batch, all
    of it once it has returned. *)
Theorem drain_works_on_its_snapshot w :
  reachable w →
  (∀ it q, uploadQueue w = it :: q →
     uploadQueue (processUploadQueue CONFIG basename w) = [] ∧
     ∃ t, tasks (processUploadQueue CONFIG basename w) !! length (tasks w)
            = Some t ∧
          filesToProcess t = it :: q) ∧
  pushed (trace w) = concat (filesToProcess <$> tasks w) ++ uploadQueue w ∧
  NoDup (pushed (trace w)) ∧
  (∀ tid t, tasks w !! tid = Some t →
     attempts_of tid (trace w) = take (attempted t) (filesToProcess t) ∧
     (at_ t = Returned → attempts_of tid (trace w) = filesToProcess t)) ∧
  (∀ tid, length (tasks w) ≤ tid → attempts_of tid (trace w) = []).
Proof.
  intros Hr. pose proof (reachable_inv w Hr) as Hw.
  split; [|split; [|split; [|split]]].
  - intros it q Eq. unfold processUploadQueue. rewrite Eq.
    cbv zeta. fsimpl. rewrite Eq. unfold loop_head. fsimpl. cbn [lookup].
    cbn [list_lookup]. unfold uploadToEgnyte. fsimpl. split; [done|].
    exists (mkTask (it :: q) 0 0 0 AwaitUpload). split; [|done].
    apply list_lookup_insert_eq. rewrite length_app. cbn. lia.
  - by apply inv_conserve.
  - by apply pushed_NoDup.
  - intros tid t Etid.
    destruct (inv_tasks w Hw tid t Etid) as [Ha _ _ _ _ _ _].
    split; [done|]. intros Eat. unfold attempted in Ha. rewrite Eat in Ha.
    by rewrite firstn_all in Ha.
  - intros tid Htid. unfold attempts_of. by rewrite (inv_fresh w Hw).
Qed.

(** The dispatches of one drain are at least [UPLOAD_DELAY] apart, whatever
    the outcomes of the uploads, and the drain returns in the step in which
    the upload of its last item settles, without waiting. *)
Theorem dispatches_of_a_drain_are_paced w tid t :
  reachable w → tasks w !! tid = Some t →
  paced (UPLOAD_DELAY CONFIG) (dispatch_times tid (trace w)) ∧
  (at_ t = AwaitUpload → filesToProcess t !! S (i t) = None →
   ∀ o, ∃ t', tasks (handle w (UploadSettled tid o)) !! tid = Some t' ∧
     at_ t' = Returned ∧ now (handle w (UploadSettled tid o)) = now w).
Proof.
  intros Hr Etid. pose proof (reachable_inv w Hr) as Hw.
  destruct (inv_tasks w Hw tid t Etid) as [_ Hb _ Hp _ _ _].
  split; [done|]. intros Eat Elast o.
  destruct (lookup_lt_is_Some_2 (filesToProcess t) (i t)) as [item Eitem].
  { apply Hb. by rewrite Eat. }
  destruct (upload_settled_task w tid t item o Etid Eat Eitem)
    as (t' & H1 & _ & _ & H4).
  exists t'. rewrite Elast in H4. split; [done|]. split; [done|].
  clear H1 H4. apply lookup_lt_Some in Etid as Hlt.
  cbn [Fixed.handle]. unfold upload_settled. rewrite Etid, Eat, Eitem.
  unfold body_rest, pace, loop_head, finish. fsimpl.
  apply lookup_ge_None in Elast.
  destruct o; [|destruct (unlinkSync _ _)]; fsimpl;
    (rewrite decide_False by lia); fsimpl;
    (rewrite (lookup_ge_None_2 (filesToProcess t) (S (i t))) by lia);
    done.
Qed.

End facts.
End FixedFacts.

(** ** The backup gateway: what settles leaves the queue, what fails stays *)
Module SimpleFacts.
Import Simple.

Section facts.
Context (CONFIG : config) (userMappings : userMappings_t).
Context (basename : string → string) (path_join : string → string → string).

Local Abbreviation handle := (handle CONFIG userMappings basename path_join).

Lemma loop_head_queue tid t w :
  uploadQueue (loop_head CONFIG basename tid t w) = uploadQueue w.
Proof. unfold loop_head. by destruct (snapshot t !! i t). Qed.

(** In the backup gateway a drain that awaits the upload of an item leaves
    the queue as it is when the upload fails, and takes the item out of the
    queue when the upload has succeeded and the local file is deleted. *)
Theorem failed_item_stays_queued w tid t item :
  tasks w !! tid = Some t → at_ t = AwaitUpload →
  snapshot t !! i t = Some item →
  (∀ error,
     uploadQueue (handle w (UploadSettled tid (Some error))) = uploadQueue w) ∧
  (is_Some (fs w !! localPath item) →
   uploadQueue (handle w (UploadSettled tid None)) =
     remove_item item (uploadQueue w)).
Proof.
  intros Etid Eat Eitem. split.
  - intros error. cbn [Simple.handle]. unfold upload_settled.
    rewrite Etid, Eat, Eitem. unfold body_rest. by rewrite loop_head_queue.
  - intros [size Efile]. cbn [Simple.handle]. unfold upload_settled.
    rewrite Etid, Eat, Eitem. unfold body_rest, unlinkSync. rewrite Efile.
    cbn [uploadQueue emit console_log with_fs with_queue with_trace].
    destruct (remove_item item (uploadQueue w)); [|done].
    by rewrite loop_head_queue.
Qed.

End facts.
End SimpleFacts.

(** ** Runs of the three queueing gateways *)
Module QueueScenarios.

(** The item that the gateways build for a file that alice has stored. *)
Definition stored (n : nat) (name : string) : item :=
  mkItem n ("scans/" +:+ name) ("/Shared/Userfiles/alice/" +:+ name) name
    "alice".

Definition a : item := stored 0 "a.pdf".
Definition b : item := stored 1 "b.pdf".
Definition c : item := stored 1 "c.pdf".

Definition timeout : jsError := newError "timeout of 30000ms exceeded".

(** Everything handed to the upload function, by any drain, oldest first. *)
Definition all_attempts (tr : list entry) : list item :=
  omap (λ e, match what e with Attempt it => Some it | _ => None end) tr.

(** *** Snapshot-and-clear *)

Definition fixed_cfg : Fixed.config :=
  Fixed.mkConfig "./scans" "token" "acme" 3000.

Definition fixed_run : Fixed.world → list Fixed.event → Fixed.world :=
  Fixed.run fixed_cfg Examples.users Examples.basename.

(** Alice stores two files; ten seconds later the timer starts a drain,
    which now awaits the upload of the first. *)
Definition two_files : Fixed.world :=
  fixed_run Fixed.init
    [Fixed.Connect "10.0.0.1"; Fixed.Login 0 "alice" "s1";
     Fixed.FileStored "scans/a.pdf" 10;
     Fixed.STOR 0 None "scans/a.pdf";
     Fixed.FileStored "scans/b.pdf" 20;
     Fixed.STOR 0 None "scans/b.pdf";
     Fixed.Tick 10000; Fixed.ProcessTimerFires].

(** The upload of the first file has failed. *)
Definition first_failed : Fixed.world :=
  fixed_run two_files [Fixed.UploadSettled 0 (Some timeout)].

(** The second file goes through, a third one arrives and a second drain
    takes it. *)
Definition later : list Fixed.event :=
  [Fixed.Tick 3000; Fixed.Elapsed 0; Fixed.UploadSettled 0 None;
   Fixed.FileStored "scans/c.pdf" 30; Fixed.STOR 0 None "scans/c.pdf";
   Fixed.Tick 10000; Fixed.ProcessTimerFires].

Lemma two_files_reachable :
  Fixed.reachable fixed_cfg Examples.users Examples.basename two_files.
Proof. eexists. reflexivity. Qed.

Lemma failed_upload_keeps_file_and_drain_goes_on_witness :
  Fixed.tasks two_files !! 0 = Some (Fixed.mkTask [a; b] 0 0 0 AwaitUpload)
  ∧ Fixed.fs first_failed = Fixed.fs two_files
  ∧ ∃ t', Fixed.tasks first_failed !! 0 = Some t'
      ∧ Fixed.success t' = 0 ∧ Fixed.failed t' = 1
      ∧ Fixed.at_ t' = AwaitDelay 13000.
Proof.
  assert (Fixed.tasks two_files !! 0
          = Some (Fixed.mkTask [a; b] 0 0 0 AwaitUpload)) as Htask
    by (vm_compute; reflexivity).
  split; [exact Htask|].
  destruct (FixedFacts.failed_upload_keeps_file_and_drain_goes_on fixed_cfg
              Examples.users Examples.basename two_files 0 _
              two_files_reachable Htask) as (H & _ & _).
  destruct (H eq_refl) as (item & _ & Hitem).
  destruct (Hitem (Some timeout)) as (t' & Ht' & _ & (Hfs & Hs & Hf) & Hat).
  split; [exact Hfs|]. exists t'.
  split; [exact Ht'|]. split; [exact Hs|]. split; [exact Hf|].
  rewrite Hat. vm_compute. reflexivity.
Defined.

(** The state in which the two files are queued and the timer is due. *)
Definition two_queued : Fixed.world :=
  fixed_run Fixed.init
    [Fixed.Connect "10.0.0.1"; Fixed.Login 0 "alice" "s1";
     Fixed.FileStored "scans/a.pdf" 10;
     Fixed.STOR 0 None "scans/a.pdf";
     Fixed.FileStored "scans/b.pdf" 20;
     Fixed.STOR 0 None "scans/b.pdf";
     Fixed.Tick 10000].

Lemma drain_works_on_its_snapshot_witness :
  Fixed.uploadQueue two_queued = [a; b]
  ∧ Fixed.uploadQueue
      (Fixed.processUploadQueue fixed_cfg Examples.basename two_queued) = []
  ∧ ∃ t, Fixed.tasks
           (Fixed.processUploadQueue fixed_cfg Examples.basename two_queued)
           !! 0 = Some t
      ∧ Fixed.filesToProcess t = [a; b].
Proof.
  assert (Fixed.uploadQueue two_queued = [a; b]) as Hq
    by (vm_compute; reflexivity).
  split; [exact Hq|].
  assert (Fixed.reachable fixed_cfg Examples.users Examples.basename
            two_queued) as Hr by (eexists; reflexivity).
  destruct (FixedFacts.drain_works_on_its_snapshot fixed_cfg Examples.users
              Examples.basename two_queued Hr) as (H & _).
  destruct (H a [b] Hq) as (Hempty & t & Ht & Hfiles).
  split; [exact Hempty|]. exists t. split; [|exact Hfiles].
  assert (length (Fixed.tasks two_queued) = 0) as E
    by (vm_compute; reflexivity).
  rewrite E in Ht. exact Ht.
Defined.

(** The first upload has failed, the delay is over, and the second file is
    on its way: it was dispatched 3000 ms after the first. *)
Definition second_on_its_way : Fixed.world :=
  fixed_run first_failed [Fixed.Tick 3000; Fixed.Elapsed 0].

Lemma dispatches_of_a_drain_are_paced_witness :
  dispatch_times 0 (Fixed.trace second_on_its_way) = [10000; 13000]%N
  ∧ paced 3000 (dispatch_times 0 (Fixed.trace second_on_its_way))
  ∧ ∃ t', Fixed.tasks
            (Fixed.handle fixed_cfg Examples.users Examples.basename
               second_on_its_way (Fixed.UploadSettled 0 None)) !! 0 = Some t'
      ∧ Fixed.at_ t' = Returned
      ∧ Fixed.now
          (Fixed.handle fixed_cfg Examples.users Examples.basename
             second_on_its_way (Fixed.UploadSettled 0 None)) = 13000%N.
Proof.
  split; [vm_compute; reflexivity|].
  assert (Fixed.reachable fixed_cfg Examples.users Examples.basename
            second_on_its_way) as Hr.
  { do 2 apply FixedFacts.reachable_run. exact two_files_reachable. }
  assert (Fixed.tasks second_on_its_way !! 0
          = Some (Fixed.mkTask [a; b] 1 0 1 AwaitUpload)) as Htask
    by (vm_compute; reflexivity).
  destruct (FixedFacts.dispatches_of_a_drain_are_paced fixed_cfg
              Examples.users Examples.basename second_on_its_way 0 _ Hr Htask)
    as (Hp & Hlast).
  split; [exact Hp|].
  destruct (Hlast eq_refl eq_refl None) as (t' & Ht' & Hat & Hnow).
  exists t'. split; [exact Ht'|]. split; [exact Hat|].
  rewrite Hnow. vm_compute. reflexivity.
Defined.

(** *** The backup gateway *)

Definition simple_cfg : Simple.config :=
  Simple.mkConfig "./scans" "token" "acme" 3000.

Definition simple_run : Simple.world → list Simple.event → Simple.world :=
  Simple.run simple_cfg Examples.users Examples.basename Examples.path_join.

(** Alice uploads two files and disconnects; two seconds later a drain
    starts and awaits the upload of the first. *)
Definition to_two_files : list Simple.event :=
  [Simple.Login "alice" "s1";
   Simple.FileStored "scans/a.pdf" 10; Simple.Upload "a.pdf" "alice";
   Simple.FileStored "scans/b.pdf" 20; Simple.Upload "b.pdf" "alice";
   Simple.Disconnect "alice"; Simple.Tick 2000; Simple.DrainTimerFires 0].

Definition simple_two_files : Simple.world :=
  simple_run Simple.init to_two_files.

(** Half a second later the upload of the first file fails. *)
Definition to_first_failed : list Simple.event :=
  to_two_files ++ [Simple.Tick 500; Simple.UploadSettled 0 (Some timeout)].

Definition simple_first_failed : Simple.world :=
  simple_run Simple.init to_first_failed.

(** The upload of the second file succeeds. *)
Definition simple_second_done : Simple.world :=
  simple_run simple_first_failed [Simple.UploadSettled 0 None].

(** The drain returns; a later disconnect starts a second drain. *)
Definition simple_next_drain : Simple.world :=
  simple_run simple_second_done
    [Simple.Tick 3000; Simple.Elapsed 0;
     Simple.Disconnect "alice"; Simple.Tick 2000; Simple.DrainTimerFires 2].

Lemma failed_item_stays_queued_witness :
  Simple.uploadQueue simple_two_files = [a; b]
  ∧ Simple.uploadQueue
      (Simple.handle simple_cfg Examples.users Examples.basename
         Examples.path_join simple_two_files
         (Simple.UploadSettled 0 (Some timeout))) = [a; b]
  ∧ Simple.uploadQueue
      (Simple.handle simple_cfg Examples.users Examples.basename
         Examples.path_join simple_two_files
         (Simple.UploadSettled 0 None)) = [b].
Proof.
  assert (Simple.uploadQueue simple_two_files = [a; b]) as Hq
    by (vm_compute; reflexivity).
  split; [exact Hq|].
  assert (Simple.tasks simple_two_files !! 0
          = Some (Simple.mkTask [a; b] 0 0 0 AwaitUpload)) as Htask
    by (vm_compute; reflexivity).
  destruct (SimpleFacts.failed_item_stays_queued simple_cfg Examples.users
              Examples.basename Examples.path_join simple_two_files 0 _ a
              Htask eq_refl eq_refl) as (Hfail & Hok).
  split.
  - rewrite (Hfail timeout). exact Hq.
  - rewrite Hok; [rewrite Hq; vm_compute; reflexivity|].
    exists 10%N. vm_compute. reflexivity.
Defined.

(** What C9 says, read on the backup gateway: an item that a drain has been
    given to upload is out of the queue and no other drain attempts it. *)
Definition simple_removed_on_dispatch : Prop :=
  ∀ es tid it,
    it ∈ attempts_of tid (Simple.trace (simple_run Simple.init es)) →
    (it ∉ Simple.uploadQueue (simple_run Simple.init es))
    ∧ ∀ tid', tid' ≠ tid →
        it ∉ attempts_of tid' (Simple.trace (simple_run Simple.init es)).

(** What C5 says, read on the backup gateway. *)
Definition simple_paced : Prop :=
  ∀ es tid,
    paced (Simple.UPLOAD_DELAY simple_cfg)
      (dispatch_times tid (Simple.trace (simple_run Simple.init es))).


(** C5 fails on the backup gateway. With a delay of 3000 ms and a batch of
    two files, the upload of the first fails 500 ms after its dispatch and
    the second is dispatched at once; and when the upload of the second,
    the last of the batch, has succeeded, the drain waits for the delay
    before it returns, because the failed item is still in the queue. *)
Lemma simple_drain_skips_the_delay_after_a_failure :
  Simple.UPLOAD_DELAY simple_cfg = 3000%N
  ∧ attempts_of 0 (Simple.trace simple_first_failed) = [a; b]
  ∧ dispatch_times 0 (Simple.trace simple_first_failed) = [2000; 2500]%N
  ∧ ¬ simple_paced
  ∧ attempts_of 0 (Simple.trace simple_second_done) = [a; b]
  ∧ Simple.now simple_second_done = 2500%N
  ∧ Simple.at_ <$> Simple.tasks simple_second_done = [AwaitDelay 5500].
Proof.
  split_and!;
    try (lazymatch goal with
         | |- ¬ _ => fail
         | |- _ => vm_compute; reflexivity
         end).
  intros H. specialize (H to_first_failed 0).
  assert (dispatch_times 0 (Simple.trace (simple_run Simple.init
            to_first_failed)) = [2000; 2500]%N) as E
    by (vm_compute; reflexivity).
  rewrite E in H. destruct H as [H _]. vm_compute in H. by apply H.
Qed.

(** C9 fails on the backup gateway: the first file, whose upload has
    failed, is still in the queue, and the next drain attempts it again. *)
Lemma failed_item_is_attempted_again :
  attempts_of 0 (Simple.trace simple_first_failed) = [a; b]
  ∧ Simple.uploadQueue simple_first_failed = [a; b]
  ∧ Simple.uploadQueue simple_second_done = [a]
  ∧ attempts_of 1 (Simple.trace simple_next_drain) = [a]
  ∧ ¬ simple_removed_on_dispatch.
Proof.
  split_and!;
    try (lazymatch goal with
         | |- ¬ _ => fail
         | |- _ => vm_compute; reflexivity
         end).
  intros H. specialize (H to_first_failed 0 a).
  assert (attempts_of 0 (Simple.trace (simple_run Simple.init
            to_first_failed)) = [a; b]) as E by (vm_compute; reflexivity).
  assert (Simple.uploadQueue (simple_run Simple.init to_first_failed)
          = [a; b]) as Eq by (vm_compute; reflexivity).
  rewrite E, Eq in H. destruct H as [H _]; [constructor|].
  apply H. constructor.
Qed.

(** *** The ftpd gateway *)

Definition ftpd_cfg : Ftpd.config :=
  Ftpd.mkConfig "./scans" "token" "acme" 3000.

Definition ftpd_run : Ftpd.world → list Ftpd.event → Ftpd.world :=
  Ftpd.run ftpd_cfg Examples.users Examples.basename.

(** Three sessions of alice. *)
Definition three_sessions : list Ftpd.event :=
  [Ftpd.ClientConnected; Ftpd.CommandUser 0 "alice"; Ftpd.CommandPass 0 "s1";
   Ftpd.ClientConnected; Ftpd.CommandUser 1 "alice"; Ftpd.CommandPass 1 "s1";
   Ftpd.ClientConnected; Ftpd.CommandUser 2 "alice"; Ftpd.CommandPass 2 "s1"].

(** The first session stores a file and ends; a second later a drain
    starts and awaits the upload of the file. *)
Definition ftpd_draining : Ftpd.world :=
  ftpd_run Ftpd.init
    (three_sessions ++
     [Ftpd.FileStored "scans/a.pdf" 10; Ftpd.FileStoredBy 0 "scans/a.pdf";
      Ftpd.End 0; Ftpd.Tick 1000; Ftpd.DrainTimerFires 0]).

(** Meanwhile the second session stores a file; then the upload settles
    and the delay passes. *)
Definition ftpd_late_arrival : Ftpd.world :=
  ftpd_run ftpd_draining
    [Ftpd.FileStored "scans/b.pdf" 20; Ftpd.FileStoredBy 1 "scans/b.pdf";
     Ftpd.UploadSettled 0 None; Ftpd.Tick 3000; Ftpd.Elapsed 0].

(** Two sessions end within the same second, so that two drains start. *)
Definition to_two_drains : list Ftpd.event :=
  three_sessions ++
  [Ftpd.FileStored "scans/a.pdf" 10; Ftpd.FileStoredBy 0 "scans/a.pdf";
   Ftpd.End 0; Ftpd.End 1; Ftpd.Tick 1000;
   Ftpd.DrainTimerFires 0; Ftpd.DrainTimerFires 1].

Definition ftpd_two_drains : Ftpd.world := ftpd_run Ftpd.init to_two_drains.

(** The upload of the first drain settles, the third session stores a
    file, and the upload of the second drain settles. *)
Definition ftpd_lost : Ftpd.world :=
  ftpd_run ftpd_two_drains
    [Ftpd.UploadSettled 0 None;
     Ftpd.FileStored "scans/c.pdf" 30; Ftpd.FileStoredBy 2 "scans/c.pdf";
     Ftpd.UploadSettled 1 None].

(** Part of what C3 says, read on the ftpd gateway: no item is handed to
    the upload function twice. *)
Definition ftpd_each_item_once : Prop :=
  ∀ es, NoDup (all_attempts (Ftpd.trace (ftpd_run Ftpd.init es))).

(** C3 fails on the ftpd gateway, whose drain walks the queue itself and
    empties it when it is through. A file stored while a drain awaits an
    upload is attempted by that same drain; and when two drains overlap,
    both attempt the one file, and the file stored after the first has
    emptied the queue is dropped by the second without an attempt: both
    drains have returned, no timer is pending, the queue is empty. *)
Lemma ftpd_drain_walks_the_live_queue :
  Ftpd.at_ <$> Ftpd.tasks ftpd_draining = [AwaitUpload]
  ∧ pushed (Ftpd.trace ftpd_draining) = [a]
  ∧ attempts_of 0 (Ftpd.trace ftpd_draining) = [a]
  ∧ pushed (Ftpd.trace ftpd_late_arrival) = [a; b]
  ∧ attempts_of 0 (Ftpd.trace ftpd_late_arrival) = [a; b]
  ∧ attempts_of 0 (Ftpd.trace ftpd_two_drains) = [a]
  ∧ attempts_of 1 (Ftpd.trace ftpd_two_drains) = [a]
  ∧ ¬ ftpd_each_item_once
  ∧ pushed (Ftpd.trace ftpd_lost) = [a; c]
  ∧ all_attempts (Ftpd.trace ftpd_lost) = [a; a]
  ∧ Ftpd.at_ <$> Ftpd.tasks ftpd_lost = [Returned; Returned]
  ∧ Ftpd.drainTimers ftpd_lost = []
  ∧ Ftpd.uploadQueue ftpd_lost = [].
Proof.
  split_and!;
    try (lazymatch goal with
         | |- ¬ _ => fail
         | |- _ => vm_compute; reflexivity
         end).
  intros H. specialize (H to_two_drains).
  assert (all_attempts (Ftpd.trace (ftpd_run Ftpd.init to_two_drains))
          = [a; a]) as E by (vm_compute; reflexivity).
  rewrite E in H. apply NoDup_cons in H as [H _]. apply H. constructor.
Qed.

End QueueScenarios.
(** ** The Egnyte client at its edges *)
Module EgnyteEdgeFacts.
Import EgnyteClient EgnyteFacts.

(** Whether the character occurs in the string. *)
Fixpoint mentions (c : ascii) (s : string) : bool :=
  match s with
  | EmptyString => false
  | String c' s' => Ascii.eqb c c' || mentions c s'
  end.

Lemma replace_first_cons pat rep c s :
  String.prefix pat (String c s) = false →
  replace_first pat rep (String c s) = String c (replace_first pat rep s).
Proof. intros H. cbn [replace_first]. by rewrite H. Qed.

Lemma prefix_dot c s :
  Ascii.eqb "." c = false → String.prefix ".egnyte.com" (String c s) = false.
Proof.
  intros Hc. cbn [String.prefix]. destruct (ascii_dec "." c) as [<-|_]; done.
Qed.

Lemma replace_first_suffix name :
  mentions "."%char name = false →
  replace_first ".egnyte.com" EmptyString (name +:+ ".egnyte.com") = name.
Proof.
  induction name as [|c name IH]; intros Hdot; [done|].
  cbn [mentions] in Hdot. apply orb_false_elim in Hdot as [Hc Hname].
  change (String c name +:+ ".egnyte.com")
    with (String c (name +:+ ".egnyte.com")).
  rewrite replace_first_cons by (by apply prefix_dot). by rewrite IH.
Qed.

Lemma replace_first_absent name :
  mentions "."%char name = false →
  replace_first ".egnyte.com" EmptyString name = name.
Proof.
  induction name as [|c name IH]; intros Hdot; [done|].
  cbn [mentions] in Hdot. apply orb_false_elim in Hdot as [Hc Hname].
  rewrite replace_first_cons by (by apply prefix_dot). by rewrite IH.
Qed.

(** A token that the constructor accepts. *)
Definition usable (token : string) : Prop :=
  token ≠ EmptyString ∧ token ≠ "your_actual_token_here".

Lemma construct_usable token domain tr :
  usable token → domain ≠ EmptyString →
  construct (Some token) (Some domain) tr =
  (Ret (mkClient token domain
          ("https://" +:+ replace_first ".egnyte.com" EmptyString domain
           +:+ ".egnyte.com")),
   tr ++ [Log Info ("Egnyte client initialized for domain: " +:+
                    replace_first ".egnyte.com" EmptyString domain
                    +:+ ".egnyte.com")]).
Proof.
  intros [Hne Hph] Hd. unfold construct.
  destruct token as [|c token]; [done|].
  destruct (String.eqb_spec (String c token) "your_actual_token_here");
    [done|].
  by destruct domain.
Qed.

(** The constructor builds the same base URL for a bare domain name and
    for the name followed by [.egnyte.com]. *)
Theorem base_url_with_or_without_suffix (token name : string)
    (tr : list effect) :
  usable token → name ≠ EmptyString → mentions "."%char name = false →
  ∃ c1 c2 tr1 tr2,
    construct (Some token) (Some name) tr = (Ret c1, tr1) ∧
    construct (Some token) (Some (name +:+ ".egnyte.com")) tr = (Ret c2, tr2) ∧
    baseUrl c1 = "https://" +:+ name +:+ ".egnyte.com" ∧
    baseUrl c2 = "https://" +:+ name +:+ ".egnyte.com".
Proof.
  intros Htoken Hname Hdot.
  assert (name +:+ ".egnyte.com" ≠ EmptyString) as Hfull
    by (by destruct name).
  eexists _, _, _, _. split_and!.
  - by apply construct_usable.
  - by apply construct_usable.
  - cbn [baseUrl]. by rewrite replace_first_absent.
  - cbn [baseUrl]. by rewrite replace_first_suffix.
Qed.

(** The constructor reads [DOMAIN] before it validates anything: with the
    variable unset it throws the [TypeError] of [undefined.replace],
    whatever the token; it throws the domain error only for a domain that
    is the empty string, and only if the token is usable; and it returns
    exactly when the token is usable and the domain is not empty. *)
Theorem constructor_validation (API_TOKEN DOMAIN : option string)
    (tr : list effect) :
  (DOMAIN = None →
   construct API_TOKEN DOMAIN tr = (Throw TypeError_replace, tr)) ∧
  ((construct API_TOKEN DOMAIN tr).1 = Throw DomainNotConfigured →
   DOMAIN = Some EmptyString ∧ ∃ token, API_TOKEN = Some token ∧ usable token) ∧
  (is_Ret (construct API_TOKEN DOMAIN tr).1 = true ↔
   ∃ token domain, API_TOKEN = Some token ∧ DOMAIN = Some domain ∧
     usable token ∧ domain ≠ EmptyString).
Proof.
  split_and!.
  - by intros ->.
  - unfold construct. destruct DOMAIN as [[|a d]|]; [| |done].
    + destruct API_TOKEN as [[|c token]|]; try done.
      destruct (String.eqb_spec (String c token) "your_actual_token_here");
        [done|].
      intros _. split; [done|]. by exists (String c token).
    + by destruct API_TOKEN as [[|c token]|]; [|destruct (String.eqb _ _)|].
  - split.
    + unfold construct. destruct DOMAIN as [[|a d]|]; [| |done].
      * by destruct API_TOKEN as [[|c token]|]; [|destruct (String.eqb _ _)|].
      * destruct API_TOKEN as [[|c token]|]; try done.
        destruct (String.eqb_spec (String c token) "your_actual_token_here");
          [done|].
        intros _. by exists (String c token), (String a d).
    + intros (token & domain & -> & -> & Htoken & Hdomain).
      by rewrite construct_usable.
Qed.

Section client.
Context (UPLOAD_TIMEOUT : N) (this : t) (net : request → fetched).
Context (basename dirname : string → string).
Context (JSON_parse : string → option string) (now : N).

(** [uploadFile] on a local file that does not exist: it throws before it
    sends any request. *)
Theorem upload_of_missing_file_sends_no_request (fs : fs_t)
    (localFilePath dest : string) (tr : list effect) :
  fs !! localFilePath = None →
  ∃ logs,
    uploadFile UPLOAD_TIMEOUT this net basename dirname JSON_parse now fs
      localFilePath dest tr =
    (Throw (newError ("Local file not found: " +:+ localFilePath)),
     tr ++ logs) ∧
    fetches logs = [].
Proof.
  intros Hfs.
  assert (uploadFile_try UPLOAD_TIMEOUT this net basename dirname JSON_parse
            now fs localFilePath dest tr =
          (Throw (newError ("Local file not found: " +:+ localFilePath)),
           tr ++ [Log Info ("Egnyte upload starting: " +:+ dest)])) as Etry.
  { unfold uploadFile_try, statSync. by rewrite bind_log, Hfs. }
  unfold uploadFile, try_catch. rewrite Etry.
  destruct (uploadFile_catch this basename localFilePath dest
              (newError ("Local file not found: " +:+ localFilePath))
              (tr ++ [Log Info ("Egnyte upload starting: " +:+ dest)]))
    as (logs & -> & Hlogs).
  exists ([Log Info ("Egnyte upload starting: " +:+ dest)] ++ logs).
  split; [by rewrite app_assoc|]. by rewrite fetches_app, Hlogs.
Qed.




(** The connection test sends one request, logs, and never throws: it
    returns after a failure to connect, after an answer that is not a
    success and after a body that is not JSON. *)
Theorem connection_test_never_throws
    (username_of : string → option string)
    (json_error : option string → jsError) (tr : list effect) :
  ∃ suf,
    testConnection this net JSON_parse username_of json_error tr =
    (Ret (), tr ++ suf) ∧
    fetches suf = [userinfoRequest this] ∧
    Forall client_effect suf.
Proof.
  unfold testConnection, try_catch. rewrite bind_log, bind_fetch.
  destruct (net (userinfoRequest this)) as [e|resp].
  { unfold log, mbind, M_bind. eexists. rewrite <-!app_assoc.
    split_and!; [reflexivity|done|by repeat constructor]. }
  destruct (ok resp).
  - destruct (text resp) as [body|]; [destruct (JSON_parse body)|];
      unfold throw, log, mbind, M_bind, mret, M_ret;
      eexists; rewrite <-!app_assoc;
      (split_and!; [reflexivity|done|by repeat constructor]).
  - unfold log, mbind, M_bind. eexists. rewrite <-!app_assoc.
    split_and!; [reflexivity|done|by repeat constructor].
Qed.

End client.
End EgnyteEdgeFacts.
(** ** What the handlers do to the registry *)
Module RegistryFacts.
Import Production ProductionFacts.

(** A property of the registry that deleting entries keeps. *)
Record shrinks (Q : JSMap.t nat → Prop) : Prop := mkShrinks {
  sh_delete : ∀ k m, Q m → Q (JSMap.delete k m);
  sh_empty : ∀ m, Q m → Q []
}.

Section shrinks.
Context (Q : JSMap.t nat → Prop) (HQ : shrinks Q).

Local Abbreviation P := (λ w : world, Q (activeConnections w)).

Lemma shrinks_cleanup label w : P w → P (cleanup label w).
Proof.
  unfold cleanup. generalize (activeConnections w) at 2. intros es. revert w.
  induction es as [|e es IH]; intros w Hw; [done|].
  cbn [fold_left]. apply IH. unfold cleanup_entry.
  destruct (is_stale e.2 w); [|done]. wsimpl. by apply HQ.
Qed.

Lemma shrinks_logger l msg : keeps P (logger l msg).
Proof. by intros w Hw. Qed.

Lemma shrinks_ask {A} (f : world → A) : keeps P (ask f).
Proof. by intros w Hw. Qed.

Lemma shrinks_clearTimeout id : keeps P (clearTimeout id).
Proof. by intros w Hw. Qed.

Lemma shrinks_setTimeout c d : keeps P (setTimeout c d).
Proof. by intros w Hw. Qed.

Lemma shrinks_close c : keeps P (close c).
Proof.
  intros w Hw. unfold close. by destruct (conns w !! c) as [[? ? ? [e|]]|].
Qed.

Lemma shrinks_fs_statSync p : keeps P (fs_statSync p).
Proof. intros w Hw. unfold fs_statSync. by destruct (statSync p (fs w)). Qed.

Lemma shrinks_fs_unlinkSync p : keeps P (fs_unlinkSync p).
Proof.
  intros w Hw. unfold fs_unlinkSync. by destruct (unlinkSync p (fs w)).
Qed.

Lemma shrinks_park ref a b c : keeps P (park ref a b c).
Proof. by intros w Hw. Qed.

Lemma shrinks_map_delete k : keeps P (lift (map_delete k)).
Proof. intros w Hw. cbn. by apply HQ. Qed.

Lemma shrinks_with_heap f : keeps P (lift (with_heap f)).
Proof. by intros w Hw. Qed.

Lemma shrinks_lift_cleanup label : keeps P (lift (cleanup label)).
Proof. intros w Hw. by apply shrinks_cleanup. Qed.

Lemma shrinks_exec {A} (m : M world A) w : keeps P m → P w → P (exec m w).
Proof.
  intros Hm Hw. unfold exec. specialize (Hm w Hw).
  by destruct (m w) as [[a|e] w'].
Qed.

End shrinks.

Ltac shrinks_tac HQ :=
  repeat first
    [ apply keeps_ret
    | apply keeps_throw
    | apply keeps_bind; [|intros ?]
    | apply keeps_try_catch; [|intros ?]
    | by apply shrinks_logger
    | by apply shrinks_ask
    | by apply shrinks_clearTimeout
    | by apply shrinks_setTimeout
    | by apply shrinks_close
    | by apply shrinks_fs_statSync
    | by apply shrinks_fs_unlinkSync
    | by apply shrinks_park
    | by apply shrinks_map_delete
    | by apply shrinks_with_heap
    | by apply shrinks_lift_cleanup
    | match goal with
      | |- keeps _ (match ?x with _ => _ end) => destruct x
      end ].

Section handlers.
Context (CONFIG : config) (userMappings : userMappings_t).
Context (egnyteClient : option EgnyteClient.t).
Context (basename dirname extname : string → string).
Context (JSON_parse : string → option string).
Context (Q : JSMap.t nat → Prop) (HQ : shrinks Q).

Local Abbreviation P := (λ w : world, Q (activeConnections w)).
Local Abbreviation handle :=
  (handle CONFIG userMappings egnyteClient basename dirname extname
     JSON_parse).

Lemma shrinks_idle_timeout ref cl : keeps P (idle_timeout ref cl).
Proof. unfold idle_timeout. shrinks_tac HQ. Qed.

Lemma shrinks_resetIdleTimer ref cl : keeps P (resetIdleTimer CONFIG ref cl).
Proof. unfold resetIdleTimer. shrinks_tac HQ. Qed.

Lemma shrinks_on_close cl : keeps P (on_close CONFIG cl).
Proof. unfold on_close. shrinks_tac HQ. Qed.

Lemma shrinks_on_error cl e : keeps P (on_error cl e).
Proof. unfold on_error. shrinks_tac HQ. Qed.

Lemma shrinks_on_end cl : keeps P (on_end cl).
Proof. unfold on_end. shrinks_tac HQ. Qed.

Lemma shrinks_auto_disconnect cl : keeps P (auto_disconnect cl).
Proof. unfold auto_disconnect. shrinks_tac HQ. Qed.

Lemma shrinks_on_STOR ref cl error filePath :
  keeps P (on_STOR CONFIG egnyteClient basename extname ref cl error filePath).
Proof.
  unfold on_STOR. shrinks_tac HQ; by apply shrinks_resetIdleTimer.
Qed.

Lemma shrinks_sweep : keeps P sweep.
Proof. unfold sweep. shrinks_tac HQ. Qed.

Lemma shrinks_after_upload cl p r : keeps P (after_upload CONFIG cl p r).
Proof. unfold after_upload. shrinks_tac HQ. Qed.

Lemma shrinks_dispatch c f w :
  (∀ ref cl, keeps P (f ref cl)) → P w → P (dispatch c f w).
Proof.
  intros Hf. unfold dispatch. generalize (scopes_on c w). intros refs.
  revert w. induction refs as [|ref refs IH]; intros w Hw; [done|].
  cbn [fold_left]. apply IH.
  destruct (heap w !! ref); [by apply shrinks_exec | done].
Qed.

Lemma shrinks_settle id net w :
  P w →
  P (exec (settle CONFIG egnyteClient basename dirname JSON_parse id net) w).
Proof.
  intros Hw. unfold exec, settle.
  destruct (parked w !! id) as [p|]; [|done].
  destruct egnyteClient as [client|]; [|done].
  destruct (heap w !! p_ref p) as [cl|]; [|done].
  cbn [now trace with_parked].
  destruct (EgnyteClient.uploadFile _ _ _ _ _ _ _ _ _ _ _) as [r tr].
  pose proof (shrinks_after_upload cl p r) as K.
  match goal with
  | |- context [after_upload _ _ _ _ ?w1] =>
      specialize (K w1 Hw);
      by destruct (after_upload CONFIG cl p r w1) as [[a|e] w']
  end.
Qed.

Lemma shrinks_fire id w : P w → P (fire id w).
Proof.
  intros Hw. unfold fire. destruct (timers w !! id) as [t|]; [|done].
  destruct (decide _); [|done].
  destruct (cb t) as [ref|ref];
    (destruct (heap _ !! ref) as [cl|]; [|done]); apply shrinks_exec;
    try done.
  - apply shrinks_idle_timeout.
  - apply shrinks_auto_disconnect.
Qed.

(** Which events call the [login] listener. *)
Definition is_login (e : event) : bool :=
  match e with Login _ _ _ => true | _ => false end.

Lemma shrinks_handle w e : is_login e = false → P w → P (handle w e).
Proof.
  intros He Hw. destruct e; try discriminate He; cbn [Production.handle];
    try done.
  - apply shrinks_dispatch; [|done]. intros. apply shrinks_on_STOR.
  - apply shrinks_dispatch; [|done]. intros. apply shrinks_resetIdleTimer.
  - by apply shrinks_settle.
  - apply shrinks_dispatch; [|done]. intros. apply shrinks_on_close.
  - apply shrinks_dispatch; [|done]. intros. apply shrinks_on_error.
  - apply shrinks_dispatch; [|done]. intros. apply shrinks_on_end.
  - by apply shrinks_fire.
  - apply shrinks_exec; [|done]. apply shrinks_sweep.
  - cbn. by apply (sh_empty Q HQ (activeConnections w)).
Qed.

End handlers.


(** *** Three properties that deletions keep *)

Lemma size_foldl_delete (us : list string) (m : JSMap.t nat) :
  JSMap.size (foldl (flip JSMap.delete) m us) ≤ JSMap.size m.
Proof.
  revert m. induction us as [|u us IH]; intros m; [done|].
  cbn [foldl]. etrans; [apply IH|]. apply JSMapFacts.size_delete_le.
Qed.

Lemma size_set_le (k : string) (v : nat) (m : JSMap.t nat) :
  JSMap.size (JSMap.set k v m) ≤ S (JSMap.size m).
Proof.
  unfold JSMap.size. induction m as [|[k' v'] m IH]; cbn; [done|].
  destruct (decide (k = k')); cbn; lia.
Qed.

Lemma get_delete_None (k u : string) (m : JSMap.t nat) :
  JSMap.get u m = None → JSMap.get u (JSMap.delete k m) = None.
Proof.
  destruct (decide (k = u)) as [->|Hne].
  - induction m as [|[k' v'] m IH]; cbn; [done|].
    destruct (decide (u = k')) as [->|Hne]; [done|]. cbn.
    by rewrite decide_False.
  - by rewrite JSMapFacts.get_delete_ne.
Qed.

Lemma shrinks_size n : shrinks (λ m, JSMap.size m ≤ n).
Proof.
  split; [|intros; cbn; lia]. intros k m Hm.
  etrans; [apply JSMapFacts.size_delete_le|done].
Qed.

Lemma shrinks_within (m0 : JSMap.t nat) :
  shrinks (λ m, ∀ kv, kv ∈ m → kv ∈ m0).
Proof.
  split.
  - intros k m Hm kv Hkv. by eapply Hm, JSMapFacts.elem_of_delete.
  - intros m _ kv Hkv. by apply elem_of_nil in Hkv.
Qed.

Lemma shrinks_absent (u : string) : shrinks (λ m, JSMap.get u m = None).
Proof. split; [|done]. intros k m Hm. by apply get_delete_None. Qed.

Section registry.
Context (CONFIG : config) (userMappings : userMappings_t).
Context (egnyteClient : option EgnyteClient.t).
Context (basename dirname extname : string → string).
Context (JSON_parse : string → option string).

Local Abbreviation handle :=
  (handle CONFIG userMappings egnyteClient basename dirname extname
     JSON_parse).
Local Abbreviation reachable :=
  (reachable CONFIG userMappings egnyteClient basename dirname extname
     JSON_parse).

Lemma login_registry c k u p w :
  conns w !! c = Some k →
  activeConnections (handle w (Login c u p)) =
  (login_summary CONFIG userMappings c u p w).1.2.
Proof.
  intros _. cbn [Production.handle]. unfold exec, login_summary.
  by destruct (login CONFIG userMappings c u p w) as [[r|e] w'].
Qed.

(** The registry never holds more sessions than [MAX_CONNECTIONS]. *)
Theorem registry_never_exceeds_capacity w :
  reachable w → JSMap.size (activeConnections w) ≤ MAX_CONNECTIONS CONFIG.
Proof.
  revert w. apply reachable_ind; [cbn; lia|].
  intros w e _ Hw. destruct (is_login e) eqn:He.
  2:{ by apply (shrinks_handle CONFIG userMappings egnyteClient basename
                  dirname extname JSON_parse _
                  (shrinks_size (MAX_CONNECTIONS CONFIG))). }
  destruct e as [|c u p| | | | | | | | | | | | |]; try discriminate He.
  destruct (conns w !! c) as [k|] eqn:Hc.
  2:{ cbn [Production.handle]. unfold exec.
      by rewrite (login_no_connection CONFIG userMappings c u p w Hc). }
  rewrite (login_registry c k u p w Hc).
  rewrite (login_decision CONFIG userMappings c k u p w Hc).
  assert (JSMap.size (pruned w) ≤ MAX_CONNECTIONS CONFIG) as Hpruned.
  { etrans; [apply size_foldl_delete|done]. }
  destruct (decide _) as [Hfull|Hroom]; [done|].
  destruct (userMappings_get userMappings u) as [userInfo| |]; [|done..].
  destruct (decide _); [done|]. cbn [fst snd].
  etrans; [apply size_set_le|].
  pose proof (JSMapFacts.size_delete_le u (pruned w)). lia.
Qed.

(** No event but a login adds an entry to the registry or changes one. *)
Theorem only_login_adds_a_session w e :
  is_login e = false →
  ∀ kv, kv ∈ activeConnections (handle w e) → kv ∈ activeConnections w.
Proof.
  intros He.
  by apply (shrinks_handle CONFIG userMappings egnyteClient basename
              dirname extname JSON_parse _
              (shrinks_within (activeConnections w))).
Qed.

(** *** Disconnects *)

(** The events that run the [close], [error] and [end] listeners of a
    connection. *)
Definition disconnects (c : nat) (e : event) : Prop :=
  e = ConnClose c ∨ (∃ error, e = ConnError c error) ∨ e = ConnEnd c.

Lemma deleting_listener u ref (f : nat → closure → M world ()) l w :
  (∀ r cl w, distinct_keys w → distinct_keys (exec (f r cl) w)) →
  (∀ r cl w, heap (exec (f r cl) w) = heap w) →
  (∀ r cl w, JSMap.get u (activeConnections w) = None →
     JSMap.get u (activeConnections (exec (f r cl) w)) = None) →
  (∀ cl w, distinct_keys w → username (info cl) = u →
     JSMap.get u (activeConnections (exec (f ref cl) w)) = None) →
  distinct_keys w →
  (∃ cl, heap w !! ref = Some cl ∧ username (info cl) = u) →
  ref ∈ l ∨ JSMap.get u (activeConnections w) = None →
  JSMap.get u
    (activeConnections
       (fold_left (λ w r,
          match heap w !! r with
          | Some cl => exec (f r cl) w
          | None => w
          end) l w)) = None.
Proof.
  intros Hdist Hheap Hkeep Hdel. revert w.
  induction l as [|r l IH]; intros w Hw Hcl Hcase.
  { destruct Hcase as [Hin|Hnone]; [by apply elem_of_nil in Hin|done]. }
  cbn [fold_left]. destruct Hcl as (cl & Hcl & Hu).
  destruct (decide (r = ref)) as [->|Hne].
  - rewrite Hcl. apply IH.
    + by apply Hdist.
    + exists cl. by rewrite Hheap.
    + right. by apply Hdel.
  - destruct (heap w !! r) as [cl'|] eqn:Hr.
    + apply IH.
      * by apply Hdist.
      * exists cl. by rewrite Hheap.
      * destruct Hcase as [Hin|Hnone]; [|right; by apply Hkeep].
        left. apply elem_of_cons in Hin as [?|?]; [done|done].
    + apply IH; [done|by exists cl|].
      destruct Hcase as [Hin|Hnone]; [|by right].
      left. apply elem_of_cons in Hin as [?|?]; [done|done].
Qed.

Lemma scope_on ref cl w :
  heap w !! ref = Some cl → ref ∈ scopes_on (conn (info cl)) w.
Proof.
  intros Hcl. unfold scopes_on. apply list_elem_of_filter. split.
  - by rewrite Hcl.
  - apply elem_of_seq. apply lookup_lt_Some in Hcl. lia.
Qed.

(** When a connection closes, fails or ends, the registry entry under the
    user name of every login made on that connection is deleted, also when
    a later login on another connection has put its own entry there. *)
Theorem disconnect_deletes_the_entry_by_name w ref cl e :
  reachable w → heap w !! ref = Some cl →
  disconnects (conn (info cl)) e →
  JSMap.get (username (info cl)) (activeConnections (handle w e)) = None.
Proof.
  intros Hr Hcl He.
  pose proof (reachable_distinct_keys CONFIG userMappings egnyteClient
                basename dirname extname JSON_parse w Hr) as Hw.
  pose proof (scope_on ref cl w Hcl) as Hin.
  destruct He as [->|[[error ->]| ->]]; cbn [Production.handle];
    unfold dispatch;
    apply (deleting_listener (username (info cl)) ref); try done;
    try (by exists cl); try (by left).
  - intros r cl' w' Hw'. apply stable_exec; [apply distinct_keys_stable| |done].
    apply keeps_on_close. apply distinct_keys_stable.
  - intros r cl' w' Hnone.
    apply (shrinks_exec (λ m, JSMap.get (username (info cl)) m = None));
      [|done].
    apply (shrinks_on_close CONFIG _ (shrinks_absent (username (info cl)))).
  - intros cl' w' Hw' Hu. unfold exec, on_close. unfold_monad. wsimpl.
    rewrite Hu. by apply JSMapFacts.get_delete_eq.
  - intros r cl' w' Hw'. apply stable_exec; [apply distinct_keys_stable| |done].
    apply keeps_on_error. apply distinct_keys_stable.
  - intros r cl' w' Hnone.
    apply (shrinks_exec (λ m, JSMap.get (username (info cl)) m = None));
      [|done].
    apply (shrinks_on_error _ (shrinks_absent (username (info cl)))).
  - intros cl' w' Hw' Hu. unfold exec, on_error. unfold_monad. wsimpl.
    rewrite Hu. by apply JSMapFacts.get_delete_eq.
  - intros r cl' w' Hw'. apply stable_exec; [apply distinct_keys_stable| |done].
    apply keeps_on_end. apply distinct_keys_stable.
  - intros r cl' w' Hnone.
    apply (shrinks_exec (λ m, JSMap.get (username (info cl)) m = None));
      [|done].
    apply (shrinks_on_end _ (shrinks_absent (username (info cl)))).
  - intros cl' w' Hw' Hu. unfold exec, on_end. unfold_monad. wsimpl.
    rewrite Hu. by apply JSMapFacts.get_delete_eq.
Qed.

(** *** The periodic cleanup *)

Lemma get_foldl_delete_in (u : string) (us : list string) (m : JSMap.t nat) :
  NoDup (JSMap.keys m) → u ∈ us →
  JSMap.get u (foldl (flip JSMap.delete) m us) = None.
Proof.
  revert m. induction us as [|u' us IH]; intros m Hm Hu.
  { by apply elem_of_nil in Hu. }
  cbn [foldl]. unfold flip at 2.
  destruct (decide (u = u')) as [<-|Hne].
  - clear IH Hu. assert (JSMap.get u (JSMap.delete u m) = None) as H
      by (by apply JSMapFacts.get_delete_eq).
    revert H. generalize (JSMap.delete u m). clear m Hm.
    induction us as [|k us IH]; intros m H; [done|].
    cbn [foldl]. apply IH. by apply get_delete_None.
  - apply IH; [by apply JSMapFacts.NoDup_delete|].
    apply elem_of_cons in Hu as [?|?]; done.
Qed.

Lemma sweep_world w :
  ∃ logs,
    handle w Sweep =
    with_trace (trace w ++ cleanup_trace
                  "Periodic cleanup: Removing stale connection for "
                  (stale_users w) ++ logs)
      (with_registry (λ _, pruned w) w) ∧
    Forall (λ e, is_log e = true) logs.
Proof.
  cbn [Production.handle]. unfold exec, sweep. unfold_monad.
  rewrite cleanup_eq. wsimpl. destruct (decide _); wsimpl.
  - eexists [_]. unfold emit, with_trace, with_registry. cbn.
    rewrite <-app_assoc. split; [done|]. by repeat constructor.
  - exists []. by rewrite app_nil_r.
Qed.

(** The periodic cleanup removes from the registry the sessions whose
    connection is destroyed or closed and no others; it closes no
    connection and sets or clears no timer. *)
Theorem sweep_removes_exactly_the_stale_sessions w :
  reachable w →
  (∀ u ref,
     JSMap.get u (activeConnections (handle w Sweep)) = Some ref ↔
     JSMap.get u (activeConnections w) = Some ref ∧ is_stale ref w = false) ∧
  heap (handle w Sweep) = heap w ∧
  conns (handle w Sweep) = conns w ∧
  timers (handle w Sweep) = timers w ∧
  Forall (λ e, is_log e = true ∨ ∃ u, e = MapDelete u)
    (since w (handle w Sweep)).
Proof.
  intros Hr.
  pose proof (reachable_distinct_keys CONFIG userMappings egnyteClient
                basename dirname extname JSON_parse w Hr) as Hw.
  destruct (sweep_world w) as (logs & -> & Hlogs). wsimpl.
  split_and!; try done.
  - intros u ref. split.
    + intros Hget.
      destruct (decide (u ∈ stale_users w)) as [Hin|Hout].
      { unfold pruned in Hget.
        by rewrite (get_foldl_delete_in u _ _ Hw Hin) in Hget. }
      unfold pruned in Hget. rewrite get_foldl_delete in Hget by done.
      split; [done|]. apply not_true_is_false. intros Hstale.
      apply Hout. unfold stale_users. apply list_elem_of_fmap.
      exists (u, ref). split; [done|]. apply list_elem_of_filter.
      split; [done|]. by apply JSMapFacts.get_Some_elem_of.
    + intros [Hget Hlive]. by apply get_pruned_live.
  - unfold since. wsimpl. rewrite drop_app_length. apply Forall_app. split.
    + generalize (stale_users w). intros us.
      induction us as [|u us IH]; [done|].
      cbn. constructor; [by left|]. constructor; [right; by exists u|done].
    + eapply Forall_impl; [exact Hlogs|]. intros e He. by left.
Qed.

(** *** Shutdown *)

(** The connections of the sessions in the registry, oldest entry
    first. *)
Definition session_connections (w : world) : list nat :=
  omap (λ e : string * nat, conn ∘ info <$> heap w !! e.2)
    (activeConnections w).

Lemma close_entry_spec e w :
  ∃ w',
    close_entry e w = (Ret (), w') ∧
    activeConnections w' = activeConnections w ∧
    heap w' = heap w ∧ conns w' = conns w ∧ timers w' = timers w ∧
    trace w' =
      trace w ++ Log Info ("Closing connection for " +:+ e.1) ::
      match heap w !! e.2 with
      | Some cl => [Close (conn (info cl))]
      | None => []
      end.
Proof.
  unfold close_entry. unfold_monad. wsimpl.
  destruct (heap w !! e.2) as [cl|].
  - unfold try_catch, close. wsimpl.
    destruct (conns w !! conn (info cl)) as [[? ? ? [err|]]|];
      eexists; (split; [reflexivity|]); wsimpl;
      by rewrite <-app_assoc.
  - eexists. split; [reflexivity|]. by wsimpl.
Qed.

Lemma forEach_close es w :
  ∃ w',
    forEach es close_entry w = (Ret (), w') ∧
    activeConnections w' = activeConnections w ∧
    heap w' = heap w ∧ conns w' = conns w ∧ timers w' = timers w ∧
    actions (drop (length (trace w)) (trace w')) =
      Close <$> omap (λ e : string * nat, conn ∘ info <$> heap w !! e.2) es.
Proof.
  revert w. induction es as [|e es IH]; intros w.
  { exists w. cbn. by rewrite drop_all. }
  destruct (close_entry_spec e w) as (w1 & E1 & Hr1 & Hh1 & Hc1 & Ht1 & Htr1).
  destruct (IH w1) as (w2 & E2 & Hr2 & Hh2 & Hc2 & Ht2 & Htr2).
  exists w2. cbn [forEach]. unfold mbind, M_bind. rewrite E1, E2.
  split_and!; try congruence.
  assert (trace w1 `prefix_of` trace w2) as [suf Esuf].
  { clear -E2. revert w1 w2 E2. induction es as [|e' es IH']; intros w1 w2 E2.
    - cbn in E2. by injection E2 as ->.
    - cbn [forEach] in E2. unfold mbind, M_bind in E2.
      destruct (close_entry_spec e' w1) as (w3 & E3 & _ & _ & _ & _ & Htr3).
      rewrite E3 in E2. etrans; [|by apply (IH' w3)].
      rewrite Htr3. by apply prefix_app_r. }
  rewrite Esuf, drop_app_length in Htr2.
  rewrite Esuf, Htr1, <-app_assoc, drop_app_length, actions_app, Htr2.
  rewrite Hh1. cbn [omap list_omap].
  destruct (heap w !! e.2) as [cl|] eqn:Ecl; cbn; rewrite ?Ecl; by cbn.
Qed.

(** The shutdown loop calls [close] on the connection of every session in
    the registry, oldest entry first; it does so for all of them also when
    a [close] throws, and it does nothing else but logging. *)
Theorem close_all_closes_every_session w :
  ∃ w',
    close_all w = (Ret (), w') ∧
    actions (since w w') = Close <$> session_connections w ∧
    activeConnections w' = activeConnections w ∧
    timers w' = timers w.
Proof.
  unfold close_all. unfold_monad.
  destruct (forEach_close (activeConnections w) w)
    as (w' & E & Hr & _ & _ & Ht & Htr).
  exists w'. by rewrite E.
Qed.

End registry.

(** *** The address the server listens on *)

(** [getLocalIpAddress] returns the address of the first interface entry,
    in the order of the listing, that is IPv4 and not internal, and
    [127.0.0.1] when there is none. *)
Theorem local_address_is_first_external_IPv4
    (interfaces : list (string * list networkInterface)) :
  getLocalIpAddress interfaces =
  default "127.0.0.1"
    (address <$> head (filter (λ i, external_IPv4 i = true)
                         (concat (interfaces.*2)))).
Proof.
  induction interfaces as [|[name l] rest IH]; [done|].
  cbn [getLocalIpAddress fmap list_fmap snd concat]. rewrite filter_app.
  induction l as [|i l IHl]; [by rewrite IH|].
  cbn [first_external]. rewrite filter_cons.
  destruct (external_IPv4 i) eqn:Ei.
  - by rewrite decide_True.
  - by rewrite decide_False.
Qed.

End RegistryFacts.
(** ** The processing timer and the queue of the gateway with
    snapshot-and-clear *)
Module FixedQueueFacts.
Import Fixed TraceFacts FixedFacts.

(** An entry made now that is not a push. *)
Definition aside (t : N) (e : entry) : Prop :=
  at_time e = t ∧ ∀ it, what e ≠ Push it.

Lemma pushed_aside t suf : Forall (aside t) suf → pushed suf = [].
Proof.
  induction 1 as [|[t' by_ e] suf [_ He] _ IH]; [done|].
  change (mkEntry t' by_ e :: suf) with ([mkEntry t' by_ e] ++ suf).
  rewrite pushed_app, IH, app_nil_r. cbn in He.
  destruct e; try done. by destruct (He it).
Qed.

(** [w'] comes from [w] by steps that leave the queue, the processing
    timer, the sessions and the clock alone and push nothing. *)
Record quiet (w w' : world) : Prop := mkQuiet {
  q_queue : uploadQueue w' = uploadQueue w;
  q_timer : processTimer w' = processTimer w;
  q_sessions : userSessions w' = userSessions w;
  q_now : now w' = now w;
  q_trace : ∃ suf, trace w' = trace w ++ suf ∧ Forall (aside (now w)) suf
}.

Lemma quiet_refl w : quiet w w.
Proof. split; try done. exists []. by rewrite app_nil_r. Qed.

Lemma quiet_emit w w' by_ e :
  (∀ it, e ≠ Push it) → quiet w w' → quiet w (emit by_ e w').
Proof.
  intros He [H1 H2 H3 H4 (suf & H5 & H6)]. split; try done.
  exists (suf ++ [mkEntry (now w') by_ e]). fsimpl.
  rewrite H5, app_assoc. split; [done|].
  apply Forall_app. split; [done|]. by repeat constructor.
Qed.

Lemma quiet_same w w' w'' :
  quiet w w' →
  uploadQueue w'' = uploadQueue w' → processTimer w'' = processTimer w' →
  userSessions w'' = userSessions w' → now w'' = now w' →
  trace w'' = trace w' → quiet w w''.
Proof.
  intros [H1 H2 H3 H4 (suf & H5 & H6)] E1 E2 E3 E4 E5.
  split; [congruence..|]. exists suf. split; [congruence|done].
Qed.

Lemma quiet_set_task w w' tid t : quiet w w' → quiet w (set_task tid t w').
Proof. intros H. by apply (quiet_same w w'). Qed.

Lemma quiet_with_nextTimer w w' n :
  quiet w w' → quiet w (with_nextTimer n w').
Proof. intros H. by apply (quiet_same w w'). Qed.

Lemma quiet_with_fs w w' f : quiet w w' → quiet w (with_fs f w').
Proof. intros H. by apply (quiet_same w w'). Qed.

Section sched.
Context (CONFIG : config) (userMappings : userMappings_t).
Context (basename : string → string).

Local Abbreviation handle := (handle CONFIG userMappings basename).
Local Abbreviation reachable := (reachable CONFIG userMappings basename).

Lemma quiet_loop_head w w' tid t :
  quiet w w' → quiet w (loop_head CONFIG basename tid t w').
Proof.
  intros H. unfold loop_head, uploadToEgnyte, finish.
  destruct (filesToProcess t !! i t); apply quiet_set_task.
  - do 3 (apply quiet_emit; [done|]). done.
  - do 2 (apply quiet_emit; [done|]). done.
Qed.

Lemma quiet_pace w w' tid t :
  quiet w w' → quiet w (pace CONFIG basename tid t w').
Proof.
  intros H. unfold pace. destruct (decide _).
  - apply quiet_set_task, quiet_with_nextTimer.
    do 2 (apply quiet_emit; [done|]). done.
  - by apply quiet_loop_head.
Qed.

Lemma quiet_body_rest w tid t item o :
  quiet w (body_rest CONFIG basename tid t item o w).
Proof.
  unfold body_rest. destruct o; [|destruct (unlinkSync _ _)];
    apply quiet_pace.
  - do 2 (apply quiet_emit; [done|]). apply quiet_refl.
  - do 3 (apply quiet_emit; [done|]). apply quiet_with_fs, quiet_refl.
  - do 3 (apply quiet_emit; [done|]). apply quiet_refl.
Qed.

(** An item as the STOR listener builds it for a user of the mapping. *)
Definition item_ok (it : item) : Prop :=
  ∃ userInfo,
    userMappings !! username it = Some userInfo ∧
    fileName it = basename (localPath it) ∧
    egnytePath it = User.egnytePath userInfo +:+ "/" +:+ fileName it.

Record sched (w : world) : Prop := mkSched {
  sc_timer : uploadQueue w = [] ↔ processTimer w = None;
  sc_due : ∀ id due, processTimer w = Some (id, due) →
    Forall (λ e, ∀ it, what e = Push it → (at_time e + IDLE_TIMEOUT ≤ due)%N)
      (trace w);
  sc_past : Forall (λ e, (at_time e ≤ now w)%N) (trace w);
  sc_sessions : ∀ c s, userSessions w !! c = Some s →
    userMappings !! s_username s = Some (s_userInfo s);
  sc_items : Forall item_ok (pushed (trace w))
}.

Lemma sched_quiet w w' : sched w → quiet w w' → sched w'.
Proof.
  intros [H1 H2 H3 H4 H5] [Q1 Q2 Q3 Q4 (suf & Q5 & Q6)].
  split; rewrite ?Q1, ?Q2, ?Q3, ?Q4, ?Q5; try done.
  - intros id due Hd. apply Forall_app. split; [by eapply H2|].
    eapply Forall_impl; [exact Q6|]. intros e [_ He] it Hit. by destruct (He it).
  - apply Forall_app. split; [done|].
    eapply Forall_impl; [exact Q6|]. intros e [-> _]. lia.
  - by rewrite pushed_app, (pushed_aside _ _ Q6), app_nil_r.
Qed.

(** The sessions change, or time passes. *)
Lemma sched_later w w' :
  sched w →
  uploadQueue w' = uploadQueue w → processTimer w' = processTimer w →
  (∀ c s, userSessions w' !! c = Some s →
     userMappings !! s_username s = Some (s_userInfo s)) →
  (now w ≤ now w')%N →
  (∃ suf, trace w' = trace w ++ suf ∧ Forall (aside (now w)) suf) →
  sched w'.
Proof.
  intros [H1 H2 H3 H4 H5] Q1 Q2 Q3 Q4 (suf & Q5 & Q6).
  split; rewrite ?Q1, ?Q2, ?Q5; try done.
  - intros id due Hd. apply Forall_app. split; [by eapply H2|].
    eapply Forall_impl; [exact Q6|]. intros e [_ He] it Hit. by destruct (He it).
  - apply Forall_app. split.
    + eapply Forall_impl; [exact H3|]. intros e He. cbn in He. lia.
    + eapply Forall_impl; [exact Q6|]. intros e [-> _]. lia.
  - by rewrite pushed_app, (pushed_aside _ _ Q6), app_nil_r.
Qed.

Ltac asides :=
  eexists; split;
  [ rewrite <-?app_assoc; reflexivity
  | repeat constructor; done ].

Lemma login_sched c username password w :
  sched w → sched (login CONFIG userMappings c username password w).
Proof.
  intros Hw. unfold login. destruct (conns w !! c) as [ip|]; [|done].
  destruct (userMappings_get userMappings username) as [userInfo| |] eqn:Hu.
  - apply userMappings_get_Own in Hu. destruct (decide _).
    + apply (sched_later w); fsimpl; try done; [|asides].
      intros c' s' [[<- <-]|[_ Hs]]%lookup_insert_Some; [done|].
      by eapply (sc_sessions w).
    + apply (sched_later w); fsimpl; try done; [apply Hw|asides].
  - apply (sched_later w); fsimpl; try done; [apply Hw|asides].
  - apply (sched_later w); fsimpl; try done; [apply Hw|asides].
Qed.

Lemma on_close_sched c w : sched w → sched (on_close c w).
Proof.
  intros Hw. unfold on_close. destruct (userSessions w !! c); [|done].
  apply (sched_later w); fsimpl; try done; [|asides].
  intros c' s' [_ Hs]%lookup_delete_Some. by eapply (sc_sessions w).
Qed.

Lemma on_end_sched c w : sched w → sched (on_end c w).
Proof.
  intros Hw. unfold on_end. destruct (userSessions w !! c); [|done].
  apply (sched_later w); fsimpl; try done; [|asides].
  intros c' s' [_ Hs]%lookup_delete_Some. by eapply (sc_sessions w).
Qed.

(** A push, with the restart of the processing timer that follows it. *)
Lemma sched_restart w w' it id suf :
  sched w → item_ok it →
  uploadQueue w' = uploadQueue w ++ [it] →
  processTimer w' = Some (id, (now w + IDLE_TIMEOUT)%N) →
  userSessions w' = userSessions w → now w' = now w →
  trace w' = trace w ++ suf →
  Forall (λ e, at_time e = now w) suf → pushed suf = [it] →
  sched w'.
Proof.
  intros [H1 H2 H3 H4 H5] Hit Q1 Q2 Q3 Q4 Q5 Q6 Q7.
  assert (Forall (λ e, (at_time e ≤ now w)%N) (trace w ++ suf)) as Hpast.
  { apply Forall_app. split; [done|].
    eapply Forall_impl; [exact Q6|]. intros e ->. lia. }
  split; rewrite ?Q1, ?Q2, ?Q3, ?Q4, ?Q5; try done.
  - split; [by intros [_ ?]%app_eq_nil|done].
  - intros id' due [= <- <-].
    eapply Forall_impl; [exact Hpast|]. intros e He it' _. cbn in He. lia.
  - rewrite pushed_app, Q7. apply Forall_app. split; [done|].
    by repeat constructor.
Qed.

Lemma on_STOR_sched c error filePath w :
  sched w → sched (on_STOR basename c error filePath w).
Proof.
  intros Hw. unfold on_STOR.
  destruct error as [e|].
  { apply (sched_later w); fsimpl; try done; [apply Hw|asides]. }
  destruct (userSessions w !! c) as [session|] eqn:Hs; [|done].
  destruct (statSync _ _) as [size|]; fsimpl.
  2:{ apply (sched_later w); fsimpl; try done; [apply Hw|asides]. }
  unfold startProcessTimer. fsimpl.
  set (it := mkItem (nextOid w) filePath
               (User.egnytePath (s_userInfo session) +:+ "/" +:+
                basename filePath) (basename filePath) (s_username session)).
  assert (item_ok it) as Hit.
  { exists (s_userInfo session). split; [|done]. by eapply (sc_sessions w). }
  destruct (processTimer w) as [[id due]|].
  - eapply (sched_restart w _ it); fsimpl.
    7:{ rewrite <-?app_assoc. reflexivity. }
    all: try done. cbn. by repeat constructor.
  - eapply (sched_restart w _ it); fsimpl.
    7:{ rewrite <-?app_assoc. reflexivity. }
    all: try done. cbn. by repeat constructor.
Qed.

Lemma processUploadQueue_quiet w :
  ∃ w0, quiet w0 (processUploadQueue CONFIG basename w) ∧
    uploadQueue w0 = [] ∧ processTimer w0 = processTimer w ∧
    userSessions w0 = userSessions w ∧ now w0 = now w ∧
    ∃ suf, trace w0 = trace w ++ suf ∧ Forall (aside (now w)) suf.
Proof.
  unfold processUploadQueue. destruct (uploadQueue w) as [|it q] eqn:Eq.
  - eexists. split; [apply quiet_refl|]. fsimpl. split_and!; try done.
    asides.
  - cbv zeta. eexists. split; [apply quiet_loop_head, quiet_refl|].
    fsimpl. split_and!; try done. asides.
Qed.

Lemma drain_start_sched w :
  sched w → sched (with_processTimer None (processUploadQueue CONFIG basename w)).
Proof.
  intros [H1 H2 H3 H4 H5].
  destruct (processUploadQueue_quiet w)
    as (w0 & [Q1 Q2 Q3 Q4 (suf & Q5 & Q6)] & E1 & E2 & E3 & E4 &
        suf0 & E5 & E6).
  split; fsimpl; rewrite ?Q1, ?Q3, ?Q4, ?Q5, ?E1, ?E3, ?E4, ?E5; try done.
  - apply Forall_app. split; [apply Forall_app; split; [done|]|].
    + eapply Forall_impl; [exact E6|]. intros e [-> _]. lia.
    + eapply Forall_impl; [exact Q6|]. intros e [-> _]. rewrite E4. lia.
  - by rewrite !pushed_app, (pushed_aside _ _ Q6), (pushed_aside _ _ E6),
      !app_nil_r.
Qed.

Lemma processTimer_fires_sched w :
  sched w → sched (processTimer_fires CONFIG basename w).
Proof.
  intros Hw. unfold processTimer_fires.
  destruct (processTimer w) as [[id due]|] eqn:Et; [|done].
  destruct (decide _); [|done].
  apply drain_start_sched.
  apply (sched_later w); fsimpl; try done; [apply Hw|asides].
Qed.

Lemma dispatch_sched c f w :
  (∀ w, sched w → sched (f w)) → sched w → sched (dispatch c f w).
Proof.
  intros Hf. unfold dispatch. generalize (filter (λ c', c' = c) (listeners w)).
  intros l. revert w. induction l as [|x l IH]; intros w Hw; [done|].
  cbn [fold_left]. by apply IH, Hf.
Qed.

Lemma handle_sched w e : sched w → sched (handle w e).
Proof.
  intros Hw.
  destruct e as [ip|c user pass|c error filePath|c|c| |tid o|tid|d|p size|p];
    cbn [Fixed.handle].
  - eapply sched_quiet; [done|].
    apply (quiet_same w w); [apply quiet_refl|done..].
  - by apply login_sched.
  - apply dispatch_sched; [|done]. intros. by apply on_STOR_sched.
  - apply dispatch_sched; [|done]. intros. by apply on_close_sched.
  - apply dispatch_sched; [|done]. intros. by apply on_end_sched.
  - by apply processTimer_fires_sched.
  - eapply sched_quiet; [done|]. unfold upload_settled.
    destruct (tasks w !! tid) as [t|]; [|apply quiet_refl].
    destruct (at_ t); try apply quiet_refl.
    destruct (filesToProcess t !! i t); [|apply quiet_refl].
    apply quiet_body_rest.
  - eapply sched_quiet; [done|]. unfold elapsed.
    destruct (tasks w !! tid) as [t|]; [|apply quiet_refl].
    destruct (at_ t); try apply quiet_refl.
    destruct (decide _); [|apply quiet_refl].
    apply quiet_loop_head, quiet_refl.
  - apply (sched_later w); fsimpl; try done; [apply Hw|lia|].
    exists []. by rewrite app_nil_r.
  - eapply sched_quiet; [done|]. apply quiet_with_fs, quiet_refl.
  - eapply sched_quiet; [done|]. apply quiet_with_fs, quiet_refl.
Qed.

Lemma reachable_sched w : reachable w → sched w.
Proof.
  intros [es ->]. induction es as [|e es IH] using rev_ind.
  - split; done.
  - rewrite run_step. by apply handle_sched.
Qed.

(** The processing timer is pending exactly while the queue holds an item:
    no stored file waits without a timer, and the timer never starts a
    drain on an empty queue. *)
Theorem timer_is_pending_while_files_wait w :
  reachable w → (uploadQueue w = [] ↔ processTimer w = None).
Proof. intros Hr. by apply reachable_sched. Qed.

(** When the processing timer is due, the last file was received at least
    [IDLE_TIMEOUT] ago: every further file postpones the drain. *)
Theorem drain_waits_for_a_quiet_period w id due :
  reachable w → processTimer w = Some (id, due) → (due ≤ now w)%N →
  ∀ e it, e ∈ trace w → what e = Push it →
    (at_time e + IDLE_TIMEOUT ≤ now w)%N.
Proof.
  intros Hr Ht Hdue e it He Hit.
  pose proof (sc_due w (reachable_sched w Hr) id due Ht) as H.
  rewrite Forall_forall in H. specialize (H e He it Hit). lia.
Qed.

(** Every file that was queued, and so every file that a drain attempts,
    belongs to a user of the mapping and goes to the folder that the
    mapping gives for this user, under its own base name. *)
Theorem queued_file_goes_to_the_folder_of_its_user w it :
  reachable w →
  it ∈ pushed (trace w) ∨ (∃ tid, it ∈ attempts_of tid (trace w)) →
  ∃ userInfo,
    userMappings !! username it = Some userInfo ∧
    fileName it = basename (localPath it) ∧
    egnytePath it = User.egnytePath userInfo +:+ "/" +:+ fileName it.
Proof.
  intros Hr Hit.
  assert (it ∈ pushed (trace w)) as Hin.
  { destruct Hit as [?|[tid Hit]]; [done|].
    pose proof (reachable_inv CONFIG userMappings basename w Hr) as Hw.
    destruct (attempted_in_snapshot CONFIG w tid it Hw Hit)
      as (t & Etid & Hfiles).
    rewrite (inv_conserve CONFIG w Hw). apply elem_of_app. left.
    apply (elem_of_concat_lookup _ tid (filesToProcess t)); [|done].
    by rewrite list_lookup_fmap, Etid. }
  pose proof (sc_items w (reachable_sched w Hr)) as H.
  rewrite Forall_forall in H. by apply H.
Qed.

End sched.
End FixedQueueFacts.
(** ** The idle timers of the production gateway *)
Module IdleTimerFacts.
Import Production ProductionFacts.

Lemma insert_last {A} (l : list A) (x y : A) :
  <[length l := x]> (l ++ [y]) = l ++ [x].
Proof.
  induction l as [|a l IH]; [done|].
  change (<[length (a :: l) := x]> ((a :: l) ++ [y]))
    with (a :: <[length l := x]> (l ++ [y])).
  by rewrite IH.
Qed.

Section idle.
Context (CONFIG : config) (userMappings : userMappings_t).
Context (egnyteClient : option EgnyteClient.t).
Context (basename dirname extname : string → string).
Context (JSON_parse : string → option string).

Local Abbreviation handle :=
  (handle CONFIG userMappings egnyteClient basename dirname extname
     JSON_parse).
Local Abbreviation reachable :=
  (reachable CONFIG userMappings egnyteClient basename dirname extname
     JSON_parse).

(** Every pending idle timer is the one that its scope holds in
    [idleTimer], and it is due [timer_delay IDLE_TIMEOUT] after the
    [lastActivity] of the scope; timer identifiers are not reused. *)
Record timed (w : world) : Prop := mkTimed {
  tm_fresh : ∀ id t, timers w !! id = Some t → id < nextTimer w;
  tm_idle : ∀ id t ref,
    timers w !! id = Some t → cb t = IdleTimeout ref →
    ∃ cl, heap w !! ref = Some cl ∧ idleTimer cl = id ∧
      due t =
        (lastActivity (info cl) + timer_delay (IDLE_TIMEOUT CONFIG))%N
}.

Lemma timed_frame w w' :
  timed w → timers w' = timers w → heap w' = heap w →
  nextTimer w' = nextTimer w → timed w'.
Proof. intros [H1 H2] Et Eh En. split; rewrite ?Et, ?Eh, ?En; done. Qed.

Lemma timed_clear id n w :
  timed w → n = nextTimer w → timed (with_timers (delete id) n w).
Proof.
  intros [H1 H2] ->. split; wsimpl.
  - intros id' t [_ H]%lookup_delete_Some. by eapply H1.
  - intros id' t ref [_ H]%lookup_delete_Some. by apply H2.
Qed.

Lemma timed_auto t ref w :
  timed w →
  timed (with_timers (insert (nextTimer w) (mkTimer t (AutoDisconnect ref)))
           (S (nextTimer w)) w).
Proof.
  intros [H1 H2]. split; wsimpl.
  - intros id' t' [[<- _]|[_ H]]%lookup_insert_Some; [lia|].
    apply H1 in H. lia.
  - intros id' t' ref' [[<- <-]|[_ H]]%lookup_insert_Some; [done|].
    by apply H2.
Qed.

(** The steps that touch neither the timers nor the scopes. *)
Lemma timed_emit e w : timed w → timed (emit e w).
Proof. intros. by apply (timed_frame w). Qed.

Lemma keeps_timed_lift f :
  (∀ w, timers (f w) = timers w ∧ heap (f w) = heap w ∧
        nextTimer (f w) = nextTimer w) →
  keeps timed (lift f).
Proof. intros Hf w Hw. destruct (Hf w) as (? & ? & ?). by apply (timed_frame w). Qed.

Lemma keeps_timed_logger l msg : keeps timed (logger l msg).
Proof. intros w Hw. by apply timed_emit. Qed.

Lemma keeps_timed_ask {A} (f : world → A) : keeps timed (ask f).
Proof. by intros w Hw. Qed.

Lemma keeps_timed_reject e : keeps timed (reject e).
Proof. intros w Hw. by apply timed_emit. Qed.

Lemma keeps_timed_close c : keeps timed (close c).
Proof.
  intros w Hw. unfold close.
  destruct (conns w !! c) as [[? ? ? [e|]]|]; by apply timed_emit.
Qed.

Lemma keeps_timed_clearTimeout id : keeps timed (clearTimeout id).
Proof. intros w Hw. by apply timed_emit, timed_clear. Qed.

Lemma keeps_timed_setTimeout_auto ref d :
  keeps timed (setTimeout (AutoDisconnect ref) d).
Proof. intros w Hw. by apply timed_emit, timed_auto. Qed.

Lemma keeps_timed_fs_statSync p : keeps timed (fs_statSync p).
Proof. intros w Hw. unfold fs_statSync. by destruct (statSync p (fs w)). Qed.

Lemma keeps_timed_fs_unlinkSync p : keeps timed (fs_unlinkSync p).
Proof.
  intros w Hw. unfold fs_unlinkSync.
  destruct (unlinkSync p (fs w)); by apply (timed_frame w).
Qed.

Lemma keeps_timed_park ref a b c : keeps timed (park ref a b c).
Proof. intros w Hw. by apply (timed_frame w). Qed.

Lemma keeps_timed_map_delete k : keeps timed (lift (map_delete k)).
Proof. intros w Hw. by apply (timed_frame w). Qed.

Lemma timed_cleanup label w : timed w → timed (cleanup label w).
Proof. intros Hw. rewrite cleanup_eq. by apply (timed_frame w). Qed.

Lemma keeps_timed_cleanup label : keeps timed (lift (cleanup label)).
Proof. intros w Hw. by apply timed_cleanup. Qed.

Lemma timed_exec {A} (m : M world A) w :
  keeps timed m → timed w → timed (exec m w).
Proof.
  intros Hm Hw. unfold exec. specialize (Hm w Hw).
  destruct (m w) as [[a|e] w']; [done | by apply timed_emit].
Qed.

Ltac timed_tac :=
  repeat first
    [ apply keeps_ret
    | apply keeps_throw
    | apply keeps_bind; [|intros ?]
    | apply keeps_try_catch; [|intros ?]
    | by apply keeps_timed_logger
    | by apply keeps_timed_reject
    | by apply keeps_timed_ask
    | by apply keeps_timed_clearTimeout
    | by apply keeps_timed_setTimeout_auto
    | by apply keeps_timed_close
    | by apply keeps_timed_fs_statSync
    | by apply keeps_timed_fs_unlinkSync
    | by apply keeps_timed_park
    | by apply keeps_timed_map_delete
    | by apply keeps_timed_cleanup
    | match goal with
      | |- keeps _ (match ?x with _ => _ end) => destruct x
      end ].

Lemma keeps_timed_idle_timeout ref cl : keeps timed (idle_timeout ref cl).
Proof. unfold idle_timeout. timed_tac. Qed.

Lemma keeps_timed_on_close cl : keeps timed (on_close CONFIG cl).
Proof. unfold on_close. timed_tac. Qed.

Lemma keeps_timed_on_error cl e : keeps timed (on_error cl e).
Proof. unfold on_error. timed_tac. Qed.

Lemma keeps_timed_on_end cl : keeps timed (on_end cl).
Proof. unfold on_end. timed_tac. Qed.

Lemma keeps_timed_auto_disconnect cl : keeps timed (auto_disconnect cl).
Proof. unfold auto_disconnect. timed_tac. Qed.

Lemma keeps_timed_sweep : keeps timed sweep.
Proof. unfold sweep. timed_tac. Qed.

Lemma keeps_timed_after_upload cl p r :
  keeps timed (after_upload CONFIG cl p r).
Proof. unfold after_upload. timed_tac. Qed.

(** [resetIdleTimer], called in the scope it belongs to. *)
Lemma resetIdleTimer_timed ref cl w :
  timed w → heap w !! ref = Some cl →
  ∃ w' cl',
    resetIdleTimer CONFIG ref cl w = (Ret (), w') ∧ timed w' ∧
    heap w' !! ref = Some cl' ∧ length (heap w') = length (heap w) ∧
    (∀ r, r ≠ ref → heap w' !! r = heap w !! r) ∧
    conn (info cl') = conn (info cl) ∧
    lastActivity (info cl') = now w ∧
    timers w' !! idleTimer cl' =
      Some (mkTimer (now w + timer_delay (IDLE_TIMEOUT CONFIG))
              (IdleTimeout ref)).
Proof.
  intros [H1 H2] Hcl. apply lookup_lt_Some in Hcl as Hlt.
  unfold resetIdleTimer. unfold_monad. wsimpl.
  eexists _, _. split; [reflexivity|]. wsimpl. split_and!.
  - split; wsimpl.
    + intros id t [[<- _]|[_ [_ H]%lookup_delete_Some]]%lookup_insert_Some;
        [lia|]. apply H1 in H. lia.
    + intros id t ref' [[<- <-]|[Hne [Hne' H]%lookup_delete_Some]]
        %lookup_insert_Some.
      * intros [= <-]. eexists. split; [by apply list_lookup_insert_eq|].
        done.
      * intros Hcb. destruct (H2 id t ref' H Hcb) as (cl0 & Hcl0 & Hid & Hdue).
        destruct (decide (ref' = ref)) as [->|Hr].
        { rewrite Hcl in Hcl0. injection Hcl0 as <-. done. }
        exists cl0. by rewrite list_lookup_insert_ne.
  - by apply list_lookup_insert_eq.
  - by rewrite length_insert.
  - intros r Hr. by rewrite list_lookup_insert_ne.
  - done.
  - done.
  - by rewrite lookup_insert_eq.
Qed.

Lemma resetIdleTimer_keeps ref cl w :
  timed w → heap w !! ref = Some cl →
  timed (exec (resetIdleTimer CONFIG ref cl) w).
Proof.
  intros Hw Hcl.
  destruct (resetIdleTimer_timed ref cl w Hw Hcl) as (w' & cl' & E & H & _).
  unfold exec. by rewrite E.
Qed.

Lemma on_STOR_timed ref cl error filePath w :
  timed w → heap w !! ref = Some cl →
  timed (exec (on_STOR CONFIG egnyteClient basename extname ref cl error
                 filePath) w).
Proof.
  intros Hw Hcl.
  destruct (resetIdleTimer_timed ref cl w Hw Hcl) as (w' & cl' & E & H & _).
  unfold exec, on_STOR. unfold mbind at 1, M_bind at 1. rewrite E.
  match goal with
  | |- context [match ?m w' with _ => _ end] =>
      assert (keeps timed m) as K by timed_tac;
      specialize (K w' H); destruct (m w') as [[a|e] w'']
  end; [done | by apply timed_emit].
Qed.

Lemma dispatch_timed c f w :
  (∀ ref cl w, timed w → heap w !! ref = Some cl →
     timed (exec (f ref cl) w)) →
  timed w → timed (dispatch c f w).
Proof.
  intros Hf. unfold dispatch. generalize (scopes_on c w). intros refs.
  revert w. induction refs as [|ref refs IH]; intros w Hw; [done|].
  cbn [fold_left]. apply IH.
  destruct (heap w !! ref) as [cl|] eqn:Hcl; [by apply Hf | done].
Qed.

Lemma settle_timed id net w :
  timed w →
  timed (exec (settle CONFIG egnyteClient basename dirname JSON_parse id net)
           w).
Proof.
  intros Hw. unfold exec, settle.
  destruct (parked w !! id) as [p|]; [|done].
  destruct egnyteClient as [client|]; [|done].
  destruct (heap w !! p_ref p) as [cl|]; [|done].
  cbn [now trace with_parked].
  destruct (EgnyteClient.uploadFile _ _ _ _ _ _ _ _ _ _ _) as [r tr].
  pose proof (keeps_timed_after_upload cl p r) as K.
  match goal with
  | |- context [after_upload _ _ _ _ ?w1] =>
      assert (timed w1) as Hw1 by (by apply (timed_frame w));
      specialize (K w1 Hw1);
      destruct (after_upload CONFIG cl p r w1) as [[a|e] w']
  end; [done | by apply timed_emit].
Qed.

Lemma fire_timed id w : timed w → timed (fire id w).
Proof.
  intros Hw. unfold fire. destruct (timers w !! id) as [t|]; [|done].
  destruct (decide _); [|done].
  assert (timed (with_timers (delete id) (nextTimer w) w)) as Hw1
    by (by apply timed_clear).
  destruct (cb t) as [ref|ref];
    (destruct (heap _ !! ref) as [cl|]; [|done]); apply timed_exec; try done.
  - apply keeps_timed_idle_timeout.
  - apply keeps_timed_auto_disconnect.
Qed.

(** What [login] does to the timers and to the scopes. *)
Lemma login_timers c k u p w :
  conns w !! c = Some k →
  let w' := (login CONFIG userMappings c u p w).2 in
  (timers w' = timers w ∧ heap w' = heap w ∧ nextTimer w' = nextTimer w) ∨
  (timers w' =
     <[nextTimer w :=
         mkTimer (now w + timer_delay (IDLE_TIMEOUT CONFIG))
           (IdleTimeout (length (heap w)))]>
       (timers w) ∧
   (∃ userInfo,
      heap w' =
        heap w ++ [mkClosure (mkConnectionInfo c u userInfo (now w) (now w))
                     (nextTimer w)]) ∧
   nextTimer w' = S (nextTimer w)).
Proof.
  intros Hc. cbv zeta. unfold login. unfold_monad.
  rewrite Hc, !cleanup_eq. wsimpl.
  destruct (decide _); wsimpl; [by left|].
  destruct (userMappings_get userMappings u) as [userInfo| |]; wsimpl;
    [|by left..].
  destruct (decide _); wsimpl; [by left|].
  right.
  destruct (JSMap.get u _) as [old|]; wsimpl.
  - destruct (heap w !! old) as [cl|]; wsimpl.
    + unfold try_catch, close. wsimpl.
      destruct (conns w !! conn (info cl)) as [[? ? ? [e|]]|]; wsimpl;
        (split_and!; [done| |done]); exists userInfo;
        by rewrite insert_last.
    + split_and!; [done| |done]. exists userInfo.
      by rewrite insert_last.
  - split_and!; [done| |done]. exists userInfo. by rewrite insert_last.
Qed.

Lemma login_timed c u p w :
  timed w → timed (exec (login CONFIG userMappings c u p) w).
Proof.
  intros Hw.
  assert (timed (login CONFIG userMappings c u p w).2) as H.
  { destruct (conns w !! c) as [k|] eqn:Hc.
    2:{ by rewrite (login_no_connection CONFIG userMappings c u p w Hc). }
    destruct (login_timers c k u p w Hc)
      as [(Et & Eh & En)|(Et & (userInfo & Eh) & En)].
    { by apply (timed_frame w). }
    destruct Hw as [H1 H2]. split; rewrite ?Et, ?Eh, ?En.
    - intros id t [[<- _]|[_ H]]%lookup_insert_Some; [lia|].
      apply H1 in H. lia.
    - intros id t ref [[<- <-]|[_ H]]%lookup_insert_Some.
      + intros [= <-]. eexists.
        split; [by rewrite lookup_app_r, Nat.sub_diag by done|done].
      + intros Hcb. destruct (H2 id t ref H Hcb) as (cl & Hcl & Hid & Hdue).
        exists cl. split; [|done]. by apply lookup_app_l_Some. }
  unfold exec. destruct (login _ _ _ _ _ w) as [[r|e] w'];
    [done | by apply timed_emit].
Qed.

Lemma handle_timed w e : timed w → timed (handle w e).
Proof.
  intros Hw. destruct e; cbn [Production.handle].
  - by apply (timed_frame w).
  - by apply login_timed.
  - apply dispatch_timed; [|done]. intros. by apply on_STOR_timed.
  - apply dispatch_timed; [|done]. intros. by apply resetIdleTimer_keeps.
  - by apply settle_timed.
  - apply dispatch_timed; [|done]. intros. apply timed_exec; [|done].
    apply keeps_timed_on_close.
  - apply dispatch_timed; [|done]. intros. apply timed_exec; [|done].
    apply keeps_timed_on_error.
  - apply dispatch_timed; [|done]. intros. apply timed_exec; [|done].
    apply keeps_timed_on_end.
  - by apply fire_timed.
  - apply timed_exec; [|done]. apply keeps_timed_sweep.
  - by apply (timed_frame w).
  - by apply (timed_frame w).
  - by apply (timed_frame w).
  - by apply (timed_frame w).
  - by apply (timed_frame w).
Qed.

Lemma reachable_timed w : reachable w → timed w.
Proof.
  revert w. apply reachable_ind.
  - split; intros id t; cbn; by rewrite lookup_empty.
  - intros w e _ Hw. by apply handle_timed.
Qed.

(** A pending idle timer is the current timer of its session and is due
    the idle delay after the last activity recorded for the session, where
    the idle delay is [IDLE_TIMEOUT] when that lies between 1 and
    2147483647 ms and 1 ms otherwise: no session has two idle timers
    pending, and none is disconnected for idleness sooner than the idle
    delay after its last login, upload or command. *)
Theorem idle_timer_is_due_after_last_activity w id t ref :
  reachable w → timers w !! id = Some t → cb t = IdleTimeout ref →
  (∃ cl, heap w !! ref = Some cl ∧ idleTimer cl = id ∧
     due t =
       (lastActivity (info cl) + timer_delay (IDLE_TIMEOUT CONFIG))%N) ∧
  (∀ id' t', timers w !! id' = Some t' → cb t' = IdleTimeout ref → id' = id).
Proof.
  intros Hr Ht Hcb. destruct (reachable_timed w Hr) as [_ H].
  destruct (H id t ref Ht Hcb) as (cl & Hcl & Hid & Hdue).
  split; [by exists cl|].
  intros id' t' Ht' Hcb'.
  destruct (H id' t' ref Ht' Hcb') as (cl' & Hcl' & Hid' & _).
  congruence.
Qed.

End idle.
End IdleTimerFacts.
(** ** Who may queue a file on the ftpd gateway *)
Module FtpdFacts.
Import Ftpd TraceFacts.

Ltac dsimpl :=
  cbn [uploadQueue userSessions currentUser tasks drainTimers nextTimer
       nextOid now fs trace emit with_queue with_sessions with_currentUser
       with_tasks with_drainTimers with_nextOid with_now with_fs with_trace
       console_log console_error set_task].

(** [w'] comes from [w] by steps that leave the sessions alone and push
    nothing. *)
Definition calm (w w' : world) : Prop :=
  userSessions w' = userSessions w ∧ pushed (trace w') = pushed (trace w).

Lemma calm_refl w : calm w w.
Proof. done. Qed.

Lemma calm_emit w w' by_ e :
  (∀ it, e ≠ Push it) → calm w w' → calm w (emit by_ e w').
Proof.
  intros He [H1 H2]. split; [done|]. dsimpl. rewrite pushed_app, H2.
  destruct e; try by rewrite app_nil_r. by destruct (He it).
Qed.

Lemma calm_same w w' w'' :
  calm w w' → userSessions w'' = userSessions w' → trace w'' = trace w' →
  calm w w''.
Proof. intros [H1 H2] E1 E2. split; congruence. Qed.

Lemma calm_set_task w w' tid t : calm w w' → calm w (set_task tid t w').
Proof. intros H. by apply (calm_same w w'). Qed.

Lemma calm_with_tasks w w' ts : calm w w' → calm w (with_tasks ts w').
Proof. intros H. by apply (calm_same w w'). Qed.

Lemma calm_with_queue w w' q : calm w w' → calm w (with_queue q w').
Proof. intros H. by apply (calm_same w w'). Qed.

Lemma calm_with_fs w w' f : calm w w' → calm w (with_fs f w').
Proof. intros H. by apply (calm_same w w'). Qed.

Lemma calm_with_drainTimers w w' l n :
  calm w w' → calm w (with_drainTimers l n w').
Proof. intros H. by apply (calm_same w w'). Qed.

Lemma calm_with_currentUser w w' l :
  calm w w' → calm w (with_currentUser l w').
Proof. intros H. by apply (calm_same w w'). Qed.

Lemma calm_with_now w w' t : calm w w' → calm w (with_now t w').
Proof. intros H. by apply (calm_same w w'). Qed.

Ltac calm_tac :=
  repeat first
    [ assumption
    | apply calm_refl
    | apply calm_set_task
    | apply calm_with_tasks
    | apply calm_with_queue
    | apply calm_with_fs
    | apply calm_with_drainTimers
    | apply calm_with_currentUser
    | apply calm_with_now
    | apply calm_emit; [done|] ].

Section auth.
Context (CONFIG : config) (userMappings : userMappings_t).
Context (basename : string → string).

Local Abbreviation handle := (handle CONFIG userMappings basename).
Local Abbreviation run := (run CONFIG userMappings basename).

Lemma calm_loop_head w w' tid t :
  calm w w' → calm w (loop_head CONFIG tid t w').
Proof.
  intros H. unfold loop_head, uploadToEgnyte, console_log.
  destruct (uploadQueue w' !! next_index t); calm_tac.
Qed.

Lemma calm_body_rest w tid t item o :
  calm w (body_rest CONFIG tid t item o w).
Proof.
  unfold body_rest, console_log, console_error.
  destruct o; [|destruct (unlinkSync _ _)].
  - apply calm_loop_head. calm_tac.
  - cbv zeta. destruct (not_last _ _); [calm_tac|].
    apply calm_loop_head. calm_tac.
  - apply calm_loop_head. calm_tac.
Qed.

(** An item as the [file:stored] listener builds it for a user of the
    mapping. *)
Definition item_ok (it : item) : Prop :=
  ∃ userInfo,
    userMappings !! username it = Some userInfo ∧
    fileName it = basename (localPath it) ∧
    egnytePath it =
      replace_first_double_slash
        (User.egnytePath userInfo +:+ "/" +:+ fileName it).

Record auth (w : world) : Prop := mkAuth {
  au_sessions : ∀ c s, userSessions w !! c = Some s →
    userMappings !! s_username s = Some (s_userInfo s);
  au_items : Forall item_ok (pushed (trace w))
}.

Lemma auth_calm w w' : auth w → calm w w' → auth w'.
Proof. intros [H1 H2] [Q1 Q2]. split; by rewrite ?Q1, ?Q2. Qed.

Lemma handle_auth w e : auth w → auth (handle w e).
Proof.
  intros Hw.
  destruct e as [|c user|c pass|c filePath|c|id|tid o|tid|d|p size|p];
    cbn [Ftpd.handle].
  - apply (auth_calm w); [done|]. calm_tac.
  - apply (auth_calm w); [done|]. unfold command_user.
    destruct (currentUser w !! c); [|calm_tac].
    destruct (userMappings_get userMappings user); calm_tac.
  - unfold command_pass, console_log.
    destruct (currentUser w !! c) as [[[|a u]|]|];
      try (apply (auth_calm w); [done|]; solve [calm_tac]).
    destruct (userMappings_get userMappings (String a u))
      as [userInfo| |] eqn:Hu;
      [|apply (auth_calm w); [done|]; calm_tac..].
    apply userMappings_get_Own in Hu.
    destruct (decide _); [|apply (auth_calm w); [done|]; calm_tac].
    destruct Hw as [H1 H2]. split; dsimpl.
    + intros c' s [[<- <-]|[_ Hs]]%lookup_insert_Some; [done|].
      by eapply H1.
    + rewrite !pushed_app. cbn. by rewrite !app_nil_r.
  - unfold file_stored. destruct (currentUser w !! c); [|done].
    destruct (userSessions w !! c) as [session|] eqn:Hs; [|done].
    destruct Hw as [H1 H2]. split; dsimpl; [done|].
    rewrite !pushed_app. cbn. rewrite !app_nil_r.
    apply Forall_app. split; [done|]. repeat constructor.
    exists (s_userInfo session). split; [by eapply H1|done].
  - unfold on_end. destruct (currentUser w !! c); [|done].
    destruct (userSessions w !! c) as [session|] eqn:Hs; [|done].
    destruct Hw as [H1 H2]. split; dsimpl.
    + intros c' s [_ Hs']%lookup_delete_Some. by eapply H1.
    + rewrite !pushed_app. cbn. by rewrite !app_nil_r.
  - apply (auth_calm w); [done|]. unfold drainTimer_fires.
    destruct (list_find _ _) as [[k [id' due]]|]; [|calm_tac].
    destruct (decide _); [|calm_tac].
    unfold processUploadQueue, console_log. dsimpl.
    destruct (uploadQueue w); [calm_tac|].
    apply calm_loop_head. calm_tac.
  - apply (auth_calm w); [done|]. unfold upload_settled.
    destruct (tasks w !! tid) as [t|]; [|calm_tac].
    destruct (at_ t); try solve [calm_tac]. destruct (current t); [|calm_tac].
    apply calm_body_rest.
  - apply (auth_calm w); [done|]. unfold elapsed.
    destruct (tasks w !! tid) as [t|]; [|calm_tac].
    destruct (at_ t); try solve [calm_tac]. destruct (decide _); [|calm_tac].
    apply calm_loop_head. calm_tac.
  - apply (auth_calm w); [done|]. calm_tac.
  - apply (auth_calm w); [done|]. calm_tac.
  - apply (auth_calm w); [done|]. calm_tac.
Qed.

(** On the ftpd gateway every session belongs to a user of the mapping,
    and every file that was queued belongs to such a user and goes to the
    folder that the mapping gives for this user, under its own base
    name. *)
Theorem ftpd_queues_only_for_sessions_of_mapped_users es :
  (∀ c s, userSessions (run init es) !! c = Some s →
     userMappings !! s_username s = Some (s_userInfo s)) ∧
  (∀ it, it ∈ pushed (trace (run init es)) →
     ∃ userInfo,
       userMappings !! username it = Some userInfo ∧
       fileName it = basename (localPath it) ∧
       egnytePath it =
         replace_first_double_slash
           (User.egnytePath userInfo +:+ "/" +:+ fileName it)).
Proof.
  assert (auth (run init es)) as [H1 H2].
  { induction es as [|e es IH] using rev_ind.
    - split; [|done]. intros c s. cbn. by rewrite lookup_empty.
    - unfold Ftpd.run. rewrite fold_left_app. by apply handle_auth. }
  split; [done|]. intros it Hit. rewrite Forall_forall in H2. by apply H2.
Qed.

End auth.
End FtpdFacts.
(** ** What a drain has handed to the upload function, along a trace *)
Module AttemptFacts.
Import TraceFacts.

Lemma attempts_of_app tid tr1 tr2 :
  attempts_of tid (tr1 ++ tr2) = attempts_of tid tr1 ++ attempts_of tid tr2.
Proof. unfold attempts_of. by rewrite attempt_log_app, fmap_app. Qed.

Lemma attempts_of_quiet tid tr suf :
  attempt_log tid suf = [] → attempts_of tid (tr ++ suf) = attempts_of tid tr.
Proof.
  intros E. rewrite attempts_of_app. unfold attempts_of at 2.
  by rewrite E, app_nil_r.
Qed.

End AttemptFacts.

(** ** The backup gateway: its queue and its drains *)
Module SimpleQueueFacts.
Import Simple TraceFacts AttemptFacts.

Ltac ssimpl :=
  cbn [uploadQueue tasks drainTimers nextTimer nextOid now fs trace emit
       with_queue with_tasks with_drainTimers with_nextOid with_now with_fs
       with_trace console_log console_error set_task snapshot i success
       failed at_].

Lemma remove_item_cons it x q :
  remove_item it (x :: q) =
    if decide (oid x = oid it) then q else x :: remove_item it q.
Proof.
  unfold remove_item. cbn [indexOf]. destruct (decide _); [done|].
  by destruct (indexOf it q).
Qed.

Lemma remove_item_sublist it q : sublist (remove_item it q) q.
Proof.
  induction q as [|x q IH]; [done|]. rewrite remove_item_cons.
  destruct (decide _); [by apply sublist_cons | by apply sublist_skip].
Qed.

Lemma remove_item_keeps it q x :
  x ∈ q → x ∈ remove_item it q ∨ oid x = oid it.
Proof.
  induction q as [|y q IH]; [by intros ?%elem_of_nil|].
  rewrite remove_item_cons. intros [->|Hx]%elem_of_cons.
  - destruct (decide _); [by right | left; by left].
  - destruct (decide _); [by left|].
    destruct (IH Hx); [left; by right | by right].
Qed.

Lemma same_oid_same_item (l : list item) x y :
  NoDup (oid <$> l) → x ∈ l → y ∈ l → oid x = oid y → x = y.
Proof.
  induction l as [|z l IH]; [by intros _ ?%elem_of_nil|].
  cbn. intros [Hz Hnd]%NoDup_cons [->|Hx]%elem_of_cons [->|Hy]%elem_of_cons E.
  - done.
  - destruct Hz. rewrite E. by apply list_elem_of_fmap_2.
  - destruct Hz. rewrite <-E. by apply list_elem_of_fmap_2.
  - by apply IH.
Qed.

(** How many items of its copy a drain has handed to the upload function,
    and for how many of them the upload has settled. *)
Definition attempted (t : task) : nat :=
  match at_ t with
  | Returned => length (snapshot t)
  | _ => S (i t)
  end.

Definition settled (t : task) : nat :=
  match at_ t with
  | AwaitUpload => i t
  | AwaitDelay _ => S (i t)
  | Returned => length (snapshot t)
  end.

(** The lines that a drain prints when it starts, when an item is done and
    when it returns. *)
Definition announced (t : task) : string :=
  "Processing " +:+ pretty (length (snapshot t)) +:+ " files...".

Definition done_with (it : item) : string :=
  "Uploaded and deleted: " +:+ fileName it.

Definition summary (t : task) : string :=
  "Upload complete: " +:+ pretty (success t) +:+ " success, " +:+
  pretty (failed t) +:+ " failed".

Definition said (tr : list entry) (tid : nat) (msg : string) : Prop :=
  ∃ time, mkEntry time (Some tid) (Log Info msg) ∈ tr.

Lemma said_app tr suf tid msg : said tr tid msg → said (tr ++ suf) tid msg.
Proof. intros [time H]. exists time. apply elem_of_app. by left. Qed.

Lemma said_last tr time tid msg :
  said (tr ++ [mkEntry time (Some tid) (Log Info msg)]) tid msg.
Proof. exists time. apply elem_of_app. right. by left. Qed.

(** A drain between two steps of the event loop. *)
Record drain_ok (tr : list entry) (tid : nat) (t : task) : Prop := mkDrainOk {
  dk_attempts : attempts_of tid tr = take (attempted t) (snapshot t);
  dk_bound : at_ t ≠ Returned → i t < length (snapshot t);
  dk_counts : success t + failed t = settled t;
  dk_report : at_ t = Returned → said tr tid (summary t);
  dk_announced : said tr tid (announced t);
  dk_pushed : ∀ it, it ∈ snapshot t → it ∈ pushed tr
}.

(** A drain at the head of its loop, about to look at element [i]. *)
Record head_ok (tr : list entry) (tid : nat) (t : task) : Prop := mkHeadOk {
  hk_attempts : attempts_of tid tr = take (i t) (snapshot t);
  hk_bound : i t ≤ length (snapshot t);
  hk_counts : success t + failed t = i t;
  hk_announced : said tr tid (announced t);
  hk_pushed : ∀ it, it ∈ snapshot t → it ∈ pushed tr
}.

Lemma drain_ok_app tr suf tid t :
  drain_ok tr tid t → attempt_log tid suf = [] → drain_ok (tr ++ suf) tid t.
Proof.
  intros [H1 H2 H3 H4 H5 H6] E. split; try done.
  - by rewrite attempts_of_quiet.
  - intros Hr. by apply said_app, H4.
  - by apply said_app.
  - intros it Hit. rewrite pushed_app. apply elem_of_app. left. by apply H6.
Qed.

Lemma head_ok_app tr suf tid t :
  head_ok tr tid t → attempt_log tid suf = [] → head_ok (tr ++ suf) tid t.
Proof.
  intros [H1 H2 H3 H4 H5] E. split; try done.
  - by rewrite attempts_of_quiet.
  - by apply said_app.
  - intros it Hit. rewrite pushed_app. apply elem_of_app. left. by apply H5.
Qed.

Lemma head_ok_log tr time by_ l msg tid t :
  head_ok tr tid t → head_ok (tr ++ [mkEntry time by_ (Log l msg)]) tid t.
Proof. intros H. apply head_ok_app; [done|]. by apply attempt_log_inert. Qed.

Lemma head_ok_unlink tr time by_ p tid t :
  head_ok tr tid t → head_ok (tr ++ [mkEntry time by_ (Unlink p)]) tid t.
Proof. intros H. apply head_ok_app; [done|]. by apply attempt_log_inert. Qed.

(** What a step of the drain [tid] leaves as it is: it pushes nothing,
    attempts nothing for another drain, and touches no other drain. *)
Record ext (tid : nat) (w w' : world) : Prop := mkExt {
  ex_trace : ∃ suf, trace w' = trace w ++ suf ∧ pushed suf = [] ∧
               ∀ tid', tid' ≠ tid → attempt_log tid' suf = [];
  ex_oid : nextOid w' = nextOid w;
  ex_tasks : ∀ tid', tid' ≠ tid → tasks w' !! tid' = tasks w !! tid';
  ex_len : length (tasks w) ≤ length (tasks w')
}.

Lemma ext_refl tid w : ext tid w w.
Proof.
  split; try done. exists []. by rewrite app_nil_r.
Qed.

Lemma ext_emit tid w w' e :
  (∀ it, e ≠ Push it) → ext tid w w' → ext tid w (emit (Some tid) e w').
Proof.
  intros He [(suf & E1 & E2 & E3) H2 H3 H4]. split; try done. ssimpl.
  exists (suf ++ [mkEntry (now w') (Some tid) e]). split_and!.
  - by rewrite E1, app_assoc.
  - rewrite pushed_app, E2. destruct e; try done. by destruct (He it).
  - intros tid' Hne. rewrite attempt_log_app, (E3 tid' Hne).
    by apply attempt_log_other.
Qed.

Lemma ext_same tid w w' w'' :
  ext tid w w' → trace w'' = trace w' → nextOid w'' = nextOid w' →
  tasks w'' = tasks w' → ext tid w w''.
Proof.
  intros [(suf & E1 & E2 & E3) H2 H3 H4] Et Eo Ets. split.
  - exists suf. by rewrite Et.
  - congruence.
  - intros tid' Hne. rewrite Ets. by apply H3.
  - by rewrite Ets.
Qed.

Lemma ext_with_fs tid w w' f : ext tid w w' → ext tid w (with_fs f w').
Proof. intros H. by apply (ext_same tid w w'). Qed.

Lemma ext_with_queue tid w w' q : ext tid w w' → ext tid w (with_queue q w').
Proof. intros H. by apply (ext_same tid w w'). Qed.

Lemma ext_with_drainTimers tid w w' l n :
  ext tid w w' → ext tid w (with_drainTimers l n w').
Proof. intros H. by apply (ext_same tid w w'). Qed.

Lemma ext_set_task tid w w' t : ext tid w w' → ext tid w (set_task tid t w').
Proof.
  intros [H1 H2 H3 H4]. split; try done; ssimpl.
  - intros tid' Hne. rewrite list_lookup_insert_ne by done. by apply H3.
  - by rewrite length_insert.
Qed.

Lemma ext_new_task w t :
  ext (length (tasks w)) w (with_tasks (tasks w ++ [t]) w).
Proof.
  split; try done; ssimpl.
  - exists []. by rewrite app_nil_r.
  - intros tid' Hne. destruct (decide (tid' < length (tasks w))).
    + by rewrite lookup_app_l.
    + rewrite !lookup_ge_None_2; [done|lia|]. rewrite length_app. cbn. lia.
  - rewrite length_app. lia.
Qed.

Lemma ext_trans tid w w' w'' : ext tid w w' → ext tid w' w'' → ext tid w w''.
Proof.
  intros [(s1 & E1 & E2 & E3) H2 H3 H4] [(s2 & F1 & F2 & F3) G2 G3 G4].
  split.
  - exists (s1 ++ s2). split_and!.
    + by rewrite F1, E1, app_assoc.
    + by rewrite pushed_app, E2, F2.
    + intros tid' Hne. by rewrite attempt_log_app, E3, F3.
  - congruence.
  - intros tid' Hne. rewrite G3 by done. by apply H3.
  - lia.
Qed.

Ltac ext_tac :=
  repeat first
    [ assumption
    | apply ext_refl
    | apply ext_set_task
    | apply ext_with_fs
    | apply ext_with_queue
    | apply ext_with_drainTimers
    | apply ext_emit; [done|] ].

Section facts.
Context (CONFIG : config) (userMappings : userMappings_t).
Context (basename : string → string) (path_join : string → string → string).

Local Abbreviation handle := (handle CONFIG userMappings basename path_join).
Local Abbreviation run := (run CONFIG userMappings basename path_join).
Local Abbreviation loop_head := (loop_head CONFIG basename).
Local Abbreviation body_rest := (body_rest CONFIG basename).
Local Abbreviation processUploads := (processUploads CONFIG basename).

(** An item as the [upload] listener builds it: for a user of the mapping,
    or for a user name that the mapping has through [Object.prototype]
    only, where the folder reads undefined. *)
Definition item_ok (it : item) : Prop :=
  localPath it = path_join (SCAN_DIR CONFIG) (fileName it) ∧
  ((∃ userInfo,
      userMappings !! username it = Some userInfo ∧
      egnytePath it = User.egnytePath userInfo +:+ "/" +:+ fileName it) ∨
   (userMappings !! username it = None ∧
    username it ∈ Object_prototype ∧
    egnytePath it = "undefined" +:+ "/" +:+ fileName it)).

(** The item was handed to the upload function by a drain that has then
    deleted the local file and reported the item as done. *)
Definition gone (tr : list entry) (it : item) : Prop :=
  ∃ tid, it ∈ attempts_of tid tr ∧ said tr tid (done_with it).

Lemma gone_app tr suf it : gone tr it → gone (tr ++ suf) it.
Proof.
  intros (tid & H1 & H2). exists tid. split; [|by apply said_app].
  rewrite attempts_of_app. apply elem_of_app. by left.
Qed.

Record sinv (w : world) : Prop := mkSinv {
  sv_queue : sublist (uploadQueue w) (pushed (trace w));
  sv_oids : oid <$> pushed (trace w) = seq 0 (nextOid w);
  sv_gone : ∀ it, it ∈ pushed (trace w) →
    it ∈ uploadQueue w ∨ gone (trace w) it;
  sv_items : Forall item_ok (pushed (trace w));
  sv_fresh : ∀ tid, length (tasks w) ≤ tid → attempt_log tid (trace w) = [];
  sv_tasks : ∀ tid t, tasks w !! tid = Some t → drain_ok (trace w) tid t
}.

Lemma sinv_pushed_NoDup w : sinv w → NoDup (oid <$> pushed (trace w)).
Proof. intros H. rewrite (sv_oids w H). apply NoDup_seq. Qed.

(** A step that pushes nothing. *)
Lemma sinv_grow w w' suf :
  sinv w →
  trace w' = trace w ++ suf → pushed suf = [] →
  nextOid w' = nextOid w →
  sublist (uploadQueue w') (uploadQueue w) →
  (∀ it, it ∈ uploadQueue w → it ∈ uploadQueue w' ∨ gone (trace w') it) →
  (∀ tid, length (tasks w') ≤ tid →
     length (tasks w) ≤ tid ∧ attempt_log tid suf = []) →
  (∀ tid t, tasks w' !! tid = Some t →
     drain_ok (trace w') tid t ∨
     (tasks w !! tid = Some t ∧ attempt_log tid suf = [])) →
  sinv w'.
Proof.
  intros [H1 H2 H3 H4 H5 H6] Et Ep Eo Hq Hg Hf Ht.
  assert (pushed (trace w') = pushed (trace w)) as Epush
    by (by rewrite Et, pushed_app, Ep, app_nil_r).
  split.
  - rewrite Epush. by etrans.
  - by rewrite Epush, Eo.
  - intros it Hit. rewrite Epush in Hit.
    destruct (H3 it Hit) as [Hin|Hgone]; [by apply Hg|].
    right. rewrite Et. by apply gone_app.
  - by rewrite Epush.
  - intros tid Htid. destruct (Hf tid Htid) as [Hlt E].
    by rewrite Et, attempt_log_app, E, H5.
  - intros tid t Etid. destruct (Ht tid t Etid) as [Hok|[Eold E]]; [done|].
    rewrite Et. apply drain_ok_app; [|done]. by apply H6.
Qed.

Lemma sinv_inert w w' suf :
  sinv w →
  tasks w' = tasks w → uploadQueue w' = uploadQueue w →
  nextOid w' = nextOid w →
  trace w' = trace w ++ suf → Forall (λ e, inert (what e)) suf →
  sinv w'.
Proof.
  intros Hw Ets Eq Eo Et Hsuf.
  apply (sinv_grow w w' suf); try done.
  - by apply FixedFacts.pushed_inert_all.
  - by rewrite Eq.
  - intros it Hit. left. by rewrite Eq.
  - intros tid Htid. rewrite Ets in Htid. split; [done|].
    by apply FixedFacts.attempt_log_inert_all.
  - intros tid t Etid. right. rewrite Ets in Etid. split; [done|].
    by apply FixedFacts.attempt_log_inert_all.
Qed.

Lemma sinv_field w w' :
  sinv w →
  tasks w' = tasks w → uploadQueue w' = uploadQueue w →
  nextOid w' = nextOid w → trace w' = trace w →
  sinv w'.
Proof.
  intros. eapply (sinv_inert w w' []); try done. by rewrite app_nil_r.
Qed.

(** A step of the drain [tid]. *)
Lemma sinv_drain w w' tid t' :
  sinv w → ext tid w w' →
  tasks w' !! tid = Some t' → drain_ok (trace w') tid t' →
  sublist (uploadQueue w') (uploadQueue w) →
  (∀ it, it ∈ uploadQueue w → it ∈ uploadQueue w' ∨ gone (trace w') it) →
  sinv w'.
Proof.
  intros Hw [(suf & E1 & E2 & E3) H2 H3 H4] Etid Hok Hq Hg.
  apply (sinv_grow w w' suf); try done.
  - intros tid' Hlen. split; [lia|]. apply E3. intros ->.
    apply lookup_lt_Some in Etid. lia.
  - intros tid' t Etid'. destruct (decide (tid' = tid)) as [->|Hne].
    + left. congruence.
    + right. split; [by rewrite <-H3 | by apply E3].
Qed.

Lemma ext_loop_head w0 w tid t :
  ext tid w0 w → ext tid w0 (loop_head tid t w).
Proof.
  intros H. unfold Simple.loop_head, uploadToEgnyte, console_log.
  destruct (snapshot t !! i t); ext_tac.
Qed.

Lemma loop_head_drain w tid t :
  head_ok (trace w) tid t → tid < length (tasks w) →
  ∃ t', tasks (loop_head tid t w) !! tid = Some t' ∧
        drain_ok (trace (loop_head tid t w)) tid t'.
Proof.
  intros [H1 H2 H3 H4 H5] Hlt. unfold Simple.loop_head.
  destruct (snapshot t !! i t) as [item|] eqn:Eitem.
  - eexists. split.
    { unfold uploadToEgnyte. ssimpl. by apply list_lookup_insert_eq. }
    unfold uploadToEgnyte. ssimpl.
    split; unfold attempted, settled; ssimpl.
    + rewrite !attempts_of_app, H1.
      rewrite (take_S_r _ _ item Eitem).
      unfold attempts_of at 1 2 3.
      rewrite attempt_log_attempt, !attempt_log_inert by done.
      cbn. by rewrite !app_nil_r.
    + intros _. by apply lookup_lt_Some in Eitem.
    + done.
    + done.
    + by do 3 apply said_app.
    + intros it Hit. rewrite !pushed_app. cbn. rewrite !app_nil_r.
      by apply H5.
  - apply lookup_ge_None in Eitem. eexists. split.
    { ssimpl. by apply list_lookup_insert_eq. }
    ssimpl. split; unfold attempted, settled; ssimpl.
    + rewrite attempts_of_quiet by (by apply attempt_log_inert).
      rewrite H1. f_equal. lia.
    + done.
    + lia.
    + intros _. apply said_last.
    + by apply said_app.
    + intros it Hit. rewrite pushed_app. cbn. rewrite app_nil_r.
      by apply H5.
Qed.

Lemma loop_head_sinv w0 w tid t :
  sinv w0 → ext tid w0 w → head_ok (trace w) tid t →
  tid < length (tasks w) →
  sublist (uploadQueue w) (uploadQueue w0) →
  (∀ it, it ∈ uploadQueue w0 → it ∈ uploadQueue w ∨ gone (trace w) it) →
  sinv (loop_head tid t w).
Proof.
  intros Hw0 Hext Hhead Hlt Hq Hg.
  destruct (loop_head_drain w tid t Hhead Hlt) as (t' & Etid & Hok).
  pose proof (ext_loop_head w w tid t (ext_refl tid w))
    as [(suf & Et & _) _ _ _].
  apply (sinv_drain w0 _ tid t'); try done.
  - by apply ext_loop_head.
  - by rewrite SimpleFacts.loop_head_queue.
  - intros it Hit. rewrite SimpleFacts.loop_head_queue.
    destruct (Hg it Hit) as [Hin|Hgone]; [by left|].
    right. rewrite Et. by apply gone_app.
Qed.

Lemma init_sinv : sinv init.
Proof.
  split; try done. intros it Hit. by apply elem_of_nil in Hit.
Qed.

Lemma sinv_emit by_ e w : inert e → sinv w → sinv (emit by_ e w).
Proof.
  intros He Hw. eapply (sinv_inert w _ [mkEntry (now w) by_ e]); try done.
  by repeat constructor.
Qed.

Lemma sinv_with_drainTimers l n w : sinv w → sinv (with_drainTimers l n w).
Proof. intros Hw. by apply (sinv_field w). Qed.

Lemma login_sinv w username password :
  sinv w → sinv (login userMappings username password w).
Proof.
  intros Hw. unfold login, console_log.
  destruct (userMappings_get userMappings username) as [userInfo| |];
    [destruct (decide _)| |]; by repeat apply sinv_emit.
Qed.

Lemma on_upload_sinv w filename user :
  sinv w → sinv (on_upload CONFIG userMappings path_join filename user w).
Proof.
  intros Hw. unfold on_upload, console_log. cbv zeta.
  destruct (truthy _) eqn:Etruthy; [|done].
  assert (item_ok
    (mkItem (nextOid w) (path_join (SCAN_DIR CONFIG) filename)
       (template (egnytePath_of (userMappings_get userMappings user)) +:+
        "/" +:+ filename) filename user)) as Hitem.
  { split; [done|]. cbn [username egnytePath fileName].
    destruct (userMappings_get userMappings user) as [userInfo| |] eqn:Eget;
      [left|right|done].
    - exists userInfo. by apply userMappings_get_Own in Eget.
    - by apply userMappings_get_Inherited in Eget as [? ?]. }
  destruct Hw as [H1 H2 H3 H4 H5 H6].
  set (it := mkItem _ _ _ _ _) in *. split; ssimpl.
  - rewrite !pushed_app. cbn. rewrite !app_nil_r.
    by apply sublist_app.
  - rewrite seq_S, <-H2, !pushed_app, !fmap_app. cbn.
    by rewrite !app_nil_r.
  - intros x. rewrite !pushed_app. cbn. rewrite !app_nil_r.
    intros [Hx|Hx%list_elem_of_singleton]%elem_of_app.
    + destruct (H3 x Hx) as [Hin|Hgone].
      * left. apply elem_of_app. by left.
      * right. rewrite <-!app_assoc. by apply gone_app.
    + left. apply elem_of_app. right. by apply list_elem_of_singleton.
  - rewrite !pushed_app. cbn. rewrite !app_nil_r.
    apply Forall_app. split; [done|]. by apply Forall_singleton.
  - intros tid Htid. rewrite !attempt_log_app, H5 by done.
    by rewrite FixedFacts.attempt_log_push, !attempt_log_inert.
  - intros tid t Etid. rewrite <-!app_assoc. apply drain_ok_app.
    + by apply H6.
    + rewrite !attempt_log_app.
      by rewrite FixedFacts.attempt_log_push, !attempt_log_inert.
Qed.

Lemma on_disconnect_sinv w user : sinv w → sinv (on_disconnect user w).
Proof.
  intros Hw. unfold on_disconnect, console_log. cbv zeta.
  apply sinv_with_drainTimers. by repeat apply sinv_emit.
Qed.

Lemma processUploads_sinv w : sinv w → sinv (processUploads w).
Proof.
  intros Hw. unfold Simple.processUploads, console_log.
  destruct (uploadQueue w) as [|x q] eqn:Eq.
  - by apply sinv_emit.
  - rewrite <-Eq. cbv zeta. apply (loop_head_sinv w).
    + done.
    + apply (ext_trans _ _ (with_tasks
        (tasks w ++ [mkTask (uploadQueue w) 0 0 0 AwaitUpload]) w)).
      * apply ext_new_task.
      * ssimpl. apply (ext_same _ _
          (emit (Some (length (tasks w)))
             (Log Info ("Processing " +:+ pretty (length (uploadQueue w))
                        +:+ " files..."))
             (with_tasks
                (tasks w ++ [mkTask (uploadQueue w) 0 0 0 AwaitUpload]) w)));
          [|done..].
        apply ext_emit; [done|]. apply ext_refl.
    + ssimpl. split; ssimpl.
      * rewrite attempts_of_quiet by (by apply attempt_log_inert).
        unfold attempts_of. by rewrite (sv_fresh w Hw).
      * lia.
      * done.
      * apply said_last.
      * intros it Hit. rewrite pushed_app. cbn. rewrite app_nil_r.
        eapply elem_of_sublist; [done|]. by apply sv_queue.
    + ssimpl. rewrite length_app. cbn. lia.
    + done.
    + intros it Hit. by left.
Qed.

Lemma drainTimer_fires_sinv w id :
  sinv w → sinv (drainTimer_fires CONFIG basename id w).
Proof.
  intros Hw. unfold drainTimer_fires.
  destruct (list_find _ _) as [[k [id' due]]|]; [|done].
  destruct (decide _); [|done].
  apply processUploads_sinv. by apply (sinv_field w).
Qed.

Lemma elapsed_sinv w tid : sinv w → sinv (elapsed CONFIG basename tid w).
Proof.
  intros Hw. unfold elapsed.
  destruct (tasks w !! tid) as [t|] eqn:Etid; [|done].
  destruct (at_ t) as [|due|] eqn:Eat; try done.
  destruct (decide _); [|done].
  destruct (sv_tasks w Hw tid t Etid) as [H1 H2 H3 H4 H5 H6].
  unfold attempted in H1. unfold settled in H3. rewrite Eat in H1, H2, H3.
  apply (loop_head_sinv w); try done.
  - apply ext_refl.
  - split; ssimpl; try done. by apply H2.
  - by apply lookup_lt_Some in Etid.
  - intros it Hit. by left.
Qed.

Lemma body_rest_sinv w tid t item o :
  sinv w → tasks w !! tid = Some t → at_ t = AwaitUpload →
  snapshot t !! i t = Some item →
  sinv (body_rest tid t item o w).
Proof.
  intros Hw Etid Eat Eitem.
  destruct (sv_tasks w Hw tid t Etid) as [H1 H2 H3 H4 H5 H6].
  unfold attempted in H1. unfold settled in H3. rewrite Eat in H1, H2, H3.
  assert (i t < length (snapshot t)) as Hi by (by apply H2).
  pose proof (lookup_lt_Some _ _ _ Etid) as Hlt.
  unfold Simple.body_rest, console_log, console_error.
  destruct o as [error|]; [|destruct (unlinkSync _ _) as [fs'|]].
  - apply (loop_head_sinv w); try done.
    + ext_tac.
    + ssimpl. apply head_ok_log. split; ssimpl; try done. lia.
    + intros it Hit. by left.
  - cbv zeta. ssimpl.
    assert (gone
      ((trace w ++ [mkEntry (now w) (Some tid) (Unlink (localPath item))]) ++
       [mkEntry (now w) (Some tid) (Log Info (done_with item))]) item)
      as Hgone.
    { exists tid. split; [|apply said_last].
      rewrite !attempts_of_app, H1. apply elem_of_app. left.
      apply elem_of_app. left. apply list_elem_of_lookup. exists (i t).
      rewrite lookup_take_lt by lia. done. }
    assert (∀ it, it ∈ uploadQueue w →
      it ∈ remove_item item (uploadQueue w) ∨
      gone ((trace w ++
             [mkEntry (now w) (Some tid) (Unlink (localPath item))]) ++
            [mkEntry (now w) (Some tid) (Log Info (done_with item))]) it)
      as Hkeep.
    { intros it Hit.
      destruct (remove_item_keeps item _ it Hit) as [Hin|Hoid]; [by left|].
      right. assert (it = item) as ->; [|done].
      apply (same_oid_same_item (pushed (trace w))); try done.
      - by apply sinv_pushed_NoDup.
      - eapply elem_of_sublist; [done|]. by apply sv_queue.
      - apply H6. by apply list_elem_of_lookup_2 in Eitem. }
    destruct (remove_item item (uploadQueue w)) as [|y q] eqn:Erem.
    + apply (loop_head_sinv w); try done.
      * ext_tac.
      * ssimpl. apply head_ok_log, head_ok_unlink.
        split; ssimpl; try done. lia.
      * ssimpl. apply sublist_nil_l.
    + rewrite <-Erem in *.
      eapply (sinv_drain w _ tid).
      * done.
      * ext_tac.
      * ssimpl. by apply list_lookup_insert_eq.
      * ssimpl. rewrite <-!app_assoc. apply drain_ok_app.
        { split; unfold attempted, settled; ssimpl; try done. lia. }
        by rewrite !attempt_log_app, !attempt_log_inert.
      * ssimpl. apply remove_item_sublist.
      * ssimpl. intros it Hit. destruct (Hkeep it Hit) as [Hin|Hg];
          [by left|]. right. by apply gone_app.
  - apply (loop_head_sinv w); try done.
    + ext_tac.
    + ssimpl. apply head_ok_log, head_ok_unlink.
      split; ssimpl; try done. lia.
    + intros it Hit. by left.
Qed.

Lemma upload_settled_sinv w tid o :
  sinv w → sinv (upload_settled CONFIG basename tid o w).
Proof.
  intros Hw. unfold upload_settled.
  destruct (tasks w !! tid) as [t|] eqn:Etid; [|done].
  destruct (at_ t) eqn:Eat; try done.
  destruct (snapshot t !! i t) as [item|] eqn:Eitem; [|done].
  by apply body_rest_sinv.
Qed.

Lemma handle_sinv w e : sinv w → sinv (handle w e).
Proof.
  intros Hw. destruct e as [u p|f u|u|id|tid o|tid|d|p size|p];
    cbn [Simple.handle].
  - by apply login_sinv.
  - by apply on_upload_sinv.
  - by apply on_disconnect_sinv.
  - by apply drainTimer_fires_sinv.
  - by apply upload_settled_sinv.
  - by apply elapsed_sinv.
  - by apply (sinv_field w).
  - by apply (sinv_field w).
  - by apply (sinv_field w).
Qed.

Lemma run_sinv es : sinv (run init es).
Proof.
  induction es as [|e es IH] using rev_ind; [apply init_sinv|].
  unfold Simple.run. rewrite fold_left_app. by apply handle_sinv.
Qed.

(** In the backup gateway a drain walks the copy of the queue that it took
    when it started: it has announced the size of the copy, the items it has
    handed to the upload function are a prefix of the copy, in order, and
    its two counters add up to the number of items whose upload has settled;
    every item of the copy was pushed by the [upload] listener. A drain that
    has returned has attempted every item of its copy once and has printed
    the summary, whose two counts add up to the number of files it
    announced. *)
Theorem backup_drain_accounts_for_its_copy es tid t :
  tasks (run init es) !! tid = Some t →
  said (trace (run init es)) tid
    ("Processing " +:+ pretty (length (snapshot t)) +:+ " files...") ∧
  (∀ it, it ∈ snapshot t → it ∈ pushed (trace (run init es))) ∧
  attempts_of tid (trace (run init es)) = take (attempted t) (snapshot t) ∧
  success t + failed t = settled t ∧
  (at_ t = Returned →
   attempts_of tid (trace (run init es)) = snapshot t ∧
   success t + failed t = length (snapshot t) ∧
   said (trace (run init es)) tid
     ("Upload complete: " +:+ pretty (success t) +:+ " success, " +:+
      pretty (failed t) +:+ " failed")).
Proof.
  intros Etid.
  destruct (sv_tasks _ (run_sinv es) tid t Etid) as [H1 H2 H3 H4 H5 H6].
  split_and!; try done. intros Eat.
  unfold attempted in H1. unfold settled in H3. rewrite Eat in H1, H3.
  rewrite firstn_all in H1. split_and!; try done. by apply H4.
Qed.

(** In the backup gateway the queue holds, in the order of their arrival,
    files that were pushed by the [upload] listener, each of them once; and
    a file that was pushed and is no longer in the queue was handed to the
    upload function by a drain that has printed the line that reports the
    file as uploaded and deleted. *)
Theorem backup_file_leaves_the_queue_only_when_uploaded es :
  sublist (uploadQueue (run init es)) (pushed (trace (run init es))) ∧
  NoDup (pushed (trace (run init es))) ∧
  ∀ it, it ∈ pushed (trace (run init es)) →
    it ∈ uploadQueue (run init es) ∨
    ∃ tid, it ∈ attempts_of tid (trace (run init es)) ∧
      said (trace (run init es)) tid
        ("Uploaded and deleted: " +:+ fileName it).
Proof.
  pose proof (run_sinv es) as Hw. split_and!.
  - by apply sv_queue.
  - eapply NoDup_fmap_1. by apply sinv_pushed_NoDup.
  - by apply sv_gone.
Qed.

(** In the backup gateway the local path of every queued file is the file
    name joined to the scan directory, whoever the user is. The destination
    of a file whose user is a key of the mapping is the file name under the
    Egnyte folder of that user. The listener also queues a file for a user
    name that is no key of the mapping but names a property of
    [Object.prototype], and the destination is then the file name under a
    folder named undefined; for no other user name is a file queued. *)
Theorem backup_queued_file_destination es it :
  it ∈ uploadQueue (run init es) →
  localPath it = path_join (SCAN_DIR CONFIG) (fileName it) ∧
  ((∃ userInfo,
      userMappings !! username it = Some userInfo ∧
      egnytePath it = User.egnytePath userInfo +:+ "/" +:+ fileName it) ∨
   (userMappings !! username it = None ∧
    username it ∈ Object_prototype ∧
    egnytePath it = "undefined" +:+ "/" +:+ fileName it)).
Proof.
  intros Hit. pose proof (run_sinv es) as Hw.
  pose proof (sv_items _ Hw) as Hitems.
  rewrite Forall_forall in Hitems. apply Hitems.
  eapply elem_of_sublist; [done|]. by apply sv_queue.
Qed.

End facts.
End SimpleQueueFacts.

(** ** The ftpd gateway: how its queue changes *)
Module FtpdQueueFacts.
Import Ftpd TraceFacts FtpdFacts.

Tactic Notation "dsimpl" "in" hyp(H) :=
  cbn [uploadQueue userSessions currentUser tasks drainTimers nextTimer
       nextOid now fs trace emit with_queue with_sessions with_currentUser
       with_tasks with_drainTimers with_nextOid with_now with_fs with_trace
       console_log console_error set_task] in H.

(** [w'] comes from [w] by steps of drains: the queue is as it was or has
    been emptied, nothing was pushed, and what was handed to the upload
    function was in the queue. *)
Record walk (w w' : world) : Prop := mkWalk {
  wk_queue : uploadQueue w' = uploadQueue w ∨ uploadQueue w' = [];
  wk_trace : ∃ suf, trace w' = trace w ++ suf ∧ pushed suf = [] ∧
    ∀ tid it, it ∈ attempts_of tid suf → it ∈ uploadQueue w
}.

Lemma walk_refl w : walk w w.
Proof.
  split; [by left|]. exists []. rewrite app_nil_r. split_and!; try done.
  intros tid it Hit. by apply elem_of_nil in Hit.
Qed.

Lemma walk_emit w w' by_ e : inert e → walk w w' → walk w (emit by_ e w').
Proof.
  intros He [H1 (suf & E1 & E2 & E3)]. split; [done|]. dsimpl.
  exists (suf ++ [mkEntry (now w') by_ e]). split_and!.
  - by rewrite E1, app_assoc.
  - by rewrite pushed_app, E2, pushed_inert.
  - intros tid it. rewrite AttemptFacts.attempts_of_quiet
      by (by apply attempt_log_inert).
    apply E3.
Qed.

Lemma walk_attempt w w' tid k item :
  uploadQueue w' !! k = Some item → walk w w' →
  walk w (emit (Some tid) (Attempt item) w').
Proof.
  intros Hk [H1 (suf & E1 & E2 & E3)]. split; [done|]. dsimpl.
  exists (suf ++ [mkEntry (now w') (Some tid) (Attempt item)]). split_and!.
  - by rewrite E1, app_assoc.
  - by rewrite pushed_app, E2.
  - intros tid' it. rewrite AttemptFacts.attempts_of_app.
    intros [Hit|Hit]%elem_of_app; [by apply (E3 tid')|].
    unfold attempts_of, attempt_log in Hit. cbn in Hit.
    destruct (decide (tid = tid')); [|by apply elem_of_nil in Hit].
    apply list_elem_of_singleton in Hit as ->.
    destruct H1 as [<-|Hnil].
    + by apply list_elem_of_lookup_2 in Hk.
    + by rewrite Hnil in Hk.
Qed.

Lemma walk_same w w' w'' :
  walk w w' → uploadQueue w'' = uploadQueue w' → trace w'' = trace w' →
  walk w w''.
Proof.
  intros [H1 (suf & E1 & E2 & E3)] Eq Et. split; [by rewrite Eq|].
  exists suf. by rewrite Et.
Qed.

Lemma walk_clear w w' : walk w w' → walk w (with_queue [] w').
Proof.
  intros [H1 (suf & E1 & E2 & E3)]. split; [by right|]. by exists suf.
Qed.

Lemma walk_set_task w w' tid t : walk w w' → walk w (set_task tid t w').
Proof. intros H. by apply (walk_same w w'). Qed.

Lemma walk_with_tasks w w' ts : walk w w' → walk w (with_tasks ts w').
Proof. intros H. by apply (walk_same w w'). Qed.

Lemma walk_with_fs w w' f : walk w w' → walk w (with_fs f w').
Proof. intros H. by apply (walk_same w w'). Qed.

Lemma walk_with_drainTimers w w' l n :
  walk w w' → walk w (with_drainTimers l n w').
Proof. intros H. by apply (walk_same w w'). Qed.

Lemma walk_with_currentUser w w' l :
  walk w w' → walk w (with_currentUser l w').
Proof. intros H. by apply (walk_same w w'). Qed.

Lemma walk_with_sessions w w' m : walk w w' → walk w (with_sessions m w').
Proof. intros H. by apply (walk_same w w'). Qed.

Lemma walk_with_now w w' t : walk w w' → walk w (with_now t w').
Proof. intros H. by apply (walk_same w w'). Qed.

Ltac walk_tac :=
  repeat first
    [ assumption
    | apply walk_refl
    | apply walk_set_task
    | apply walk_with_tasks
    | apply walk_with_fs
    | apply walk_with_drainTimers
    | apply walk_with_currentUser
    | apply walk_with_sessions
    | apply walk_with_now
    | apply walk_clear
    | apply walk_emit; [done|] ].

(** The queue is the tail of what was pushed, and only pushed items were
    handed to the upload function. *)
Record tail (w : world) : Prop := mkTail {
  tl_queue : ∃ pre, pushed (trace w) = pre ++ uploadQueue w;
  tl_attempts : ∀ tid it,
    it ∈ attempts_of tid (trace w) → it ∈ pushed (trace w)
}.

Lemma tail_walk w w' : tail w → walk w w' → tail w'.
Proof.
  intros [(pre & Epre) Ha] [Hq (suf & E1 & E2 & E3)].
  assert (pushed (trace w') = pushed (trace w)) as Epush
    by (by rewrite E1, pushed_app, E2, app_nil_r).
  split.
  - rewrite Epush. destruct Hq as [->| ->]; [by exists pre|].
    exists (pre ++ uploadQueue w). by rewrite app_nil_r.
  - intros tid it. rewrite Epush, E1, AttemptFacts.attempts_of_app.
    intros [Hit|Hit]%elem_of_app; [by apply (Ha tid)|].
    rewrite Epre. apply elem_of_app. right. by apply (E3 tid).
Qed.

Section queue.
Context (CONFIG : config) (userMappings : userMappings_t).
Context (basename : string → string).

Local Abbreviation handle := (handle CONFIG userMappings basename).
Local Abbreviation run := (run CONFIG userMappings basename).
Local Abbreviation loop_head := (loop_head CONFIG).
Local Abbreviation body_rest := (body_rest CONFIG).

Lemma walk_loop_head w w' tid t : walk w w' → walk w (loop_head tid t w').
Proof.
  intros H. unfold Ftpd.loop_head, uploadToEgnyte, console_log.
  destruct (uploadQueue w' !! next_index t) as [item|] eqn:Eitem.
  - apply walk_set_task, walk_emit; [done|].
    apply (walk_attempt _ _ _ (next_index t)); [done|]. walk_tac.
  - walk_tac.
Qed.

Lemma walk_body_rest w tid t item o : walk w (body_rest tid t item o w).
Proof.
  unfold Ftpd.body_rest, console_log, console_error.
  destruct o; [|destruct (unlinkSync _ _)].
  - apply walk_loop_head. walk_tac.
  - cbv zeta. destruct (not_last _ _); [walk_tac|].
    apply walk_loop_head. walk_tac.
  - apply walk_loop_head. walk_tac.
Qed.

Lemma file_stored_tail w c filePath :
  tail w → tail (file_stored basename c filePath w).
Proof.
  intros Hw. unfold file_stored, console_log.
  destruct (currentUser w !! c); [|done].
  destruct (userSessions w !! c) as [session|]; [|done].
  destruct Hw as [(pre & Epre) Ha]. split; dsimpl.
  - exists pre. rewrite !pushed_app. cbn. rewrite !app_nil_r.
    by rewrite Epre, app_assoc.
  - intros tid it. rewrite !pushed_app. cbn. rewrite !app_nil_r.
    rewrite !AttemptFacts.attempts_of_quiet;
      [|by apply attempt_log_inert|by apply FixedFacts.attempt_log_push
       |by apply attempt_log_inert].
    intros Hit. apply elem_of_app. left. by apply (Ha tid).
Qed.

Lemma handle_tail w e : tail w → tail (handle w e).
Proof.
  intros Hw.
  destruct e as [|c user|c pass|c filePath|c|id|tid o|tid|d|p size|p];
    cbn [Ftpd.handle]; try (by apply file_stored_tail);
    apply (tail_walk w); try done.
  - walk_tac.
  - unfold command_user. destruct (currentUser w !! c); [|walk_tac].
    destruct (userMappings_get userMappings user); walk_tac.
  - unfold command_pass, console_log.
    destruct (currentUser w !! c) as [[[|a u]|]|]; try solve [walk_tac].
    destruct (userMappings_get userMappings (String a u))
      as [userInfo| |]; [|walk_tac..].
    destruct (decide _); walk_tac.
  - unfold on_end, console_log. destruct (currentUser w !! c); [|walk_tac].
    destruct (userSessions w !! c) as [session|]; walk_tac.
  - unfold drainTimer_fires.
    destruct (list_find _ _) as [[k [id' due]]|]; [|walk_tac].
    destruct (decide _); [|walk_tac].
    unfold processUploadQueue, console_log. dsimpl.
    destruct (uploadQueue w); [walk_tac|].
    apply walk_loop_head. walk_tac.
  - unfold upload_settled.
    destruct (tasks w !! tid) as [t|]; [|walk_tac].
    destruct (at_ t); try solve [walk_tac]. destruct (current t); [|walk_tac].
    apply walk_body_rest.
  - unfold elapsed.
    destruct (tasks w !! tid) as [t|]; [|walk_tac].
    destruct (at_ t); try solve [walk_tac]. destruct (decide _); [|walk_tac].
    apply walk_loop_head. walk_tac.
  - walk_tac.
  - walk_tac.
  - walk_tac.
Qed.

(** On the ftpd gateway the queue is at any time a tail of the list of the
    files stored so far, in the same order. And a drain hands to the upload
    function only files that were stored by a session. *)
Theorem ftpd_queue_is_the_tail_of_what_was_stored es :
  (∃ pre,
     pushed (trace (run init es)) = pre ++ uploadQueue (run init es)) ∧
  (∀ tid it,
     it ∈ attempts_of tid (trace (run init es)) →
     it ∈ pushed (trace (run init es))).
Proof.
  assert (tail (run init es)) as [H1 H2]; [|done].
  induction es as [|e es IH] using rev_ind.
  - split; [by exists []|]. intros tid it Hit. by apply elem_of_nil in Hit.
  - unfold Ftpd.run. rewrite fold_left_app. by apply handle_tail.
Qed.

(** What a call of the loop head does to the drains: the drain [tid] is
    left awaiting an upload, or it has returned and the queue is empty. *)
Lemma loop_head_tasks w tid t tid' t' :
  tasks (loop_head tid t w) !! tid' = Some t' →
  (tid' ≠ tid ∧ tasks w !! tid' = Some t') ∨
  (tid' = tid ∧
   (at_ t' = AwaitUpload ∨
    (at_ t' = Returned ∧ uploadQueue (loop_head tid t w) = []))).
Proof.
  unfold Ftpd.loop_head, uploadToEgnyte, console_log.
  destruct (uploadQueue w !! next_index t) as [item|]; dsimpl;
    (destruct (decide (tid' = tid)) as [->|Hne];
     [|rewrite list_lookup_insert_ne by done; by left]);
    intros Ht'; right; split; try done;
    apply list_lookup_insert_Some in Ht' as [(_ & <- & _)|[? _]]; try done.
  - by left.
  - by right.
Qed.

Lemma loop_head_fs w tid t : fs (loop_head tid t w) = fs w.
Proof.
  unfold Ftpd.loop_head, uploadToEgnyte, console_log.
  by destruct (uploadQueue w !! next_index t).
Qed.

(** In the step in which a drain of the ftpd gateway returns, the queue is
    emptied, whatever it holds: files whose upload has failed and files
    that no drain has attempted go with the rest. The step removes no local
    file but, at most, the one whose upload has just succeeded. *)
Theorem ftpd_drain_end_empties_the_queue w e tid t t' :
  tasks w !! tid = Some t → at_ t ≠ Returned →
  tasks (handle w e) !! tid = Some t' → at_ t' = Returned →
  uploadQueue (handle w e) = [] ∧
  (fs (handle w e) = fs w ∨
   ∃ item, current t = Some item ∧ e = UploadSettled tid None ∧
     fs (handle w e) = delete (localPath item) (fs w)).
Proof.
  intros Etid Hat Etid' Hat'.
  pose proof (lookup_lt_Some _ _ _ Etid) as Hlt.
  destruct e as [|c user|c pass|c filePath|c|id|tid0 o|tid0|d|p size|p];
    cbn [Ftpd.handle] in *.
  - dsimpl in Etid'. congruence.
  - unfold command_user in Etid'. destruct (currentUser w !! c);
      [destruct (userMappings_get userMappings user)|];
      dsimpl in Etid'; congruence.
  - unfold command_pass, console_log in Etid'.
    destruct (currentUser w !! c) as [[[|a u]|]|];
      [| destruct (userMappings_get userMappings (String a u));
         [destruct (decide _)| |] | |];
      dsimpl in Etid'; congruence.
  - unfold file_stored, console_log in Etid'.
    destruct (currentUser w !! c);
      [destruct (userSessions w !! c)|]; dsimpl in Etid'; congruence.
  - unfold on_end, console_log in Etid'.
    destruct (currentUser w !! c);
      [destruct (userSessions w !! c)|]; dsimpl in Etid'; congruence.
  - unfold drainTimer_fires in *.
    destruct (list_find _ _) as [[k [id' due]]|]; [|congruence].
    destruct (decide _); [|congruence].
    unfold processUploadQueue, console_log in *. dsimpl in Etid'. dsimpl.
    destruct (uploadQueue w) eqn:Eq; [dsimpl in Etid'; congruence|].
    apply loop_head_tasks in Etid' as [[Hne Hold]|[-> _]]; [|lia].
    dsimpl in Hold. rewrite lookup_app_l in Hold by done. congruence.
  - unfold upload_settled in *.
    destruct (tasks w !! tid0) as [t0|] eqn:Etid0; [|congruence].
    destruct (at_ t0) eqn:Eat0; try congruence.
    destruct (current t0) as [item|] eqn:Ecur; [|congruence].
    unfold Ftpd.body_rest, console_log, console_error in *.
    assert (tid0 = tid → t0 = t) as Hsame by (intros ->; congruence).
    destruct o as [error|]; [|destruct (unlinkSync _ _) as [fs'|] eqn:Eun].
    + apply loop_head_tasks in Etid' as [[Hne Hold]|[-> [Hup|[_ Hq]]]];
        [dsimpl in Hold; congruence | congruence |].
      split; [done|]. left. by rewrite loop_head_fs.
    + cbv zeta in *. destruct (not_last _ _).
      * dsimpl in Etid'. dsimpl.
        destruct (decide (tid = tid0)) as [->|Hne].
        { rewrite list_lookup_insert_eq in Etid' by done.
          injection Etid' as <-. done. }
        rewrite list_lookup_insert_ne in Etid' by done. congruence.
      * apply loop_head_tasks in Etid' as [[Hne Hold]|[-> [Hup|[_ Hq]]]];
          [dsimpl in Hold; congruence | congruence |].
        split; [done|]. right. exists item. rewrite (Hsame eq_refl) in Ecur.
        split; [done|]. split; [done|]. rewrite loop_head_fs. dsimpl.
        unfold unlinkSync in Eun. destruct (fs w !! localPath item); [|done].
        by injection Eun as <-.
    + apply loop_head_tasks in Etid' as [[Hne Hold]|[-> [Hup|[_ Hq]]]];
        [dsimpl in Hold; congruence | congruence |].
      split; [done|]. left. by rewrite loop_head_fs.
  - unfold elapsed in *.
    destruct (tasks w !! tid0) as [t0|] eqn:Etid0; [|congruence].
    destruct (at_ t0) eqn:Eat0; try congruence.
    destruct (decide _); [|congruence].
    apply loop_head_tasks in Etid' as [[Hne Hold]|[-> [Hup|[_ Hq]]]];
      [congruence | congruence |].
    split; [done|]. left. by rewrite loop_head_fs.
  - dsimpl in Etid'. congruence.
  - dsimpl in Etid'. congruence.
  - dsimpl in Etid'. congruence.
Qed.

End queue.
End FtpdQueueFacts.

(** ** What becomes of an item that a drain has been given *)
Module RequeueFacts.
Import TraceFacts.

Section backup.
Context (CONFIG : Simple.config) (userMappings : userMappings_t).
Context (basename : string → string) (path_join : string → string → string).
Import Simple SimpleQueueFacts.

Local Abbreviation handle := (handle CONFIG userMappings basename path_join).
Local Abbreviation run := (run CONFIG userMappings basename path_join).
Local Abbreviation loop_head := (loop_head CONFIG basename).

Lemma loop_head_keeps_files tid t w : fs (loop_head tid t w) = fs w.
Proof. unfold Simple.loop_head. by destruct (snapshot t !! i t). Qed.

Lemma loop_head_task tid t w :
  tid < length (tasks w) →
  ∃ t', tasks (loop_head tid t w) !! tid = Some t' ∧
        snapshot t' = snapshot t.
Proof.
  intros Hlt. unfold Simple.loop_head, uploadToEgnyte.
  destruct (snapshot t !! i t); ssimpl; eexists;
    (split; [by apply list_lookup_insert_eq | done]).
Qed.

(** An event leaves the queue as it is, or it is an upload of the server
    that appends an item, or it is the success of the upload that a drain
    awaits, with the local file there: the file is deleted and the item
    spliced out. *)
Lemma queue_step w e :
  uploadQueue (handle w e) = uploadQueue w ∨
  (∃ filename user it,
     e = Upload filename user ∧
     uploadQueue (handle w e) = uploadQueue w ++ [it]) ∨
  (∃ tid t item,
     e = UploadSettled tid None ∧
     tasks w !! tid = Some t ∧ at_ t = AwaitUpload ∧
     snapshot t !! i t = Some item ∧
     is_Some (fs w !! localPath item) ∧
     fs (handle w e) = delete (localPath item) (fs w) ∧
     uploadQueue (handle w e) = remove_item item (uploadQueue w)).
Proof.
  destruct e as [u p|f u|u|id|tid o|tid|d|p size|p]; cbn [Simple.handle].
  - left. unfold login, console_log.
    by destruct (userMappings_get userMappings u) as [userInfo| |];
      [destruct (decide _)| |].
  - unfold on_upload, console_log. cbv zeta.
    destruct (truthy _); [|by left].
    right. left. eexists f, u, _. split; [done|]. ssimpl. done.
  - by left.
  - left. unfold drainTimer_fires.
    destruct (list_find _ _) as [[k [id' due]]|]; [|done].
    destruct (decide _); [|done]. unfold processUploads, console_log. ssimpl.
    destruct (uploadQueue w) eqn:Eq; ssimpl; [done|].
    by rewrite SimpleFacts.loop_head_queue.
  - unfold upload_settled.
    destruct (tasks w !! tid) as [t|] eqn:Etid; [|by left].
    destruct (at_ t) eqn:Eat; try by left.
    destruct (snapshot t !! i t) as [item|] eqn:Eitem; [|by left].
    unfold body_rest, console_log, console_error, unlinkSync.
    destruct o as [error|].
    { left. by rewrite SimpleFacts.loop_head_queue. }
    destruct (fs w !! localPath item) as [size|] eqn:Efile.
    2:{ left. by rewrite SimpleFacts.loop_head_queue. }
    right. right. exists tid, t, item. cbv zeta. ssimpl.
    split_and!; try done.
    + destruct (remove_item item (uploadQueue w)); ssimpl; [|done].
      by rewrite loop_head_keeps_files.
    + destruct (remove_item item (uploadQueue w)) eqn:Er; ssimpl; [|done].
      by rewrite SimpleFacts.loop_head_queue.
  - left. unfold elapsed. destruct (tasks w !! tid) as [t|]; [|done].
    destruct (at_ t); try done. destruct (decide _); [|done].
    by rewrite SimpleFacts.loop_head_queue.
  - by left.
  - by left.
  - by left.
Qed.

Lemma failed_upload_keeps_the_queue w tid t item error :
  tasks w !! tid = Some t → at_ t = AwaitUpload →
  snapshot t !! i t = Some item →
  uploadQueue (handle w (UploadSettled tid (Some error))) = uploadQueue w.
Proof.
  intros Etid Eat Eitem. cbn [Simple.handle]. unfold upload_settled.
  rewrite Etid, Eat, Eitem. unfold body_rest.
  by rewrite SimpleFacts.loop_head_queue.
Qed.

(** A drain that starts takes the whole queue as its copy. *)
Lemma new_drain_copies_the_queue w it q :
  uploadQueue w = it :: q →
  ∃ t, tasks (processUploads CONFIG basename w) !! length (tasks w) = Some t ∧
       snapshot t = it :: q.
Proof.
  intros Eq. unfold processUploads. rewrite Eq. cbv zeta. rewrite <-Eq.
  destruct (loop_head_task (length (tasks w))
              (mkTask (uploadQueue w) 0 0 0 AwaitUpload)
              (with_tasks
                 (tasks w ++ [mkTask (uploadQueue w) 0 0 0 AwaitUpload])
                 (console_log (Some (length (tasks w)))
                    ("Processing " +:+ pretty (length (uploadQueue w)) +:+
                     " files...") w)))
    as (t' & Ht' & Hs).
  { ssimpl. rewrite length_app. cbn. lia. }
  exists t'. split; [done|]. by rewrite Hs.
Qed.

Lemma drain_attempts_its_copy es tid t :
  tasks (run init es) !! tid = Some t →
  attempts_of tid (trace (run init es)) = take (attempted t) (snapshot t) ∧
  (at_ t = Returned → attempts_of tid (trace (run init es)) = snapshot t).
Proof.
  intros Etid.
  pose proof (run_sinv CONFIG userMappings basename path_join es) as Hw.
  destruct (sv_tasks _ _ _ _ Hw tid t Etid) as [H1 _ _ _ _ _].
  split; [done|]. intros Eat. unfold attempted in H1. rewrite Eat in H1.
  by rewrite firstn_all in H1.
Qed.

End backup.

(** C9, amended. In the gateway with snapshot-and-clear, in every reachable
    state, an item that a drain has been given to upload is no longer in
    the queue, whatever became of the upload, and stays out of it: no later
    event puts it back, no other drain attempts it, and its own drain
    attempts it once. In the backup gateway an event changes the queue only
    in two ways: the upload listener appends an item, and the success of the
    upload that a drain awaits, when the local file is there, deletes the
    file and splices the item out; so a failed upload leaves the queue as
    it is. A drain that starts takes the whole queue as its copy, the items
    left from failed uploads with it, and a drain hands the items of its
    copy to the upload function in order, all of them by the time it
    returns. *)
Theorem dispatched_item_and_the_queue
    (CONFIG : Fixed.config) (SCONFIG : Simple.config)
    (userMappings : userMappings_t) (basename : string → string)
    (path_join : string → string → string) :
  (∀ w tid it es,
     Fixed.reachable CONFIG userMappings basename w →
     it ∈ attempts_of tid (Fixed.trace w) →
     (it ∉ Fixed.uploadQueue (Fixed.run CONFIG userMappings basename w es)) ∧
     (∀ tid', tid' ≠ tid →
        it ∉ attempts_of tid'
               (Fixed.trace (Fixed.run CONFIG userMappings basename w es))) ∧
     NoDup (attempts_of tid
              (Fixed.trace (Fixed.run CONFIG userMappings basename w es))))
  ∧ (∀ w e,
       let w' := Simple.handle SCONFIG userMappings basename path_join w e in
       Simple.uploadQueue w' = Simple.uploadQueue w ∨
       (∃ filename user it,
          e = Simple.Upload filename user ∧
          Simple.uploadQueue w' = Simple.uploadQueue w ++ [it]) ∨
       (∃ tid t item,
          e = Simple.UploadSettled tid None ∧
          Simple.tasks w !! tid = Some t ∧ Simple.at_ t = AwaitUpload ∧
          Simple.snapshot t !! Simple.i t = Some item ∧
          is_Some (Simple.fs w !! localPath item) ∧
          Simple.fs w' = delete (localPath item) (Simple.fs w) ∧
          Simple.uploadQueue w' =
            Simple.remove_item item (Simple.uploadQueue w)))
  ∧ (∀ w tid t item error,
       Simple.tasks w !! tid = Some t → Simple.at_ t = AwaitUpload →
       Simple.snapshot t !! Simple.i t = Some item →
       Simple.uploadQueue
         (Simple.handle SCONFIG userMappings basename path_join w
            (Simple.UploadSettled tid (Some error))) = Simple.uploadQueue w)
  ∧ (∀ w it q,
       Simple.uploadQueue w = it :: q →
       ∃ t,
         Simple.tasks (Simple.processUploads SCONFIG basename w)
           !! length (Simple.tasks w) = Some t ∧
         Simple.snapshot t = it :: q)
  ∧ (∀ es tid t,
       Simple.tasks
         (Simple.run SCONFIG userMappings basename path_join Simple.init es)
         !! tid = Some t →
       attempts_of tid
         (Simple.trace
            (Simple.run SCONFIG userMappings basename path_join Simple.init
               es)) =
         take (SimpleQueueFacts.attempted t) (Simple.snapshot t) ∧
       (Simple.at_ t = Returned →
        attempts_of tid
          (Simple.trace
             (Simple.run SCONFIG userMappings basename path_join Simple.init
                es)) = Simple.snapshot t)).
Proof.
  split_and!.
  - intros w tid it es Hr Hit. by apply FixedFacts.attempted_item_stays_out.
  - intros w e. apply queue_step.
  - intros w tid t item error. apply failed_upload_keeps_the_queue.
  - intros w it q. apply new_drain_copies_the_queue.
  - intros es tid t. apply drain_attempts_its_copy.
Qed.

End RequeueFacts.

(** ** More runs *)
Module CoverageScenarios.

(** *** The Egnyte client *)

Lemma base_url_with_or_without_suffix_witness :
  ∃ c1 c2 tr1 tr2,
    EgnyteClient.construct (Some "token") (Some "acme") [] = (Ret c1, tr1) ∧
    EgnyteClient.construct (Some "token") (Some ("acme" +:+ ".egnyte.com")) []
      = (Ret c2, tr2) ∧
    EgnyteClient.baseUrl c1 = "https://" +:+ "acme" +:+ ".egnyte.com" ∧
    EgnyteClient.baseUrl c2 = "https://" +:+ "acme" +:+ ".egnyte.com".
Proof.
  apply (EgnyteEdgeFacts.base_url_with_or_without_suffix "token" "acme" []).
  - split; discriminate.
  - discriminate.
  - reflexivity.
Defined.

(** A file that is not there: no request; a file that is there and a
    server that answers 500: the error carries the status line. *)
Lemma upload_of_missing_file_sends_no_request_witness :
  ∃ logs,
    EgnyteClient.uploadFile 30000 Examples.client (Examples.answer 200)
      Examples.basename Examples.dirname Examples.JSON_parse 0 ∅
      "scans/a.pdf" "/Shared/Userfiles/alice/a.pdf" [] =
    (Throw (newError ("Local file not found: " +:+ "scans/a.pdf")),
     [] ++ logs) ∧
    EgnyteFacts.fetches logs = [].
Proof.
  apply (EgnyteEdgeFacts.upload_of_missing_file_sends_no_request 30000
           Examples.client (Examples.answer 200) Examples.basename
           Examples.dirname Examples.JSON_parse 0 ∅).
  reflexivity.
Defined.


(** *** The processing timer of the gateway with snapshot-and-clear *)

Import QueueScenarios.

Lemma two_queued_reachable :
  Fixed.reachable fixed_cfg Examples.users Examples.basename two_queued.
Proof. eexists. reflexivity. Qed.

Lemma timer_is_pending_while_files_wait_witness :
  Fixed.uploadQueue two_queued = [a; b]
  ∧ (Fixed.uploadQueue two_queued = [] ↔ Fixed.processTimer two_queued = None).
Proof.
  split; [vm_compute; reflexivity|].
  apply (FixedQueueFacts.timer_is_pending_while_files_wait fixed_cfg
           Examples.users Examples.basename).
  exact two_queued_reachable.
Defined.

Lemma drain_waits_for_a_quiet_period_witness :
  Fixed.processTimer two_queued = Some (1, 10000%N)
  ∧ Fixed.trace two_queued !! 6 = Some (mkEntry 0 None (Push a))
  ∧ (0 + Fixed.IDLE_TIMEOUT ≤ Fixed.now two_queued)%N.
Proof.
  assert (Fixed.processTimer two_queued = Some (1, 10000%N)) as Ht
    by (vm_compute; reflexivity).
  assert (Fixed.trace two_queued !! 6 = Some (mkEntry 0 None (Push a))) as He
    by (vm_compute; reflexivity).
  split; [exact Ht|]. split; [exact He|].
  apply (FixedQueueFacts.drain_waits_for_a_quiet_period fixed_cfg
           Examples.users Examples.basename two_queued 1 10000
           two_queued_reachable Ht) with (e := mkEntry 0 None (Push a))
           (it := a).
  - vm_compute. discriminate.
  - by apply list_elem_of_lookup_2 in He.
  - reflexivity.
Defined.

Lemma queued_file_goes_to_the_folder_of_its_user_witness :
  ∃ userInfo,
    Examples.users !! username a = Some userInfo ∧
    fileName a = Examples.basename (localPath a) ∧
    egnytePath a = User.egnytePath userInfo +:+ "/" +:+ fileName a.
Proof.
  apply (FixedQueueFacts.queued_file_goes_to_the_folder_of_its_user
           fixed_cfg Examples.users Examples.basename two_queued a
           two_queued_reachable).
  left.
  assert (pushed (Fixed.trace two_queued) = [a; b]) as ->
    by (vm_compute; reflexivity).
  constructor.
Defined.

(** *** The registry of the production gateway *)

Import Production ProductionFacts ProductionScenarios.

Lemma second_login_reachable n :
  reachable (cfg n) Examples.users (Some Examples.client) Examples.basename
    Examples.dirname Examples.extname Examples.JSON_parse (second_login n).
Proof.
  exists ([Connect "10.0.0.1"; Login 0 "alice" "s1"] ++
          [Connect "10.0.0.2"; Login 1 "alice" "s1"]).
  unfold second_login, first_login, step, run. by rewrite fold_left_app.
Qed.

Lemma registry_never_exceeds_capacity_witness :
  JSMap.size (activeConnections (second_login 1)) ≤ MAX_CONNECTIONS (cfg 1).
Proof.
  apply (RegistryFacts.registry_never_exceeds_capacity (cfg 1) Examples.users
           (Some Examples.client) Examples.basename Examples.dirname
           Examples.extname Examples.JSON_parse).
  apply second_login_reachable.
Defined.

Lemma only_login_adds_a_session_witness :
  ("alice", 1) ∈
    activeConnections
      (handle (cfg 2) Examples.users (Some Examples.client)
         Examples.basename Examples.dirname Examples.extname
         Examples.JSON_parse (second_login 2) (Command 1))
  ∧ ("alice", 1) ∈ activeConnections (second_login 2).
Proof.
  assert (("alice", 1) ∈
            activeConnections
              (handle (cfg 2) Examples.users (Some Examples.client)
                 Examples.basename Examples.dirname Examples.extname
                 Examples.JSON_parse (second_login 2) (Command 1))) as H.
  { assert (activeConnections
              (handle (cfg 2) Examples.users (Some Examples.client)
                 Examples.basename Examples.dirname Examples.extname
                 Examples.JSON_parse (second_login 2) (Command 1))
            = [("alice", 1)]) as -> by (vm_compute; reflexivity).
    constructor. }
  split; [exact H|].
  apply (RegistryFacts.only_login_adds_a_session (cfg 2) Examples.users
           (Some Examples.client) Examples.basename Examples.dirname
           Examples.extname Examples.JSON_parse (second_login 2) (Command 1));
    [reflexivity|exact H].
Defined.

(** Alice has logged in a second time, on connection 1, and this session
    is the one in the registry; then connection 0, of her first login,
    closes, and the registry holds no session of alice. *)
Lemma disconnect_deletes_the_entry_by_name_witness :
  JSMap.get "alice" (activeConnections (second_login 2)) = Some 1
  ∧ (conn ∘ info <$> heap (second_login 2) !! 1) = Some 1
  ∧ JSMap.get "alice"
      (activeConnections
         (handle (cfg 2) Examples.users (Some Examples.client)
            Examples.basename Examples.dirname Examples.extname
            Examples.JSON_parse (second_login 2) (ConnClose 0))) = None.
Proof.
  split; [vm_compute; reflexivity|]. split; [vm_compute; reflexivity|].
  assert (∃ cl, heap (second_login 2) !! 0 = Some cl
                ∧ conn (info cl) = 0 ∧ username (info cl) = "alice")
    as (cl & Hcl & Hconn & Hname).
  { eexists. split_and!; vm_compute; reflexivity. }
  rewrite <-Hname.
  apply (RegistryFacts.disconnect_deletes_the_entry_by_name (cfg 2)
           Examples.users (Some Examples.client) Examples.basename
           Examples.dirname Examples.extname Examples.JSON_parse
           (second_login 2) 0 cl).
  - apply second_login_reachable.
  - exact Hcl.
  - left. by rewrite Hconn.
Defined.

(** The connection of alice has been destroyed without a [close] event. *)
Definition destroyed_session : world :=
  step 10 init
    [Connect "10.0.0.1"; Login 0 "alice" "s1";
     Socket 0 (mkConnection "10.0.0.1" true "closed" None)].

Lemma sweep_removes_exactly_the_stale_sessions_witness :
  activeConnections destroyed_session = [("alice", 0)]
  ∧ JSMap.get "alice"
      (activeConnections
         (handle (cfg 10) Examples.users (Some Examples.client)
            Examples.basename Examples.dirname Examples.extname
            Examples.JSON_parse destroyed_session Sweep)) = None
  ∧ timers
      (handle (cfg 10) Examples.users (Some Examples.client)
         Examples.basename Examples.dirname Examples.extname
         Examples.JSON_parse destroyed_session Sweep) =
    timers destroyed_session.
Proof.
  split; [vm_compute; reflexivity|].
  destruct (RegistryFacts.sweep_removes_exactly_the_stale_sessions (cfg 10)
              Examples.users (Some Examples.client) Examples.basename
              Examples.dirname Examples.extname Examples.JSON_parse
              destroyed_session) as (Hget & _ & _ & Htimers & _).
  { eexists. reflexivity. }
  split; [|exact Htimers].
  destruct (JSMap.get "alice" _) as [ref|] eqn:E; [|reflexivity].
  apply Hget in E as [E Hlive].
  assert (JSMap.get "alice" (activeConnections destroyed_session) = Some 0)
    as E0 by (vm_compute; reflexivity).
  rewrite E0 in E. injection E as <-.
  assert (is_stale 0 destroyed_session = true) as Hs
    by (vm_compute; reflexivity).
  rewrite Hs in Hlive. discriminate Hlive.
Defined.

(** After her login at time 0 the idle timer of alice is timer 0, due
    at 60000. With an idle timeout of 3000000000 ms, which is more than a
    timer of Node can wait, it is due at 1. *)
Definition long_idle : config :=
  mkConfig 10 3000000000 10000 "./scans" 30000.

Definition long_idle_login : world :=
  run long_idle Examples.users (Some Examples.client) Examples.basename
    Examples.dirname Examples.extname Examples.JSON_parse init
    [Connect "10.0.0.1"; Login 0 "alice" "s1"].

Lemma idle_timer_is_due_after_last_activity_witness :
  timers (first_login 10) !! 0 = Some (mkTimer 60000 (IdleTimeout 0))
  ∧ (∃ cl, heap (first_login 10) !! 0 = Some cl ∧ idleTimer cl = 0 ∧
       due (mkTimer 60000 (IdleTimeout 0)) =
         (lastActivity (info cl) + timer_delay (IDLE_TIMEOUT (cfg 10)))%N)
  ∧ timers long_idle_login !! 0 = Some (mkTimer 1 (IdleTimeout 0))
  ∧ (∃ cl, heap long_idle_login !! 0 = Some cl ∧ idleTimer cl = 0 ∧
       due (mkTimer 1 (IdleTimeout 0)) =
         (lastActivity (info cl) + timer_delay (IDLE_TIMEOUT long_idle))%N).
Proof.
  assert (timers (first_login 10) !! 0 = Some (mkTimer 60000 (IdleTimeout 0)))
    as Ht by (vm_compute; reflexivity).
  assert (timers long_idle_login !! 0 = Some (mkTimer 1 (IdleTimeout 0)))
    as Ht' by (vm_compute; reflexivity).
  split; [exact Ht|]. split; [|split; [exact Ht'|]].
  - apply (IdleTimerFacts.idle_timer_is_due_after_last_activity (cfg 10)
             Examples.users (Some Examples.client) Examples.basename
             Examples.dirname Examples.extname Examples.JSON_parse
             (first_login 10) 0 _ 0); [|exact Ht|reflexivity].
    eexists. reflexivity.
  - apply (IdleTimerFacts.idle_timer_is_due_after_last_activity long_idle
             Examples.users (Some Examples.client) Examples.basename
             Examples.dirname Examples.extname Examples.JSON_parse
             long_idle_login 0 _ 0); [|exact Ht'|reflexivity].
    eexists. reflexivity.
Defined.

End CoverageScenarios.

(** ** Runs of the backup and the ftpd gateway *)
Module DrainScenarios.
Import QueueScenarios.

(** The backup gateway, when the first drain of two files has returned:
    the upload of the first file has failed, that of the second has
    succeeded. *)
Definition to_first_drain_over : list Simple.event :=
  to_first_failed ++
  [Simple.UploadSettled 0 None; Simple.Tick 3000; Simple.Elapsed 0].

Definition first_drain_over : Simple.world :=
  Simple.run simple_cfg Examples.users Examples.basename Examples.path_join
    Simple.init to_first_drain_over.

Lemma backup_drain_accounts_for_its_copy_witness :
  Simple.tasks first_drain_over !! 0
    = Some (Simple.mkTask [a; b] 2 1 1 Returned)
  ∧ attempts_of 0 (Simple.trace first_drain_over) = [a; b]
  ∧ SimpleQueueFacts.said (Simple.trace first_drain_over) 0
      ("Processing " +:+ pretty (length [a; b]) +:+ " files...")
  ∧ SimpleQueueFacts.said (Simple.trace first_drain_over) 0
      ("Upload complete: " +:+ pretty 1 +:+ " success, " +:+ pretty 1 +:+
       " failed").
Proof.
  unfold first_drain_over.
  assert (Simple.tasks
            (Simple.run simple_cfg Examples.users Examples.basename
               Examples.path_join Simple.init to_first_drain_over) !! 0
          = Some (Simple.mkTask [a; b] 2 1 1 Returned)) as Htask
    by (vm_compute; reflexivity).
  destruct (SimpleQueueFacts.backup_drain_accounts_for_its_copy simple_cfg
              Examples.users Examples.basename Examples.path_join
              to_first_drain_over 0 _ Htask)
    as (Hsaid & _ & _ & _ & Hret).
  destruct (Hret eq_refl) as (Hall & _ & Hsum).
  split; [exact Htask|]. split; [exact Hall|].
  split; [exact Hsaid | exact Hsum].
Defined.

(** The two gateways on the two files of alice, the upload of the first
    of which fails: in the gateway with snapshot-and-clear the file is out
    of the queue and stays out; in the backup gateway the queue is as it
    was, and the drain that starts next takes both files as its copy. *)
Lemma dispatched_item_and_the_queue_witness :
  a ∈ attempts_of 0 (Fixed.trace first_failed)
  ∧ (a ∉ Fixed.uploadQueue (fixed_run first_failed later))
  ∧ NoDup (attempts_of 0 (Fixed.trace (fixed_run first_failed later)))
  ∧ Simple.uploadQueue simple_two_files = [a; b]
  ∧ Simple.uploadQueue
      (Simple.handle simple_cfg Examples.users Examples.basename
         Examples.path_join simple_two_files
         (Simple.UploadSettled 0 (Some timeout))) = [a; b]
  ∧ ∃ t,
      Simple.tasks
        (Simple.processUploads simple_cfg Examples.basename
           simple_first_failed) !! 1 = Some t ∧
      Simple.snapshot t = [a; b].
Proof.
  destruct (RequeueFacts.dispatched_item_and_the_queue fixed_cfg simple_cfg
              Examples.users Examples.basename Examples.path_join)
    as (HF & _ & HS & HN & _).
  assert (a ∈ attempts_of 0 (Fixed.trace first_failed)) as Hin.
  { assert (attempts_of 0 (Fixed.trace first_failed) = [a]) as ->
      by (vm_compute; reflexivity).
    constructor. }
  assert (Fixed.reachable fixed_cfg Examples.users Examples.basename
            first_failed) as Hr
    by (apply FixedFacts.reachable_run; exact two_files_reachable).
  destruct (HF first_failed 0 a later Hr Hin) as (H1 & _ & H3).
  assert (Simple.uploadQueue simple_two_files = [a; b]) as Hq
    by (vm_compute; reflexivity).
  assert (Simple.tasks simple_two_files !! 0
          = Some (Simple.mkTask [a; b] 0 0 0 AwaitUpload)) as Htask
    by (vm_compute; reflexivity).
  assert (Simple.uploadQueue simple_first_failed = [a; b]) as Hq'
    by (vm_compute; reflexivity).
  assert (length (Simple.tasks simple_first_failed) = 1) as Hlen
    by (vm_compute; reflexivity).
  split; [exact Hin|]. split; [exact H1|]. split; [exact H3|].
  split; [exact Hq|]. split.
  - rewrite (HS simple_two_files 0 _ a timeout Htask eq_refl eq_refl).
    exact Hq.
  - destruct (HN simple_first_failed a [b] Hq') as (t & Ht & Hs).
    rewrite Hlen in Ht. by exists t.
Defined.

(** A file of alice and a file sent under the user name constructor. *)
Definition to_upload_by_constructor : list Simple.event :=
  [Simple.Upload "b.pdf" "alice"; Simple.Upload "x.pdf" "constructor"].

Lemma backup_queued_file_destination_witness :
  Simple.uploadQueue
    (Simple.run simple_cfg Examples.users Examples.basename
       Examples.path_join Simple.init to_upload_by_constructor) =
    [mkItem 0 "scans/b.pdf" "/Shared/Userfiles/alice/b.pdf" "b.pdf" "alice";
     mkItem 1 "scans/x.pdf" "undefined/x.pdf" "x.pdf" "constructor"]
  ∧ (∃ userInfo,
       Examples.users !! "alice" = Some userInfo ∧
       "/Shared/Userfiles/alice/b.pdf" =
         User.egnytePath userInfo +:+ "/" +:+ "b.pdf")
  ∧ Examples.users !! "constructor" = None.
Proof.
  assert (Simple.uploadQueue
            (Simple.run simple_cfg Examples.users Examples.basename
               Examples.path_join Simple.init to_upload_by_constructor) =
          [mkItem 0 "scans/b.pdf" "/Shared/Userfiles/alice/b.pdf" "b.pdf"
             "alice";
           mkItem 1 "scans/x.pdf" "undefined/x.pdf" "x.pdf" "constructor"])
    as Hq by (vm_compute; reflexivity).
  split; [exact Hq|].
  destruct (SimpleQueueFacts.backup_queued_file_destination
              simple_cfg Examples.users Examples.basename Examples.path_join
              to_upload_by_constructor
              (mkItem 0 "scans/b.pdf" "/Shared/Userfiles/alice/b.pdf" "b.pdf"
                 "alice"))
    as [_ [Hown|[Habs _]]].
  { rewrite Hq. apply elem_of_cons. by left. }
  2:{ vm_compute in Habs. discriminate Habs. }
  destruct (SimpleQueueFacts.backup_queued_file_destination
              simple_cfg Examples.users Examples.basename Examples.path_join
              to_upload_by_constructor
              (mkItem 1 "scans/x.pdf" "undefined/x.pdf" "x.pdf"
                 "constructor"))
    as [_ [(userInfo & Habs & _)|[Hnone _]]].
  { rewrite Hq. apply elem_of_cons. right. apply elem_of_cons. by left. }
  { vm_compute in Habs. discriminate Habs. }
  split; [exact Hown | exact Hnone].
Defined.

(** The ftpd gateway: the only upload of a drain fails. *)
Lemma ftpd_drain_end_empties_the_queue_witness :
  Ftpd.uploadQueue ftpd_draining = [a]
  ∧ Ftpd.uploadQueue
      (Ftpd.handle ftpd_cfg Examples.users Examples.basename ftpd_draining
         (Ftpd.UploadSettled 0 (Some timeout))) = []
  ∧ Ftpd.fs
      (Ftpd.handle ftpd_cfg Examples.users Examples.basename ftpd_draining
         (Ftpd.UploadSettled 0 (Some timeout))) !! localPath a = Some 10%N.
Proof.
  split; [vm_compute; reflexivity|].
  assert (Ftpd.tasks ftpd_draining !! 0
          = Some (Ftpd.mkTask 1 (Some a) AwaitUpload)) as Htask
    by (vm_compute; reflexivity).
  assert (Ftpd.tasks
            (Ftpd.handle ftpd_cfg Examples.users Examples.basename
               ftpd_draining (Ftpd.UploadSettled 0 (Some timeout))) !! 0
          = Some (Ftpd.mkTask 1 (Some a) Returned)) as Htask'
    by (vm_compute; reflexivity).
  destruct (FtpdQueueFacts.ftpd_drain_end_empties_the_queue ftpd_cfg
              Examples.users Examples.basename ftpd_draining
              (Ftpd.UploadSettled 0 (Some timeout)) 0 _ _ Htask
              ltac:(discriminate) Htask' eq_refl) as [Hq Hfs].
  split; [exact Hq|].
  destruct Hfs as [-> | (item & _ & Habs & _)]; [|discriminate Habs].
  vm_compute. reflexivity.
Defined.

End DrainScenarios.
